(** * A shallow embedding of Stage's model core (libstage/model.cc)

    Poses, velocities and geometry are taken over the exact reals [R]:
    the C++ code computes in [double], and every statement below is
    about the real-number idealisation of that code.  The world is an
    explicit state threaded through a small state-and-error monad;
    pointers are model ids, the C++ object graph is an association list
    from ids to [model] records. *)

From Stdlib Require Import Reals Lra List Bool Arith ZArith Lia.
From Stdlib Require Import ClassicalDescription.
Import ListNotations.

Open Scope R_scope.

(** ** Geometry records (stg_pose_t, stg_velocity_t, stg_geom_t, ...) *)

Record pose := mk_pose { px : R; py : R; pz : R; pa : R }.
Record velocity := mk_velocity { vx : R; vy : R; vz : R; va : R }.
Record size3 := mk_size { sx : R; sy : R; sz : R }.
Record geom := mk_geom { g_pose : pose; g_size : size3 }.
Record point := mk_point { ptx : R; pty : R }.

Definition zero_pose : pose := mk_pose 0 0 0 0.

(** Modelled from the spec: [pose_sum] / [stg_pose_sum], the pose
    composition of the geometry code (not part of model.cc), §4.1:
    [b] expressed in [a]'s frame. *)
Definition pose_sum (a b : pose) : pose :=
  mk_pose (px a + px b * cos (pa a) - py b * sin (pa a))
          (py a + px b * sin (pa a) + py b * cos (pa a))
          (pz a + pz b)
          (pa a + pa b).

(** Modelled from the spec: [normalize], the angle normalisation of the
    geometry code (not part of model.cc), §4.1: [a] mod 2π shifted into
    (−π, π].  [Int_part] is the floor function. *)
Definition normalize (a : R) : R :=
  a + 2 * PI * IZR (Int_part (- ((a - PI) / (2 * PI)))).

(** Modelled from the spec: the C library's [atan2] and [hypot] used by
    TestCollision (standard definitions, with atan2(±0, x<0) = π). *)
Definition atan2 (y x : R) : R :=
  if Rlt_dec 0 x then atan (y / x)
  else if Rlt_dec x 0 then
         (if Rle_dec 0 y then atan (y / x) + PI else atan (y / x) - PI)
  else if Rlt_dec 0 y then PI / 2
  else if Rlt_dec y 0 then - (PI / 2)
  else 0.

Definition hypot (x y : R) : R := sqrt (x * x + y * y).

(** The C++ [GlobalToLocal] body (model.cc), for a frame origin [org]:
    x and y are rotated into the frame, the heading is differenced, and
    z is left as it is. *)
Definition global_to_local (org p : pose) : pose :=
  mk_pose ((px p - px org) * cos (pa org) + (py p - py org) * sin (pa org))
          (- (px p - px org) * sin (pa org) + (py p - py org) * cos (pa org))
          (pz p)
          (pa p - pa org).

(** ** Blocks, trail items, models *)

(** [StgBlock]: a polygon outline with a z band.  [b_id] stands for the
    block's address. *)
Record block := mk_block { b_id : nat; b_pts : list point; b_zmin : R; b_zmax : R }.

Record trail_item := mk_trail_item { t_pose : pose; t_color : Z; t_time : Z }.

(** The fields of [StgModel] the core operations read or write. *)
Record model := mk_model {
  m_parent : option nat;
  m_children : list nat;
  m_pose : pose;
  m_global_pose : pose;
  m_gpose_dirty : bool;
  m_geom : geom;
  m_velocity : velocity;
  m_stall : bool;
  m_blocks : list block;
  m_obstacle_return : bool;
  m_disabled : bool;
  m_on_velocity_list : bool;
  m_subs : Z;
  m_trail : list trail_item;
  m_color : Z;
  m_rebuild_displaylist : bool;
  m_has_initfunc : bool
}.

Definition set_m_pose (m : model) (p : pose) : model :=
  {| m_parent := m_parent m; m_children := m_children m; m_pose := p;
     m_global_pose := m_global_pose m; m_gpose_dirty := m_gpose_dirty m;
     m_geom := m_geom m; m_velocity := m_velocity m; m_stall := m_stall m;
     m_blocks := m_blocks m; m_obstacle_return := m_obstacle_return m;
     m_disabled := m_disabled m; m_on_velocity_list := m_on_velocity_list m;
     m_subs := m_subs m; m_trail := m_trail m; m_color := m_color m;
     m_rebuild_displaylist := m_rebuild_displaylist m;
     m_has_initfunc := m_has_initfunc m |}.

Definition set_m_gpose_cache (m : model) (g : pose) (dirty : bool) : model :=
  {| m_parent := m_parent m; m_children := m_children m; m_pose := m_pose m;
     m_global_pose := g; m_gpose_dirty := dirty;
     m_geom := m_geom m; m_velocity := m_velocity m; m_stall := m_stall m;
     m_blocks := m_blocks m; m_obstacle_return := m_obstacle_return m;
     m_disabled := m_disabled m; m_on_velocity_list := m_on_velocity_list m;
     m_subs := m_subs m; m_trail := m_trail m; m_color := m_color m;
     m_rebuild_displaylist := m_rebuild_displaylist m;
     m_has_initfunc := m_has_initfunc m |}.

Definition set_m_dirty (m : model) (dirty : bool) : model :=
  set_m_gpose_cache m (m_global_pose m) dirty.

Definition set_m_velocity (m : model) (v : velocity) (onlist : bool) : model :=
  {| m_parent := m_parent m; m_children := m_children m; m_pose := m_pose m;
     m_global_pose := m_global_pose m; m_gpose_dirty := m_gpose_dirty m;
     m_geom := m_geom m; m_velocity := v; m_stall := m_stall m;
     m_blocks := m_blocks m; m_obstacle_return := m_obstacle_return m;
     m_disabled := m_disabled m; m_on_velocity_list := onlist;
     m_subs := m_subs m; m_trail := m_trail m; m_color := m_color m;
     m_rebuild_displaylist := m_rebuild_displaylist m;
     m_has_initfunc := m_has_initfunc m |}.

Definition set_m_stall (m : model) (s : bool) : model :=
  {| m_parent := m_parent m; m_children := m_children m; m_pose := m_pose m;
     m_global_pose := m_global_pose m; m_gpose_dirty := m_gpose_dirty m;
     m_geom := m_geom m; m_velocity := m_velocity m; m_stall := s;
     m_blocks := m_blocks m; m_obstacle_return := m_obstacle_return m;
     m_disabled := m_disabled m; m_on_velocity_list := m_on_velocity_list m;
     m_subs := m_subs m; m_trail := m_trail m; m_color := m_color m;
     m_rebuild_displaylist := m_rebuild_displaylist m;
     m_has_initfunc := m_has_initfunc m |}.

Definition set_m_subs (m : model) (n : Z) : model :=
  {| m_parent := m_parent m; m_children := m_children m; m_pose := m_pose m;
     m_global_pose := m_global_pose m; m_gpose_dirty := m_gpose_dirty m;
     m_geom := m_geom m; m_velocity := m_velocity m; m_stall := m_stall m;
     m_blocks := m_blocks m; m_obstacle_return := m_obstacle_return m;
     m_disabled := m_disabled m; m_on_velocity_list := m_on_velocity_list m;
     m_subs := n; m_trail := m_trail m; m_color := m_color m;
     m_rebuild_displaylist := m_rebuild_displaylist m;
     m_has_initfunc := m_has_initfunc m |}.

Definition set_m_trail (m : model) (t : list trail_item) : model :=
  {| m_parent := m_parent m; m_children := m_children m; m_pose := m_pose m;
     m_global_pose := m_global_pose m; m_gpose_dirty := m_gpose_dirty m;
     m_geom := m_geom m; m_velocity := m_velocity m; m_stall := m_stall m;
     m_blocks := m_blocks m; m_obstacle_return := m_obstacle_return m;
     m_disabled := m_disabled m; m_on_velocity_list := m_on_velocity_list m;
     m_subs := m_subs m; m_trail := t; m_color := m_color m;
     m_rebuild_displaylist := m_rebuild_displaylist m;
     m_has_initfunc := m_has_initfunc m |}.

Definition set_m_redraw (m : model) (b : bool) : model :=
  {| m_parent := m_parent m; m_children := m_children m; m_pose := m_pose m;
     m_global_pose := m_global_pose m; m_gpose_dirty := m_gpose_dirty m;
     m_geom := m_geom m; m_velocity := m_velocity m; m_stall := m_stall m;
     m_blocks := m_blocks m; m_obstacle_return := m_obstacle_return m;
     m_disabled := m_disabled m; m_on_velocity_list := m_on_velocity_list m;
     m_subs := m_subs m; m_trail := m_trail m; m_color := m_color m;
     m_rebuild_displaylist := b;
     m_has_initfunc := m_has_initfunc m |}.

(** ** The world *)

(** Modelled from the spec: one entry of the spatial index (§4.2, §4.3).
    The world's cell raster ([StgWorld::AddBlockPixel], [stg_polygon_3d],
    [MetersToPixels], not in src/) is idealised into one entry per mapped
    block: the block ([e_block], its address), its owner, its outline in
    global coordinates and its global z band, as [StgBlock::Map] leaves
    them (the raster is the set of cells the outline's edges cross). *)
Record entry := mk_entry {
  e_block : nat; e_model : nat; e_pts : list point; e_zmin : R; e_zmax : R }.

(** Callback slots, keyed in the C++ by the address of the field. *)
Inductive cbkey := CbPose | CbVelocity | CbStall | CbStartup | CbShutdown | CbParent.

(** Observable effects: callbacks fired and [initfunc] invocations. *)
Inductive event := EvCallback (id : nat) (k : cbkey) | EvInitfunc (id : nat).

Record world := mk_world {
  w_models : list (nat * model);
  w_index : list entry;
  w_velocity_list : list nat;
  w_update_list : list nat;
  w_total_subs : Z;
  w_updates : nat;
  w_sim_time : Z;
  w_interval_sim : Z;
  w_log : list event
}.

Definition set_w_models (w : world) (ms : list (nat * model)) : world :=
  mk_world ms (w_index w) (w_velocity_list w) (w_update_list w)
    (w_total_subs w) (w_updates w) (w_sim_time w) (w_interval_sim w) (w_log w).
Definition set_w_index (w : world) (ix : list entry) : world :=
  mk_world (w_models w) ix (w_velocity_list w) (w_update_list w)
    (w_total_subs w) (w_updates w) (w_sim_time w) (w_interval_sim w) (w_log w).
Definition set_w_velocity_list (w : world) (l : list nat) : world :=
  mk_world (w_models w) (w_index w) l (w_update_list w)
    (w_total_subs w) (w_updates w) (w_sim_time w) (w_interval_sim w) (w_log w).
Definition set_w_update_list (w : world) (l : list nat) : world :=
  mk_world (w_models w) (w_index w) (w_velocity_list w) l
    (w_total_subs w) (w_updates w) (w_sim_time w) (w_interval_sim w) (w_log w).
Definition set_w_total_subs (w : world) (n : Z) : world :=
  mk_world (w_models w) (w_index w) (w_velocity_list w) (w_update_list w)
    n (w_updates w) (w_sim_time w) (w_interval_sim w) (w_log w).
Definition set_w_log (w : world) (l : list event) : world :=
  mk_world (w_models w) (w_index w) (w_velocity_list w) (w_update_list w)
    (w_total_subs w) (w_updates w) (w_sim_time w) (w_interval_sim w) l.

Fixpoint find_model (ms : list (nat * model)) (id : nat) : option model :=
  match ms with
  | [] => None
  | (k, m) :: ms' => if Nat.eqb k id then Some m else find_model ms' id
  end.

(** Overwrites the model [find_model] finds. *)
Fixpoint replace_model (ms : list (nat * model)) (id : nat) (m : model)
  : list (nat * model) :=
  match ms with
  | [] => []
  | (k, x) :: ms' => if Nat.eqb k id then (k, m) :: ms' else (k, x) :: replace_model ms' id m
  end.

(** ** A state and error monad *)

(** [ENullDeref]: a method called through a null pointer;
    [ENoModel]: a dangling model id; [EFuel]: recursion bound reached;
    [EUninit]: an uninitialised local variable is read. *)
Inductive err := ENoModel | ENullDeref | EFuel | EUninit.

Inductive result (A : Type) := Ok (a : A) | Fail (e : err).
Arguments Ok {A} a.
Arguments Fail {A} e.

Definition M (A : Type) := world -> result (A * world).

Definition ret {A} (a : A) : M A := fun w => Ok (a, w).
Definition fail {A} (e : err) : M A := fun _ => Fail e.
Definition bind {A B} (c : M A) (k : A -> M B) : M B :=
  fun w => match c w with Ok (a, w') => k a w' | Fail e => Fail e end.

Notation "x <- c1 ;; c2" := (bind c1 (fun x => c2))
  (at level 61, c1 at next level, right associativity).
Notation "c1 ;;; c2" := (bind c1 (fun _ => c2))
  (at level 61, right associativity).

Definition get_world : M world := fun w => Ok (w, w).
Definition put_world (w : world) : M unit := fun _ => Ok (tt, w).

Definition get_model (id : nat) : M model :=
  fun w => match find_model (w_models w) id with
           | Some m => Ok (m, w)
           | None => Fail ENoModel
           end.

Definition put_model (id : nat) (m : model) : M unit :=
  fun w => Ok (tt, set_w_models w (replace_model (w_models w) id m)).

(** [CallCallbacks(&field)]. *)
Definition call_callbacks (id : nat) (k : cbkey) : M unit :=
  fun w => Ok (tt, set_w_log w (w_log w ++ [EvCallback id k])).

(** ** Poses in the model tree *)

(** [StgModel::GetGlobalPose]: always recomputes (the dirty test is
    commented out in the source), writes the cache and clears
    [gpose_dirty]. *)
Fixpoint get_global_pose (fuel : nat) (id : nat) : M pose :=
  match fuel with
  | O => fail EFuel
  | S f =>
      m <- get_model id ;;
      match m_parent m with
      | Some pid =>
          parent_pose <- get_global_pose f pid ;;
          par <- get_model pid ;;
          me <- get_model id ;;
          let g0 := pose_sum parent_pose (m_pose me) in
          let g := mk_pose (px g0) (py g0) (pz g0 + sz (g_size (m_geom par))) (pa g0) in
          put_model id (set_m_gpose_cache me g false) ;;;
          ret g
      | None =>
          put_model id (set_m_gpose_cache m (m_pose m) false) ;;;
          ret (m_pose m)
      end
  end.

(** [StgModel::LocalToGlobal(stg_pose_t)]. *)
Definition local_to_global (fuel : nat) (id : nat) (p : pose) : M pose :=
  g <- get_global_pose fuel id ;;
  m <- get_model id ;;
  ret (pose_sum (pose_sum g (g_pose (m_geom m))) p).

(** [stg_point3_t]. *)
Record point3 := mk_point3 { p3x : R; p3y : R; p3z : R }.

(** [StgModel::LocalToGlobal(stg_point3_t)]: the point as a pose of
    heading 0 through [LocalToGlobal(stg_pose_t)]. *)
Definition local_to_global_point (fuel : nat) (id : nat) (q : point3) : M point3 :=
  g <- local_to_global fuel id (mk_pose (p3x q) (p3y q) (p3z q) 0) ;;
  ret (mk_point3 (px g) (py g) (pz g)).

(** [StgModel::GlobalToLocal]. *)
Definition GlobalToLocal (fuel : nat) (id : nat) (p : pose) : M pose :=
  org <- get_global_pose fuel id ;;
  ret (global_to_local org p).

(** [StgModel::IsAntecedent]: the recursion has no case for a model
    without a parent; calling through the null [Parent()] is an error. *)
Fixpoint is_antecedent (fuel : nat) (ms : list (nat * model)) (this t : nat)
  : result bool :=
  match fuel with
  | O => Fail EFuel
  | S f =>
      if Nat.eqb this t then Ok true
      else match find_model ms this with
           | None => Fail ENoModel
           | Some m =>
               match m_parent m with
               | None => Fail ENullDeref
               | Some p =>
                   match is_antecedent f ms p t with
                   | Ok true => Ok true
                   | Ok false => Ok false
                   | Fail e => Fail e
                   end
               end
           end
  end.

(** ** The spatial index and the world's raytrace *)

(** Modelled from the spec: the segment of a ray (§4.3) starting at the
    global pose [o], along its heading, for [range] metres, meets an edge
    (pt[i], pt[i+1 mod n]) of the mapped outline [e]. *)
Definition ray_meets (o : pose) (range : R) (e : entry) : Prop :=
  let pts := e_pts e in
  let n := length pts in
  exists t i u,
    0 <= t <= 1 /\ (i < n)%nat /\ 0 <= u <= 1 /\
    let q1 := nth i pts (mk_point 0 0) in
    let q2 := nth ((i + 1) mod n) pts (mk_point 0 0) in
    px o + t * range * cos (pa o) = ptx q1 + u * (ptx q2 - ptx q1) /\
    py o + t * range * sin (pa o) = pty q1 + u * (pty q2 - pty q1).

(** [stg_block_match_func_t]: [predicate(block, requester)]. *)
Definition match_func := world -> entry -> nat -> bool.

(** Modelled from the spec: [StgWorld::Raytrace] (§4.3, §6).  Blocks of
    the requester are skipped, the z filter compares the origin's z with
    the block's global z band, then the predicate decides; the result is a
    qualifying block the ray meets, taken in index order (the order of
    hits along the ray is not modelled), or none. *)
Fixpoint raytrace_in (w : world) (ix : list entry) (o : pose) (range : R)
    (func : match_func) (req : nat) (ztest : bool) : option entry :=
  match ix with
  | [] => None
  | e :: ix' =>
      let zok := if ztest then
                   (if Rle_dec (e_zmin e) (pz o) then
                      if Rle_dec (pz o) (e_zmax e) then true else false
                    else false)
                 else true in
      if negb (Nat.eqb (e_model e) req) && zok && func w e req then
        if excluded_middle_informative (ray_meets o range e) then Some e
        else raytrace_in w ix' o range func req ztest
      else raytrace_in w ix' o range func req ztest
  end.

Definition raytrace (w : world) (o : pose) (range : R) (func : match_func)
    (req : nat) (ztest : bool) : option entry :=
  raytrace_in w (w_index w) o range func req ztest.

(** [collision_match] (model.cc): the block's model is not the finder and
    is an obstacle. *)
Definition collision_match : match_func :=
  fun w e finder =>
    negb (Nat.eqb (e_model e) finder) &&
    match find_model (w_models w) (e_model e) with
    | Some m => m_obstacle_return m
    | None => false
    end.

(** ** Monadic iteration *)

Fixpoint mmap {A B} (f : A -> M B) (l : list A) : M (list B) :=
  match l with
  | [] => ret []
  | x :: l' => y <- f x ;; ys <- mmap f l' ;; ret (y :: ys)
  end.

Fixpoint miter {A} (f : A -> M unit) (l : list A) : M unit :=
  match l with
  | [] => ret tt
  | x :: l' => f x ;;; miter f l'
  end.

Fixpoint mfold {A B} (f : A -> B -> M A) (acc : A) (l : list B) : M A :=
  match l with
  | [] => ret acc
  | x :: l' => acc' <- f acc x ;; mfold f acc' l'
  end.

(** [g_list_remove]: drops the first occurrence. *)
Fixpoint list_remove (x : nat) (l : list nat) : list nat :=
  match l with
  | [] => []
  | y :: l' => if Nat.eqb y x then l' else y :: list_remove x l'
  end.

(** [memcmp] of two poses, over the reals. *)
Definition pose_eqb (a b : pose) : bool :=
  if Req_dec_T (px a) (px b) then
    if Req_dec_T (py a) (py b) then
      if Req_dec_T (pz a) (pz b) then
        if Req_dec_T (pa a) (pa b) then true else false
      else false
    else false
  else false.

(** [velocity_is_nonzero]. *)
Definition velocity_is_nonzero (v : velocity) : bool :=
  if Req_dec_T (vx v) 0 then
    if Req_dec_T (vy v) 0 then
      if Req_dec_T (vz v) 0 then
        if Req_dec_T (va v) 0 then false else true
      else true
    else true
  else true.

(** ** Model operations.  [fuel] bounds the depth of the model tree. *)

Section Ops.

Variable fuel : nat.

(** [StgBlock::Map]: every vertex (x, y, zmin) goes through the owner's
    point [LocalToGlobal]; the block's global z band is [global.z] and
    [global.z + (zmax - zmin)] for the [global] of the last vertex, which
    the loop leaves uninitialised when the block has no vertex.  The
    rasterisation of the global outline ([MetersToPixels],
    [stg_polygon_3d], [StgWorld::AddBlockPixel], not in src/) is modelled
    from the spec (§4.2) as one index entry. *)
Definition block_map (id : nat) (b : block) : M unit :=
  gpts <- mmap (fun q => local_to_global_point fuel id (mk_point3 (ptx q) (pty q) (b_zmin b)))
               (b_pts b) ;;
  match rev gpts with
  | [] => fail EUninit
  | global :: _ =>
      w <- get_world ;;
      put_world (set_w_index w
        (mk_entry (b_id b) id (map (fun g => mk_point (p3x g) (p3y g)) gpts)
                  (p3z global) (p3z global + (b_zmax b - b_zmin b)) :: w_index w))
  end.

(** [StgBlock::UnMap]: every cell entry the block recorded in
    [rendered_points] leaves the index; those are exactly the entries of
    this block (of its address [b_id]). *)
Definition block_unmap (b : block) : M unit :=
  w <- get_world ;;
  put_world (set_w_index w
    (filter (fun e => negb (Nat.eqb (e_block e) (b_id b))) (w_index w))).

(** [StgModel::Map] and [StgModel::UnMap]. *)
Definition model_map (id : nat) : M unit :=
  m <- get_model id ;; miter (block_map id) (m_blocks m).

Definition model_unmap (id : nat) : M unit :=
  m <- get_model id ;; miter block_unmap (m_blocks m).

(** [StgModel::MapWithChildren] and [StgModel::UnMapWithChildren]. *)
Fixpoint map_with_children_rec (f : nat) (id : nat) : M unit :=
  match f with
  | O => fail EFuel
  | S f' =>
      model_map id ;;;
      m <- get_model id ;;
      miter (map_with_children_rec f') (m_children m)
  end.

Fixpoint unmap_with_children_rec (f : nat) (id : nat) : M unit :=
  match f with
  | O => fail EFuel
  | S f' =>
      model_unmap id ;;;
      m <- get_model id ;;
      miter (unmap_with_children_rec f') (m_children m)
  end.

Definition map_with_children := map_with_children_rec fuel.
Definition unmap_with_children := unmap_with_children_rec fuel.

(** [StgModel::NeedRedraw]. *)
Fixpoint need_redraw_rec (f : nat) (id : nat) : M unit :=
  match f with
  | O => fail EFuel
  | S f' =>
      m <- get_model id ;;
      put_model id (set_m_redraw m true) ;;;
      match m_parent m with
      | Some p => need_redraw_rec f' p
      | None => ret tt
      end
  end.

(** [StgModel::GPoseDirtyTree]. *)
Fixpoint gpose_dirty_tree_rec (f : nat) (id : nat) : M unit :=
  match f with
  | O => fail EFuel
  | S f' =>
      m <- get_model id ;;
      put_model id (set_m_dirty m true) ;;;
      miter (gpose_dirty_tree_rec f') (m_children m)
  end.

Definition gpose_dirty_tree := gpose_dirty_tree_rec fuel.

(** [StgModel::SetPose]. *)
Definition SetPose (id : nat) (p : pose) : M unit :=
  m <- get_model id ;;
  (if pose_eqb (m_pose m) p then ret tt
   else
     unmap_with_children id ;;;
     let p1 := mk_pose (px p) (py p) (pz p) (normalize (pa p)) in
     m1 <- get_model id ;;
     put_model id (set_m_pose m1
       (mk_pose (px p1) (py p1) (pz p1) (normalize (pa p1)))) ;;;
     need_redraw_rec fuel id ;;;
     gpose_dirty_tree id ;;;
     map_with_children id) ;;;
  call_callbacks id CbPose.

(** [StgModel::SetStall]. *)
Definition SetStall (id : nat) (s : bool) : M unit :=
  m <- get_model id ;;
  put_model id (set_m_stall m s) ;;;
  call_callbacks id CbStall.

(** [StgModel::SetVelocity]. *)
Definition SetVelocity (id : nat) (vel : velocity) : M unit :=
  m0 <- get_model id ;;
  put_model id (set_m_velocity m0 vel (m_on_velocity_list m0)) ;;;
  m1 <- get_model id ;;
  (if negb (m_on_velocity_list m1) && velocity_is_nonzero (m_velocity m1) then
     w <- get_world ;;
     put_world (set_w_velocity_list w (id :: w_velocity_list w)) ;;;
     put_model id (set_m_velocity m1 (m_velocity m1) true)
   else ret tt) ;;;
  m2 <- get_model id ;;
  (if m_on_velocity_list m2 && negb (velocity_is_nonzero (m_velocity m2)) then
     w <- get_world ;;
     put_world (set_w_velocity_list w (list_remove id (w_velocity_list w))) ;;;
     put_model id (set_m_velocity m2 (m_velocity m2) false)
   else ret tt) ;;;
  call_callbacks id CbVelocity.

(** Modelled from the spec: [StgWorld::StartUpdatingModel] and
    [StgWorld::StopUpdatingModel] (§4.5): the model joins the update list
    at its end, and leaves it. *)
Definition start_updating_model (id : nat) : M unit :=
  w <- get_world ;; put_world (set_w_update_list w (w_update_list w ++ [id])).

Definition stop_updating_model (id : nat) : M unit :=
  w <- get_world ;; put_world (set_w_update_list w (list_remove id (w_update_list w))).

(** [StgModel::Startup] and [StgModel::Shutdown]. *)
Definition Startup (id : nat) : M unit :=
  m <- get_model id ;;
  (if m_has_initfunc m then
     w <- get_world ;; put_world (set_w_log w (w_log w ++ [EvInitfunc id]))
   else ret tt) ;;;
  start_updating_model id ;;;
  call_callbacks id CbStartup.

Definition Shutdown (id : nat) : M unit :=
  stop_updating_model id ;;;
  call_callbacks id CbShutdown.

(** [StgModel::Subscribe] and [StgModel::Unsubscribe]. *)
Definition Subscribe (id : nat) : M unit :=
  m <- get_model id ;;
  put_model id (set_m_subs m (m_subs m + 1)) ;;;
  w <- get_world ;;
  put_world (set_w_total_subs w (w_total_subs w + 1)) ;;;
  m' <- get_model id ;;
  if Z.eqb (m_subs m') 1 then Startup id else ret tt.

Definition Unsubscribe (id : nat) : M unit :=
  m <- get_model id ;;
  put_model id (set_m_subs m (m_subs m - 1)) ;;;
  w <- get_world ;;
  put_world (set_w_total_subs w (w_total_subs w - 1)) ;;;
  m' <- get_model id ;;
  if Z.ltb (m_subs m') 1 then Shutdown id else ret tt.

(** One edge of one block in [StgModel::TestCollision]. *)
Definition test_edge (id : nat) (posedelta : pose) (pts : list point)
    (hitmod : option nat) (p : nat) : M (option nat) :=
  let n := length pts in
  let pt1 := nth p pts (mk_point 0 0) in
  let pt2 := nth ((p + 1) mod n) pts (mk_point 0 0) in
  let dx := ptx pt2 - ptx pt1 in
  let dy := pty pt2 - pty pt1 in
  let range := hypot dx dy in
  let bearing := atan2 dy dx in
  let edgepose := mk_pose (ptx pt1) (pty pt1) 0 bearing in
  o <- local_to_global fuel id (pose_sum posedelta edgepose) ;;
  w <- get_world ;;
  match raytrace w o range collision_match id true with
  | Some e => ret (Some (e_model e))
  | None => ret hitmod
  end.

Definition test_block (id : nat) (posedelta : pose) (hitmod : option nat)
    (b : block) : M (option nat) :=
  mfold (test_edge id posedelta (b_pts b)) hitmod (seq 0 (length (b_pts b))).

(** [StgModel::TestCollision(posedelta, ...)]. *)
Definition TestCollision (id : nat) (posedelta : pose) : M (option nat) :=
  m <- get_model id ;;
  match m_blocks m with
  | [] => ret None
  | _ =>
      model_unmap id ;;;
      hitmod <- mfold (test_block id posedelta) None (m_blocks m) ;;
      model_map id ;;;
      ret hitmod
  end.

(** The trail step of [StgModel::UpdatePose]. *)
Definition trail_append (tr : list trail_item) (cp : trail_item) : list trail_item :=
  (if Nat.ltb 100 (length tr) then tl tr else tr) ++ [cp].

(** [StgModel::UpdatePose]. *)
Definition UpdatePose (id : nat) : M unit :=
  m <- get_model id ;;
  if m_disabled m then ret tt
  else
    w <- get_world ;;
    (if Nat.eqb (Nat.modulo (w_updates w) 10) 0 then
       put_model id (set_m_trail m
         (trail_append (m_trail m) (mk_trail_item (m_pose m) (m_color m) (w_sim_time w))))
     else ret tt) ;;;
    let interval := IZR (w_interval_sim w) / 1000000 in
    m1 <- get_model id ;;
    let v := m_velocity m1 in
    let p := mk_pose (vx v * interval) (vy v * interval) 0 (va v * interval) in
    hitthing <- TestCollision id p ;;
    match hitthing with
    | Some _ => SetStall id true
    | None =>
        SetStall id false ;;;
        m2 <- get_model id ;;
        SetPose id (pose_sum (m_pose m2) p)
    end.

End Ops.

(** ** Concrete scenarios *)

(** The block [AddBlockRect(-0.5, -0.5, 1, 1)] gives every new model:
    a unit square centred on the model origin, z band [0, 1]. *)
Definition unit_square (bid : nat) : block :=
  mk_block bid [mk_point (-1/2) (-1/2); mk_point (1/2) (-1/2);
                mk_point (1/2) (1/2); mk_point (-1/2) (1/2)] 0 1.

(** A model as the constructor leaves it (DEFAULT_COLOR 0xFFFF0000,
    default geometry 0.1 m), with one unit square of id [bid]. *)
Definition new_model (parent : option nat) (bid : nat) : model :=
  mk_model parent [] zero_pose zero_pose true
    (mk_geom zero_pose (mk_size (1/10) (1/10) (1/10)))
    (mk_velocity 0 0 0 0) false [unit_square bid] true false false 0%Z []
    4294901760%Z true false.

Definition empty_world (ms : list (nat * model)) : world :=
  mk_world ms [] [] [] 0%Z 0%nat 0%Z 100000%Z [].

(** S5: one model with an [initfunc] and no subscriptions. *)
Definition sub_model : model :=
  mk_model None [] zero_pose zero_pose true
    (mk_geom zero_pose (mk_size (1/10) (1/10) (1/10)))
    (mk_velocity 0 0 0 0) false [] true false false 0%Z []
    4294901760%Z true true.

Definition sub_world : world := empty_world [(0%nat, sub_model)].

Definition subs_then_unsubs : M unit :=
  Subscribe 0 ;;; Subscribe 0 ;;; Subscribe 0 ;;; Unsubscribe 0 ;;; Unsubscribe 0.

(** Membership in the update list follows the subscription count. *)
Definition update_inv (w : world) (id : nat) (m : model) : Prop :=
  count_occ Nat.eq_dec (w_update_list w) id =
  (if Z.leb 1 (m_subs m) then 1%nat else 0%nat).

(** The ancestor chain of a model: itself, its parent, ..., up to a
    model without a parent. *)
Inductive ancestor_chain (ms : list (nat * model)) : nat -> list nat -> Prop :=
| chain_root id m :
    find_model ms id = Some m -> m_parent m = None -> ancestor_chain ms id [id]
| chain_step id m p l :
    find_model ms id = Some m -> m_parent m = Some p ->
    ancestor_chain ms p l -> ancestor_chain ms id (id :: l).

(** A root model 0 with a child 1. *)
Definition tree_models : list (nat * model) :=
  [(0%nat, new_model None 10); (1%nat, new_model (Some 0%nat) 11)].

(** Membership in the velocity list follows the [on_velocity_list] flag. *)
Definition vel_inv (w : world) (id : nat) (m : model) : Prop :=
  count_occ Nat.eq_dec (w_velocity_list w) id =
  (if m_on_velocity_list m then 1%nat else 0%nat).

(** A model and a world with the global-pose caches ([global_pose],
    [gpose_dirty]) blanked: what every computation except the caches
    themselves reads. *)
Definition strip (m : model) : model := set_m_gpose_cache m zero_pose false.

Definition strip_models (ms : list (nat * model)) : list (nat * model) :=
  map (fun km => (fst km, strip (snd km))) ms.

Definition strip_world (w : world) : world := set_w_models w (strip_models (w_models w)).

(** S1: a parent at (1, 0, 0, π/2) with size.z = 0.2 and a child at
    local pose (1, 0, 0, 0). *)
Definition s1_parent : model :=
  mk_model None [1%nat] (mk_pose 1 0 0 (PI / 2)) zero_pose true
    (mk_geom zero_pose (mk_size (1/10) (1/10) (2/10)))
    (mk_velocity 0 0 0 0) false [unit_square 10] true false false 0%Z []
    4294901760%Z true false.

Definition s1_child : model :=
  mk_model (Some 0%nat) [] (mk_pose 1 0 0 0) zero_pose true
    (mk_geom zero_pose (mk_size (1/10) (1/10) (1/10)))
    (mk_velocity 0 0 0 0) false [unit_square 11] true false false 0%Z []
    4294901760%Z true false.

Definition s1_world : world := empty_world [(0%nat, s1_parent); (1%nat, s1_child)].

(** A root model at the origin whose body is offset by 1 m along x
    ([geom.pose] = (1, 0, 0, 0)). *)
Definition offset_model : model :=
  mk_model None [] zero_pose zero_pose true
    (mk_geom (mk_pose 1 0 0 0) (mk_size (1/10) (1/10) (1/10)))
    (mk_velocity 0 0 0 0) false [unit_square 20] true false false 0%Z []
    4294901760%Z true false.

Definition offset_world : world := empty_world [(0%nat, offset_model)].

(** The trail step of one [UpdatePose] tick at update count [u]. *)
Definition tick_trail (u : nat) (tr : list trail_item) (cp : trail_item) : list trail_item :=
  if Nat.eqb (Nat.modulo u 10) 0 then trail_append tr cp else tr.

(** [n] consecutive ticks from update count [u], checkpointing [cp]. *)
Fixpoint trail_ticks (n u : nat) (tr : list trail_item) (cp : trail_item) : list trail_item :=
  match n with
  | O => tr
  | S n' => trail_ticks n' (S u) (tick_trail u tr cp) cp
  end.

(** The checkpoint and the pose delta [UpdatePose] computes for model [m]
    in world [w]. *)
Definition checkpoint (w : world) (m : model) : trail_item :=
  mk_trail_item (m_pose m) (m_color m) (w_sim_time w).

(** The world after the trail step of [UpdatePose] of model [id], whose
    record before the tick is [m]: the state its [TestCollision] runs in. *)
Definition trail_world (w : world) (id : nat) (m : model) : world :=
  if Nat.eqb (Nat.modulo (w_updates w) 10) 0
  then set_w_models w (replace_model (w_models w) id
         (set_m_trail m (trail_append (m_trail m) (checkpoint w m))))
  else w.

Definition update_delta (w : world) (v : velocity) : pose :=
  mk_pose (vx v * (IZR (w_interval_sim w) / 1000000))
          (vy v * (IZR (w_interval_sim w) / 1000000)) 0
          (va v * (IZR (w_interval_sim w) / 1000000)).

(** S2: A (id 0) at the origin with velocity (v, 0, 0, 0), B (id 1) at
    (2, 0, 0, 0), both unit squares with [obstacle_return] set,
    [interval_sim] = 1 s, both mapped into the spatial index. *)
Definition s2_a (v : R) : model :=
  set_m_velocity (new_model None 10) (mk_velocity v 0 0 0) true.

Definition s2_b : model := set_m_pose (new_model None 11) (mk_pose 2 0 0 0).

Definition s2_start (v : R) : world :=
  mk_world [(0%nat, s2_a v); (1%nat, s2_b)] [] [0%nat] [] 0%Z 0%nat 0%Z 1000000%Z [].

Definition s2_world (v : R) : world :=
  match (model_map 1 0 ;;; model_map 1 1) (s2_start v) with
  | Ok (_, w) => w
  | Fail _ => s2_start v
  end.

(** A model field [f] is the same in [w] and [w']. *)
Definition field_frame {T} (f : model -> T) (w w' : world) : Prop :=
  forall k, option_map f (find_model (w_models w') k) =
            option_map f (find_model (w_models w) k).

(** Every successful run of [c] leaves field [f] of every model alone. *)
Definition keeps {T A} (f : model -> T) (c : M A) : Prop :=
  forall w a w', c w = Ok (a, w') -> field_frame f w w'.

(** [f] does not read the global-pose caches. *)
Definition strip_inv {T} (f : model -> T) : Prop := forall m, f (strip m) = f m.

(** The subtree rooted at [id]: [id] itself and, recursively, every
    child in [m_children] of a node of the subtree. *)
Inductive in_subtree (ms : list (nat * model)) : nat -> nat -> Prop :=
| st_here id : in_subtree ms id id
| st_down id m c k :
    find_model ms id = Some m -> In c (m_children m) -> in_subtree ms c k ->
    in_subtree ms id k.

(** No index entry belongs to a block of model [k]. *)
Definition unmapped (w : world) (k : nat) : Prop :=
  forall mk b e, find_model (w_models w) k = Some mk -> In b (m_blocks mk) ->
    In e (w_index w) -> e_block e <> b_id b.

(** Every block of model [k] has an index entry, recorded for [k]. *)
Definition mapped (w : world) (k : nat) : Prop :=
  forall mk b, find_model (w_models w) k = Some mk -> In b (m_blocks mk) ->
    exists e, In e (w_index w) /\ e_block e = b_id b /\ e_model e = k.

(** Model [k] exists and its [gpose_dirty] flag is set. *)
Definition gpose_dirty_in (w : world) (k : nat) : Prop :=
  exists mk, find_model (w_models w) k = Some mk /\ m_gpose_dirty mk = true.

(** A parent model 0 with one child 1, each with a unit square. *)
Definition pose_tree_world : world :=
  empty_world
    [(0%nat, mk_model None [1%nat] zero_pose zero_pose true
               (mk_geom zero_pose (mk_size (1/10) (1/10) (1/10)))
               (mk_velocity 0 0 0 0) false [unit_square 10] true false false 0%Z []
               4294901760%Z true false);
     (1%nat, new_model (Some 0%nat) 11)].

(** A mover 0 (a unit square at the origin) between two obstacles 1 and
    2, small squares straddling its bottom and its top edge. *)
Definition small_square (bid : nat) (cx cy : R) : block :=
  mk_block bid [mk_point (cx - 1/10) (cy - 1/10); mk_point (cx + 1/10) (cy - 1/10);
                mk_point (cx + 1/10) (cy + 1/10); mk_point (cx - 1/10) (cy + 1/10)] 0 1.

Definition obstacle (b : block) : model :=
  mk_model None [] zero_pose zero_pose true
    (mk_geom zero_pose (mk_size (1/10) (1/10) (1/10)))
    (mk_velocity 0 0 0 0) false [b] true false false 0%Z []
    4294901760%Z true false.

Definition c2_start : world :=
  empty_world [(0%nat, new_model None 10);
               (1%nat, obstacle (small_square 20 0 (-1/2)));
               (2%nat, obstacle (small_square 21 0 (1/2)))].

Definition c2_world : world :=
  match (model_map 1 0 ;;; model_map 1 1 ;;; model_map 1 2) c2_start with
  | Ok (_, w) => w
  | Fail _ => c2_start
  end.

(** The result of [TestCollision]'s loop: a hit replaces the running
    value, a miss keeps it. *)
Definition last_hit (acc r : option nat) : option nat :=
  match r with Some k => Some k | None => acc end.

(** The (block, edge index) pairs in the order TestCollision visits them. *)
Definition block_edges (bs : list block) : list (block * nat) :=
  flat_map (fun b => map (fun p => (b, p)) (seq 0 (length (b_pts b)))) bs.

(** ** More model operations *)

(** The loop of [IsDescendent] over the children list: the first child
    whose recursive call answers true ends it. *)
Fixpoint children_any (g : nat -> result bool) (cs : list nat) : result bool :=
  match cs with
  | [] => Ok false
  | c :: cs' =>
      match g c with
      | Ok true => Ok true
      | Ok false => children_any g cs'
      | Fail e => Fail e
      end
  end.

(** [StgModel::IsDescendent]: [this] itself, or a descendant of one of
    its children. *)
Fixpoint is_descendent (fuel : nat) (ms : list (nat * model)) (this t : nat) : result bool :=
  match fuel with
  | O => Fail EFuel
  | S f =>
      if Nat.eqb this t then Ok true
      else match find_model ms this with
           | None => Fail ENoModel
           | Some m => children_any (fun c => is_descendent f ms c t) (m_children m)
           end
  end.

(** The [while( t->Parent() ) t = t->Parent();] loop of [IsRelated]. *)
Fixpoint find_root (fuel : nat) (ms : list (nat * model)) (t : nat) : result nat :=
  match fuel with
  | O => Fail EFuel
  | S f =>
      match find_model ms t with
      | None => Fail ENoModel
      | Some m =>
          match m_parent m with
          | None => Ok t
          | Some p => find_root f ms p
          end
      end
  end.

(** [StgModel::IsRelated]. *)
Definition is_related (fuel : nat) (ms : list (nat * model)) (this mod2 : nat) : result bool :=
  if Nat.eqb this mod2 then Ok true
  else match find_root fuel ms this with
       | Ok t => is_descendent fuel ms t mod2
       | Fail e => Fail e
       end.

(** The loop of [TreeToPtrArray] over the children list, threading the
    array and the running count [added]. *)
Fixpoint tree_children (g : nat -> list nat -> result (list nat * Z)) (cs : list nat)
    (arr : list nat) (added : Z) : result (list nat * Z) :=
  match cs with
  | [] => Ok (arr, added)
  | c :: cs' =>
      match g c arr with
      | Ok (arr', k) => tree_children g cs' arr' (added + k)
      | Fail e => Fail e
      end
  end.

(** [StgModel::TreeToPtrArray]: appends the model, then the trees of its
    children, to [array]; returns the number of pointers added. *)
Fixpoint tree_to_ptr_array (fuel : nat) (ms : list (nat * model)) (id : nat)
    (arr : list nat) : result (list nat * Z) :=
  match fuel with
  | O => Fail EFuel
  | S f =>
      let arr1 := arr ++ [id] in
      match find_model ms id with
      | None => Fail ENoModel
      | Some m => tree_children (tree_to_ptr_array f ms) (m_children m) arr1 1
      end
  end.

(** The loop of [GetUnsubscribedModelOfType] over the children list: the
    first child whose recursive search finds a model ends it. *)
Fixpoint children_first (g : nat -> result (option nat)) (cs : list nat)
    : result (option nat) :=
  match cs with
  | [] => Ok None
  | c :: cs' =>
      match g c with
      | Ok (Some k) => Ok (Some k)
      | Ok None => children_first g cs'
      | Fail e => Fail e
      end
  end.

(** [StgModel::GetUnsubscribedModelOfType].  The model's [type] field
    (set by the constructor and never changed) is given by [model_type];
    the debug [printf] is not modelled. *)
Fixpoint get_unsubscribed_model_of_type (model_type : nat -> Z) (fuel : nat)
    (ms : list (nat * model)) (id : nat) (ty : Z) : result (option nat) :=
  match fuel with
  | O => Fail EFuel
  | S f =>
      match find_model ms id with
      | None => Fail ENoModel
      | Some m =>
          if Z.eqb (model_type id) ty && Z.eqb (m_subs m) 0 then Ok (Some id)
          else children_first (fun c => get_unsubscribed_model_of_type model_type f ms c ty)
                 (m_children m)
      end
  end.

Definition set_m_children (m : model) (cs : list nat) : model :=
  {| m_parent := m_parent m; m_children := cs; m_pose := m_pose m;
     m_global_pose := m_global_pose m; m_gpose_dirty := m_gpose_dirty m;
     m_geom := m_geom m; m_velocity := m_velocity m; m_stall := m_stall m;
     m_blocks := m_blocks m; m_obstacle_return := m_obstacle_return m;
     m_disabled := m_disabled m; m_on_velocity_list := m_on_velocity_list m;
     m_subs := m_subs m; m_trail := m_trail m; m_color := m_color m;
     m_rebuild_displaylist := m_rebuild_displaylist m;
     m_has_initfunc := m_has_initfunc m |}.

Definition set_m_parent (m : model) (p : option nat) : model :=
  {| m_parent := p; m_children := m_children m; m_pose := m_pose m;
     m_global_pose := m_global_pose m; m_gpose_dirty := m_gpose_dirty m;
     m_geom := m_geom m; m_velocity := m_velocity m; m_stall := m_stall m;
     m_blocks := m_blocks m; m_obstacle_return := m_obstacle_return m;
     m_disabled := m_disabled m; m_on_velocity_list := m_on_velocity_list m;
     m_subs := m_subs m; m_trail := m_trail m; m_color := m_color m;
     m_rebuild_displaylist := m_rebuild_displaylist m;
     m_has_initfunc := m_has_initfunc m |}.

Definition set_m_blocks (m : model) (bs : list block) : model :=
  {| m_parent := m_parent m; m_children := m_children m; m_pose := m_pose m;
     m_global_pose := m_global_pose m; m_gpose_dirty := m_gpose_dirty m;
     m_geom := m_geom m; m_velocity := m_velocity m; m_stall := m_stall m;
     m_blocks := bs; m_obstacle_return := m_obstacle_return m;
     m_disabled := m_disabled m; m_on_velocity_list := m_on_velocity_list m;
     m_subs := m_subs m; m_trail := m_trail m; m_color := m_color m;
     m_rebuild_displaylist := m_rebuild_displaylist m;
     m_has_initfunc := m_has_initfunc m |}.

(** ** The flag list ([StgModel::flag_list]) *)

(** [AddFlag], [RemoveFlag], [PushFlag] and [PopFlag] on the model's
    flag list; a flag pointer is [Some f], NULL is [None]. *)
Definition AddFlag (fl : list nat) (flag : option nat) : list nat :=
  match flag with Some f => fl ++ [f] | None => fl end.

Definition RemoveFlag (fl : list nat) (flag : option nat) : list nat :=
  match flag with Some f => list_remove f fl | None => fl end.

Definition PushFlag (fl : list nat) (flag : option nat) : list nat :=
  match flag with Some f => f :: fl | None => fl end.

Definition PopFlag (fl : list nat) : option nat * list nat :=
  match fl with
  | [] => (None, fl)
  | f :: _ => (Some f, list_remove f fl)
  end.

(** ** More model operations *)

Section MoreOps.

Variable fuel : nat.

(** [StgModel::AddToPose(dx, dy, dz, da)]: [GetPose] returns [pose]. *)
Definition AddToPose (id : nat) (dx dy dz da : R) : M unit :=
  if (if Req_dec_T dx 0 then
        if Req_dec_T dy 0 then
          if Req_dec_T dz 0 then
            if Req_dec_T da 0 then false else true
          else true
        else true
      else true)
  then
    m <- get_model id ;;
    let pose := m_pose m in
    SetPose fuel id (mk_pose (px pose + dx) (py pose + dy) (pz pose + dz) (pa pose + da))
  else ret tt.

(** [StgModel::SetGlobalPose]. *)
Definition SetGlobalPose (id : nat) (gpose : pose) : M unit :=
  m <- get_model id ;;
  match m_parent m with
  | None => SetPose fuel id gpose
  | Some pid =>
      lpose <- GlobalToLocal fuel pid gpose ;;
      SetPose fuel id lpose
  end.

(** [StgModel::GetGlobalVelocity].  The z component of the result is
    never written in the source; [gz] stands for whatever it holds. *)
Definition GetGlobalVelocity (id : nat) (gz : R) : M velocity :=
  gpose <- get_global_pose fuel id ;;
  m <- get_model id ;;
  let cosa := cos (pa gpose) in
  let sina := sin (pa gpose) in
  let v := m_velocity m in
  ret (mk_velocity (vx v * cosa - vy v * sina) (vx v * sina + vy v * cosa) gz (va v)).

(** [StgModel::SetGlobalVelocity].  The z component of the local
    velocity is never written in the source; [lz] stands for whatever it
    holds. *)
Definition SetGlobalVelocity (id : nat) (gv : velocity) (lz : R) : M unit :=
  gpose <- get_global_pose fuel id ;;
  let cosa := cos (pa gpose) in
  let sina := sin (pa gpose) in
  SetVelocity id (mk_velocity (vx gv * cosa + vy gv * sina)
                              (- vx gv * sina + vy gv * cosa) lz (va gv)).

(** [StgModel::AddBlock]: the new block (of address [bid]) goes to the
    front of the list; its colour is not modelled. *)
Definition AddBlock (id bid : nat) (pts : list point) (zmin zmax : R) : M unit :=
  m <- get_model id ;;
  put_model id (set_m_blocks m (mk_block bid pts zmin zmax :: m_blocks m)) ;;;
  need_redraw_rec fuel id.

(** [StgModel::AddBlockRect]. *)
Definition AddBlockRect (id bid : nat) (x y width height : R) : M unit :=
  AddBlock id bid [mk_point x y; mk_point (x + width) y;
                   mk_point (x + width) (y + height); mk_point x (y + height)] 0 1.

(** [StgModel::ClearBlocks]: [stg_block_list_destroy] deletes every
    block, and the [StgBlock] destructor unmaps it. *)
Definition ClearBlocks (id : nat) : M unit :=
  m <- get_model id ;;
  miter block_unmap (m_blocks m) ;;;
  m1 <- get_model id ;;
  put_model id (set_m_blocks m1 []) ;;;
  need_redraw_rec fuel id.

End MoreOps.

(** [StgModel::Init]. *)
Definition Init (id : nat) : M unit :=
  m <- get_model id ;;
  if m_has_initfunc m then Subscribe id else ret tt.

(** [StgModel::SetParent]. *)
Definition SetParent (id : nat) (newparent : option nat) : M Z :=
  m <- get_model id ;;
  (match m_parent m with
   | Some p =>
       pm <- get_model p ;;
       put_model p (set_m_children pm (list_remove id (m_children pm)))
   | None => ret tt
   end) ;;;
  (match newparent with
   | Some np =>
       nm <- get_model np ;;
       put_model np (set_m_children nm (m_children nm ++ [id]))
   | None => ret tt
   end) ;;;
  m1 <- get_model id ;;
  put_model id (set_m_parent m1 newparent) ;;;
  call_callbacks id CbParent ;;;
  ret 0%Z.

(** The parent link of model [k], if [k] exists. *)
Definition parent_of (ms : list (nat * model)) (k : nat) : option nat :=
  match find_model ms k with Some m => m_parent m | None => None end.

(** 1 if the parent link [o] points to [p], 0 otherwise. *)
Definition link_count (o : option nat) (p : nat) : nat :=
  match o with Some q => if Nat.eqb q p then 1%nat else 0%nat | None => 0%nat end.

(** The children lists agree with the parent links [par]: every model
    lists [k] as a child exactly once if it is [k]'s parent, and not at
    all otherwise. *)
Definition children_match (par : nat -> option nat) (ms : list (nat * model)) : Prop :=
  forall p mp k, find_model ms p = Some mp ->
    count_occ Nat.eq_dec (m_children mp) k = link_count (par k) p.

(** The parent links [par] with the link of [id] set to [v]. *)
Definition upd_parent (par : nat -> option nat) (id : nat) (v : option nat) : nat -> option nat :=
  fun k => if Nat.eqb k id then v else par k.

(** The parent and children links of the store agree. *)
Definition tree_ok (ms : list (nat * model)) : Prop := children_match (parent_of ms) ms.

(** The fields [GetGlobalPose] reads. *)
Definition pose_fields (m : model) : option nat * pose * geom :=
  (m_parent m, m_pose m, m_geom m).

(** [pose_tree_world] with index entries for block 11 of model 1 and for
    an unrelated block 99. *)
Definition indexed_tree_world : world :=
  set_w_index pose_tree_world
    [mk_entry 11 1 [] 0 1; mk_entry 99 5 [] 0 1; mk_entry 11 1 [] 0 1].


(** * Properties *)

(** ** The model store *)

Lemma find_replace_same (ms : list (nat * model)) (id : nat) (m' : model) :
  find_model (replace_model ms id m') id = option_map (fun _ => m') (find_model ms id).
Proof.
  induction ms as [|[k x] ms IH]; simpl; [reflexivity|].
  destruct (Nat.eqb k id) eqn:E; simpl; rewrite E; [reflexivity|exact IH].
Qed.

Lemma find_replace_other (ms : list (nat * model)) (id k : nat) (m' : model) :
  k <> id -> find_model (replace_model ms id m') k = find_model ms k.
Proof.
  intros Hne; induction ms as [|[j x] ms IH]; simpl; [reflexivity|].
  destruct (Nat.eqb j id) eqn:E1; simpl.
  - apply Nat.eqb_eq in E1; subst j.
    destruct (Nat.eqb id k) eqn:E2; [apply Nat.eqb_eq in E2; congruence|reflexivity].
  - destruct (Nat.eqb j k); [reflexivity|exact IH].
Qed.

Lemma find_replace (ms : list (nat * model)) (id k : nat) (m' : model) :
  find_model (replace_model ms id m') k =
  if Nat.eqb k id then option_map (fun _ => m') (find_model ms id)
  else find_model ms k.
Proof.
  destruct (Nat.eqb k id) eqn:E.
  - apply Nat.eqb_eq in E; subst k; apply find_replace_same.
  - apply find_replace_other; apply Nat.eqb_neq; exact E.
Qed.

Ltac mstep :=
  unfold bind, ret, fail, get_model, put_model, get_world, put_world,
    call_callbacks, set_w_models, set_w_index, set_w_velocity_list,
    set_w_update_list, set_w_total_subs, set_w_log in *;
  cbn -[find_model replace_model] in *.

Ltac mrun H :=
  repeat (first [ rewrite find_replace_same | rewrite H
                | progress (cbn -[find_model replace_model]) ]).

(** ** The global-pose caches *)

Lemma strip_find (ms : list (nat * model)) (k : nat) :
  find_model (strip_models ms) k = option_map strip (find_model ms k).
Proof.
  induction ms as [|[j x] ms IH]; simpl; [reflexivity|].
  destruct (Nat.eqb j k); [reflexivity|exact IH].
Qed.

Lemma strip_replace (ms : list (nat * model)) (id : nat) (x m' : model) :
  find_model ms id = Some x -> strip m' = strip x ->
  strip_models (replace_model ms id m') = strip_models ms.
Proof.
  intros Hf Hs; induction ms as [|[j y] ms IH]; simpl in *; [reflexivity|].
  destruct (Nat.eqb j id).
  - injection Hf as ->. simpl. rewrite Hs. reflexivity.
  - simpl. rewrite IH by exact Hf. reflexivity.
Qed.

Lemma strip_gpose_cache (m : model) (g : pose) (d : bool) :
  strip (set_m_gpose_cache m g d) = strip m.
Proof. reflexivity. Qed.

Lemma strip_world_put (w : world) (id : nat) (x m' : model) :
  find_model (w_models w) id = Some x -> strip m' = strip x ->
  strip_world (set_w_models w (replace_model (w_models w) id m')) = strip_world w.
Proof.
  intros Hf Hs. unfold strip_world, set_w_models; cbn [w_models].
  rewrite (strip_replace _ _ _ _ Hf Hs). reflexivity.
Qed.

Lemma find_strip_eq (w w' : world) (k : nat) (x : model) :
  strip_world w' = strip_world w -> find_model (w_models w) k = Some x ->
  exists x', find_model (w_models w') k = Some x' /\ strip x' = strip x.
Proof.
  intros Hs Hf.
  assert (H := f_equal (fun v => find_model (w_models v) k) Hs). cbn in H.
  rewrite !strip_find, Hf in H.
  destruct (find_model (w_models w') k) as [x'|]; [|discriminate].
  change (Some (strip x') = Some (strip x)) in H.
  exists x'. split; [reflexivity|congruence].
Qed.

(** [GetGlobalPose] writes nothing but the caches. *)
Lemma get_global_pose_frame (fuel : nat) : forall id w g w1,
  get_global_pose fuel id w = Ok (g, w1) -> strip_world w1 = strip_world w.
Proof.
  induction fuel as [|fuel IH]; intros id w g w1 H; [discriminate|].
  cbn [get_global_pose] in H. mstep.
  destruct (find_model (w_models w) id) as [m|] eqn:Hf; [|discriminate].
  destruct (m_parent m) as [p|].
  - destruct (get_global_pose fuel p w) as [[pp w2]|e] eqn:Hr; [|discriminate].
    apply IH in Hr.
    destruct (find_model (w_models w2) p) as [par|]; [|discriminate].
    destruct (find_model (w_models w2) id) as [me|] eqn:Hme; [|discriminate].
    injection H as _ <-.
    transitivity (strip_world w2); [|exact Hr].
    apply (strip_world_put w2 id me); [exact Hme|apply strip_gpose_cache].
  - injection H as _ <-.
    apply (strip_world_put w id m); [exact Hf|apply strip_gpose_cache].
Qed.

(** One step of [GetGlobalPose] at a model without a parent. *)
Lemma get_global_pose_root (fuel : nat) (w : world) (id : nat) (m : model) :
  find_model (w_models w) id = Some m -> m_parent m = None ->
  get_global_pose (S fuel) id w =
  Ok (m_pose m, set_w_models w (replace_model (w_models w) id
                                  (set_m_gpose_cache m (m_pose m) false))).
Proof.
  intros Hf Hp. cbn [get_global_pose]. mstep. rewrite Hf, Hp. reflexivity.
Qed.

(** One step of [GetGlobalPose] at a model with a parent. *)
Lemma get_global_pose_child (fuel : nat) (w : world) (id pid : nat) (m par : model)
    (pp : pose) (w1 : world) :
  find_model (w_models w) id = Some m -> m_parent m = Some pid ->
  find_model (w_models w) pid = Some par ->
  get_global_pose fuel pid w = Ok (pp, w1) ->
  exists w2,
    get_global_pose (S fuel) id w =
    Ok (mk_pose (px (pose_sum pp (m_pose m))) (py (pose_sum pp (m_pose m)))
                (pz (pose_sum pp (m_pose m)) + sz (g_size (m_geom par)))
                (pa (pose_sum pp (m_pose m))), w2).
Proof.
  intros Hf Hp Hpar Hr.
  assert (Hs := get_global_pose_frame _ _ _ _ _ Hr).
  destruct (find_strip_eq _ _ _ _ Hs Hpar) as (par' & Hpar' & Hspar).
  destruct (find_strip_eq _ _ _ _ Hs Hf) as (me & Hme & Hsme).
  cbn [get_global_pose]. mstep. rewrite Hf, Hp, Hr; cbn. mstep.
  rewrite Hpar', Hme. eexists.
  assert (Hg : m_geom par' = m_geom par) by exact (f_equal m_geom Hspar).
  assert (Hpo : m_pose me = m_pose m) by exact (f_equal m_pose Hsme).
  rewrite Hg, Hpo. reflexivity.
Qed.

(** ** Subscriptions *)

Lemma count_occ_list_remove (l : list nat) (x : nat) :
  count_occ Nat.eq_dec (list_remove x l) x = Nat.pred (count_occ Nat.eq_dec l x).
Proof.
  induction l as [|y l IH]; simpl; [reflexivity|].
  destruct (Nat.eqb y x) eqn:E.
  - apply Nat.eqb_eq in E; subst y.
    destruct (Nat.eq_dec x x); [reflexivity|congruence].
  - apply Nat.eqb_neq in E; simpl.
    destruct (Nat.eq_dec y x); [congruence|exact IH].
Qed.

Lemma In_list_remove_self (l : list nat) (x : nat) :
  (count_occ Nat.eq_dec l x <= 1)%nat -> ~ In x (list_remove x l).
Proof.
  intros Hc Hin.
  apply (count_occ_In Nat.eq_dec) in Hin.
  rewrite count_occ_list_remove in Hin. lia.
Qed.

(** The effect of one [Subscribe] call on a stored model. *)
Lemma Subscribe_run (w : world) (id : nat) (m : model) :
  find_model (w_models w) id = Some m ->
  let m' := set_m_subs m (m_subs m + 1) in
  let w1 := set_w_total_subs (set_w_models w (replace_model (w_models w) id m'))
              (w_total_subs w + 1) in
  Subscribe id w =
  if Z.eqb (m_subs m + 1) 1 then
    Ok (tt, set_w_log (set_w_update_list w1 (w_update_list w1 ++ [id]))
              (w_log w1 ++ (if m_has_initfunc m then [EvInitfunc id] else [])
                        ++ [EvCallback id CbStartup]))
  else Ok (tt, w1).
Proof.
  intros Hm; cbv zeta.
  unfold Subscribe, Startup, start_updating_model; mstep; mrun Hm.
  destruct (Z.eqb (m_subs m + 1) 1); [|reflexivity].
  mrun Hm.
  destruct (m_has_initfunc m); cbn; rewrite <- ?app_assoc; reflexivity.
Qed.

(** The effect of one [Unsubscribe] call on a stored model. *)
Lemma Unsubscribe_run (w : world) (id : nat) (m : model) :
  find_model (w_models w) id = Some m ->
  let m' := set_m_subs m (m_subs m - 1) in
  let w1 := set_w_total_subs (set_w_models w (replace_model (w_models w) id m'))
              (w_total_subs w - 1) in
  Unsubscribe id w =
  if Z.ltb (m_subs m - 1) 1 then
    Ok (tt, set_w_log (set_w_update_list w1 (list_remove id (w_update_list w1)))
              (w_log w1 ++ [EvCallback id CbShutdown]))
  else Ok (tt, w1).
Proof.
  intros Hm; cbv zeta.
  unfold Unsubscribe, Shutdown, stop_updating_model; mstep; mrun Hm.
  destruct (Z.ltb (m_subs m - 1) 1); mrun Hm; reflexivity.
Qed.

(** C9: the subscription count is not clamped at zero.  Every
    [Unsubscribe] lowers the count by one, and runs the shutdown hook
    (which fires the shutdown callback and leaves the update list)
    whenever the new count is below 1 — also from a count of 0 down to
    −1, so unmatched calls run shutdown again and again. *)
Theorem Unsubscribe_not_clamped (w : world) (id : nat) (m : model) :
  find_model (w_models w) id = Some m ->
  exists w' m',
    Unsubscribe id w = Ok (tt, w') /\
    find_model (w_models w') id = Some m' /\
    m_subs m' = (m_subs m - 1)%Z /\
    ((m_subs m - 1 < 1)%Z ->
       w_log w' = w_log w ++ [EvCallback id CbShutdown] /\
       w_update_list w' = list_remove id (w_update_list w)) /\
    ((1 <= m_subs m - 1)%Z ->
       w_log w' = w_log w /\ w_update_list w' = w_update_list w).
Proof.
  intros Hm. rewrite (Unsubscribe_run w id m Hm); cbv zeta.
  destruct (Z.ltb (m_subs m - 1) 1) eqn:E; eexists; eexists;
    (split; [reflexivity|]); mstep; rewrite find_replace_same, Hm; cbn;
    (split; [reflexivity|]); (split; [reflexivity|]).
  - apply Z.ltb_lt in E. split; [intros _; split; reflexivity|intros; lia].
  - apply Z.ltb_ge in E. split; [intros; lia|intros _; split; reflexivity].
Qed.

Lemma Unsubscribe_not_clamped_witness :
  exists w' m',
    Unsubscribe 0 sub_world = Ok (tt, w') /\
    find_model (w_models w') 0 = Some m' /\
    m_subs m' = (-1)%Z /\
    w_log w' = [EvCallback 0 CbShutdown].
Proof.
  destruct (Unsubscribe_not_clamped sub_world 0 sub_model eq_refl)
    as (w' & m' & Hrun & Hf & Hs & Hlt & _).
  exists w', m'. split; [exact Hrun|]. split; [exact Hf|].
  split; [rewrite Hs; reflexivity|].
  destruct Hlt as [Hlog _]; [cbn; lia|]. rewrite Hlog; reflexivity.
Defined.

(** C7, the claim as stated fails: Unsubscribe on a count of 0 runs the
    shutdown hook although the count goes from 0 to −1, not from 1 to 0. *)
Lemma Unsubscribe_shutdown_from_zero :
  m_subs sub_model = 0%Z /\
  exists w', Unsubscribe 0 sub_world = Ok (tt, w') /\
             w_log w' = w_log sub_world ++ [EvCallback 0 CbShutdown].
Proof.
  split; [reflexivity|].
  rewrite (Unsubscribe_run sub_world 0 sub_model eq_refl); cbn.
  eexists; split; reflexivity.
Qed.

Lemma count_occ_app_single (l : list nat) (x : nat) :
  count_occ Nat.eq_dec (l ++ [x]) x = S (count_occ Nat.eq_dec l x).
Proof.
  rewrite count_occ_app; simpl. destruct (Nat.eq_dec x x); [lia|congruence].
Qed.

(** C7, as the code has it: the startup hook ([initfunc] when present,
    then joining the update list, then the startup callback) runs exactly
    when Subscribe takes the count from 0 to 1; the shutdown hook runs on
    every Unsubscribe that leaves the count below 1, which for matched
    calls is the 1 → 0 transition.  Both calls keep "on the update list
    iff count ≥ 1".  S5: three Subscribes and two Unsubscribes ran
    [initfunc] once and no shutdown, the model is on the update list; a
    third Unsubscribe runs shutdown and takes it off the list. *)
Theorem subscription_counting :
  (forall w id m, find_model (w_models w) id = Some m -> update_inv w id m ->
     exists w' m',
       Subscribe id w = Ok (tt, w') /\ find_model (w_models w') id = Some m' /\
       m_subs m' = (m_subs m + 1)%Z /\
       w_log w' = w_log w ++
         (if Z.eqb (m_subs m) 0 then
            (if m_has_initfunc m then [EvInitfunc id] else []) ++ [EvCallback id CbStartup]
          else []) /\
       update_inv w' id m') /\
  (forall w id m, find_model (w_models w) id = Some m -> update_inv w id m ->
     exists w' m',
       Unsubscribe id w = Ok (tt, w') /\ find_model (w_models w') id = Some m' /\
       m_subs m' = (m_subs m - 1)%Z /\
       w_log w' = w_log w ++
         (if Z.ltb (m_subs m - 1) 1 then [EvCallback id CbShutdown] else []) /\
       update_inv w' id m') /\
  (exists w1,
     subs_then_unsubs sub_world = Ok (tt, w1) /\
     w_log w1 = [EvInitfunc 0; EvCallback 0 CbStartup] /\
     In 0%nat (w_update_list w1) /\
     exists w2, Unsubscribe 0 w1 = Ok (tt, w2) /\
       w_log w2 = w_log w1 ++ [EvCallback 0 CbShutdown] /\
       ~ In 0%nat (w_update_list w2)).
Proof.
  split; [|split].
  - intros w id m Hm Hinv. rewrite (Subscribe_run w id m Hm); cbv zeta.
    unfold update_inv in *.
    destruct (Z.eqb (m_subs m + 1) 1) eqn:E; do 2 eexists;
      (split; [reflexivity|]); mstep; rewrite find_replace_same, Hm; cbn;
      (split; [reflexivity|]); (split; [reflexivity|]);
      unfold set_m_subs; cbn [m_subs].
    + apply Z.eqb_eq in E.
      replace (Z.eqb (m_subs m) 0) with true by (symmetry; apply Z.eqb_eq; lia).
      split; [reflexivity|].
      rewrite count_occ_app_single, Hinv.
      replace (Z.leb 1 (m_subs m)) with false by (symmetry; apply Z.leb_gt; lia).
      replace (Z.leb 1 (m_subs m + 1)) with true by (symmetry; apply Z.leb_le; lia).
      reflexivity.
    + apply Z.eqb_neq in E.
      replace (Z.eqb (m_subs m) 0) with false by (symmetry; apply Z.eqb_neq; lia).
      split; [rewrite app_nil_r; reflexivity|].
      rewrite Hinv.
      destruct (Z.leb 1 (m_subs m)) eqn:E1, (Z.leb 1 (m_subs m + 1)) eqn:E2;
        try reflexivity;
        [apply Z.leb_le in E1; apply Z.leb_gt in E2; lia|
         apply Z.leb_gt in E1; apply Z.leb_le in E2; lia].
  - intros w id m Hm Hinv. rewrite (Unsubscribe_run w id m Hm); cbv zeta.
    unfold update_inv in *.
    destruct (Z.ltb (m_subs m - 1) 1) eqn:E; do 2 eexists;
      (split; [reflexivity|]); mstep; rewrite find_replace_same, Hm; cbn;
      (split; [reflexivity|]); (split; [reflexivity|]);
      unfold set_m_subs; cbn [m_subs].
    + split; [reflexivity|].
      apply Z.ltb_lt in E.
      rewrite count_occ_list_remove, Hinv.
      replace (Z.leb 1 (m_subs m - 1)) with false by (symmetry; apply Z.leb_gt; lia).
      destruct (Z.leb 1 (m_subs m)); reflexivity.
    + split; [rewrite app_nil_r; reflexivity|].
      apply Z.ltb_ge in E. rewrite Hinv.
      replace (Z.leb 1 (m_subs m - 1)) with true by (symmetry; apply Z.leb_le; lia).
      replace (Z.leb 1 (m_subs m)) with true by (symmetry; apply Z.leb_le; lia).
      reflexivity.
  - eexists. split; [vm_compute; reflexivity|]. vm_compute.
    split; [reflexivity|]. split; [left; reflexivity|].
    eexists. split; [vm_compute; reflexivity|]. vm_compute.
    split; [reflexivity|]. intros [].
Qed.

(** C10: IsAntecedent never answers false.  When [t] is on the chain of
    [m] and its ancestors the answer is true; when it is not, the
    recursion walks up to the root and calls through the root's null
    parent pointer. *)
Theorem IsAntecedent_no_base_case :
  (forall ms m l t fuel,
     ancestor_chain ms m l -> (length l <= fuel)%nat -> ~ In t l ->
     is_antecedent fuel ms m t = Fail ENullDeref) /\
  (forall fuel ms m t, is_antecedent fuel ms m t <> Ok false).
Proof.
  split.
  - intros ms m l t fuel Hc. revert fuel.
    induction Hc as [id m0 Hf Hp|id m0 p l Hf Hp Hc IH]; intros fuel Hlen Hnin;
      destruct fuel as [|fuel]; simpl in *; try lia.
    + destruct (Nat.eqb id t) eqn:E;
        [apply Nat.eqb_eq in E; exfalso; apply Hnin; left; exact E|].
      rewrite Hf, Hp; reflexivity.
    + destruct (Nat.eqb id t) eqn:E;
        [apply Nat.eqb_eq in E; exfalso; apply Hnin; left; exact E|].
      rewrite Hf, Hp, IH; [reflexivity|lia|].
      intros Hin; apply Hnin; right; exact Hin.
  - induction fuel as [|fuel IH]; intros ms m t; simpl; [discriminate|].
    destruct (Nat.eqb m t); [discriminate|].
    destruct (find_model ms m) as [mm|]; [|discriminate].
    destruct (m_parent mm) as [p|]; [|discriminate].
    specialize (IH ms p t).
    destruct (is_antecedent fuel ms p t) as [[|]|e]; congruence.
Qed.

Lemma IsAntecedent_no_base_case_witness :
  is_antecedent 2 tree_models 1 5 = Fail ENullDeref.
Proof.
  apply (proj1 IsAntecedent_no_base_case tree_models 1%nat [1%nat; 0%nat]).
  - apply (chain_step _ _ (new_model (Some 0%nat) 11) 0%nat); [reflexivity|reflexivity|].
    apply (chain_root _ _ (new_model None 10)); reflexivity.
  - simpl; lia.
  - simpl; intros [H|[H|[]]]; discriminate.
Defined.

Lemma subscription_counting_witness :
  exists w' m',
    Subscribe 0 sub_world = Ok (tt, w') /\ find_model (w_models w') 0 = Some m' /\
    m_subs m' = 1%Z /\ w_log w' = [EvInitfunc 0; EvCallback 0 CbStartup] /\
    update_inv w' 0 m'.
Proof.
  destruct (proj1 subscription_counting sub_world 0%nat sub_model eq_refl eq_refl)
    as (w' & m' & H1 & H2 & H3 & H4 & H5).
  exists w', m'. split; [exact H1|]. split; [exact H2|].
  split; [rewrite H3; reflexivity|]. split; [rewrite H4; reflexivity|exact H5].
Defined.

(** ** Velocities *)

Lemma velocity_is_nonzero_spec (v : velocity) :
  velocity_is_nonzero v = true <-> (vx v <> 0 \/ vy v <> 0 \/ vz v <> 0 \/ va v <> 0).
Proof.
  unfold velocity_is_nonzero.
  destruct (Req_dec_T (vx v) 0), (Req_dec_T (vy v) 0), (Req_dec_T (vz v) 0),
    (Req_dec_T (va v) 0); split; intros H; try tauto; try discriminate;
    try reflexivity; intuition.
Qed.

(** C5: after SetVelocity(v) the model is on the velocity list iff some
    component of v is nonzero; the call keeps the list consistent with
    the [on_velocity_list] flag (adding or removing the model) and fires
    the velocity callback. *)
Theorem SetVelocity_velocity_list (w : world) (id : nat) (m : model) (v : velocity) :
  find_model (w_models w) id = Some m -> vel_inv w id m ->
  exists w' m',
    SetVelocity id v w = Ok (tt, w') /\
    find_model (w_models w') id = Some m' /\
    m_velocity m' = v /\
    (In id (w_velocity_list w') <-> (vx v <> 0 \/ vy v <> 0 \/ vz v <> 0 \/ va v <> 0)) /\
    vel_inv w' id m' /\
    w_log w' = w_log w ++ [EvCallback id CbVelocity].
Proof.
  intros Hm Hinv. unfold vel_inv in *.
  setoid_rewrite <- velocity_is_nonzero_spec.
  unfold SetVelocity; mstep; mrun Hm.
  unfold set_m_velocity; cbn [m_on_velocity_list m_velocity].
  destruct (m_on_velocity_list m) eqn:Ho, (velocity_is_nonzero v) eqn:Hn;
    cbn [negb andb]; mstep; mrun Hm; cbn [m_on_velocity_list m_velocity negb andb];
    rewrite ?Hn; cbn [negb andb]; mstep; mrun Hm;
    do 2 eexists; (split; [reflexivity|]); mrun Hm;
    (split; [reflexivity|]); (split; [reflexivity|]).
  - (* on the list, stays *)
    split; [split; [intros _; reflexivity|intros _; apply (count_occ_In Nat.eq_dec); lia]|].
    split; [exact Hinv|reflexivity].
  - (* on the list, removed *)
    split; [split; [intros Hin; exfalso; revert Hin; apply In_list_remove_self; lia
                   |discriminate]|].
    split; [rewrite count_occ_list_remove, Hinv; reflexivity|reflexivity].
  - (* off the list, added *)
    split; [split; [intros _; reflexivity|intros _; left; reflexivity]|].
    split; [simpl; destruct (Nat.eq_dec id id); [rewrite Hinv; reflexivity|congruence]
           |reflexivity].
  - (* off the list, stays off *)
    split; [split; [intros Hin; apply (count_occ_In Nat.eq_dec) in Hin; lia|discriminate]|].
    split; [exact Hinv|reflexivity].
Qed.

Lemma SetVelocity_velocity_list_witness :
  exists w' m',
    SetVelocity 0 (mk_velocity 1 0 0 0) sub_world = Ok (tt, w') /\
    find_model (w_models w') 0 = Some m' /\
    m_velocity m' = mk_velocity 1 0 0 0 /\
    (In 0%nat (w_velocity_list w') <->
       (vx (mk_velocity 1 0 0 0) <> 0 \/ vy (mk_velocity 1 0 0 0) <> 0 \/
        vz (mk_velocity 1 0 0 0) <> 0 \/ va (mk_velocity 1 0 0 0) <> 0)) /\
    vel_inv w' 0 m' /\
    w_log w' = w_log sub_world ++ [EvCallback 0 CbVelocity].
Proof.
  apply (SetVelocity_velocity_list sub_world 0%nat sub_model); reflexivity.
Defined.

(** ** Global poses *)

(** C3: GetGlobalPose of a model with a parent is the parent's global
    pose composed with the model's pose, raised by the parent's size.z;
    of a model without a parent it is the model's pose.  S1: a parent at
    (1, 0, 0, π/2) with size.z = 0.2 and a child at (1, 0, 0, 0) give the
    child the global pose (1, 1, 0.2, π/2). *)
Theorem GetGlobalPose_hierarchical :
  (forall fuel w id m,
     find_model (w_models w) id = Some m -> m_parent m = None ->
     exists w', get_global_pose (S fuel) id w = Ok (m_pose m, w')) /\
  (forall fuel w id pid m par pp w1,
     find_model (w_models w) id = Some m -> m_parent m = Some pid ->
     find_model (w_models w) pid = Some par ->
     get_global_pose fuel pid w = Ok (pp, w1) ->
     exists w2, get_global_pose (S fuel) id w =
       Ok (mk_pose (px (pose_sum pp (m_pose m))) (py (pose_sum pp (m_pose m)))
                   (pz (pose_sum pp (m_pose m)) + sz (g_size (m_geom par)))
                   (pa (pose_sum pp (m_pose m))), w2)) /\
  (exists w', get_global_pose 2 1 s1_world = Ok (mk_pose 1 1 (2/10) (PI / 2), w')).
Proof.
  split; [|split].
  - intros fuel w id m Hf Hp. eexists. apply get_global_pose_root; assumption.
  - intros fuel w id pid m par pp w1 Hf Hp Hpar Hr.
    exact (get_global_pose_child fuel w id pid m par pp w1 Hf Hp Hpar Hr).
  - assert (Hroot := get_global_pose_root 0%nat s1_world 0%nat s1_parent eq_refl eq_refl).
    destruct (get_global_pose_child 1%nat s1_world 1%nat 0%nat s1_child s1_parent _ _
                eq_refl eq_refl eq_refl Hroot) as [w2 Hw2].
    exists w2. rewrite Hw2. do 2 f_equal.
    unfold pose_sum, s1_child, s1_parent; cbn.
    rewrite cos_PI2, sin_PI2. f_equal; lra.
Qed.

Lemma GetGlobalPose_hierarchical_witness :
  exists w', get_global_pose 1 0 s1_world = Ok (mk_pose 1 0 0 (PI / 2), w').
Proof.
  apply (proj1 GetGlobalPose_hierarchical 0%nat s1_world 0%nat s1_parent); reflexivity.
Defined.

(** [GetGlobalPose] computes the same pose on worlds that differ in the
    caches only. *)
Lemma get_global_pose_strip (fuel : nat) : forall id w w' g w1,
  strip_world w' = strip_world w ->
  get_global_pose fuel id w = Ok (g, w1) ->
  exists w1', get_global_pose fuel id w' = Ok (g, w1').
Proof.
  induction fuel as [|fuel IH]; intros id w w' g w1 Hs H; [discriminate|].
  cbn [get_global_pose] in *. mstep.
  destruct (find_model (w_models w) id) as [m|] eqn:Hf; [|discriminate].
  destruct (find_strip_eq _ _ _ _ Hs Hf) as (m' & Hf' & Hsm).
  rewrite Hf'.
  assert (Hpar : m_parent m' = m_parent m) by exact (f_equal m_parent Hsm).
  assert (Hpo : m_pose m' = m_pose m) by exact (f_equal m_pose Hsm).
  rewrite Hpar.
  destruct (m_parent m) as [p|].
  - destruct (get_global_pose fuel p w) as [[pp w2]|e] eqn:Hr; [|discriminate].
    destruct (IH p w w' pp w2 Hs Hr) as [w2' Hr'].
    rewrite Hr'; cbn. mstep.
    assert (Hs2 : strip_world w2' = strip_world w2).
    { rewrite (get_global_pose_frame _ _ _ _ _ Hr'), (get_global_pose_frame _ _ _ _ _ Hr).
      exact Hs. }
    destruct (find_model (w_models w2) p) as [par|] eqn:Hp; [|discriminate].
    destruct (find_strip_eq _ _ _ _ Hs2 Hp) as (par' & Hp' & Hspar).
    destruct (find_model (w_models w2) id) as [me|] eqn:Hme; [|discriminate].
    destruct (find_strip_eq _ _ _ _ Hs2 Hme) as (me' & Hme' & Hsme).
    rewrite Hp', Hme'. injection H as <- _.
    assert (Hg : m_geom par' = m_geom par) by exact (f_equal m_geom Hspar).
    assert (Hpo' : m_pose me' = m_pose me) by exact (f_equal m_pose Hsme).
    rewrite Hg, Hpo'. eexists. reflexivity.
  - injection H as <- _. rewrite Hpo. eexists. reflexivity.
Qed.

Lemma pose_sum_assoc_xya (a b c : pose) :
  px (pose_sum (pose_sum a b) c) = px (pose_sum a (pose_sum b c)) /\
  py (pose_sum (pose_sum a b) c) = py (pose_sum a (pose_sum b c)) /\
  pa (pose_sum (pose_sum a b) c) = pa (pose_sum a (pose_sum b c)).
Proof.
  unfold pose_sum; cbn. rewrite cos_plus, sin_plus.
  split; [ring|split; [ring|ring]].
Qed.

Lemma cos_sin_one (a : R) : sin a * sin a + cos a * cos a = 1.
Proof. exact (sin2_cos2 a). Qed.

Lemma global_to_local_pose_sum (f p : pose) :
  px (global_to_local f (pose_sum f p)) = px p /\
  py (global_to_local f (pose_sum f p)) = py p /\
  pz (global_to_local f (pose_sum f p)) = pz f + pz p /\
  pa (global_to_local f (pose_sum f p)) = pa p.
Proof.
  unfold global_to_local, pose_sum; cbn.
  assert (H := cos_sin_one (pa f)).
  split; [|split; [|split]].
  - transitivity (px p * (sin (pa f) * sin (pa f) + cos (pa f) * cos (pa f))); [ring|].
    rewrite H; ring.
  - transitivity (py p * (sin (pa f) * sin (pa f) + cos (pa f) * cos (pa f))); [ring|].
    rewrite H; ring.
  - reflexivity.
  - ring.
Qed.

(** C8: GlobalToLocal does not invert LocalToGlobal, since it never
    converts z (and ignores the body offset).  At the model level, for a model whose
    body is offset by [geom.pose] = (1, 0, 0, 0), GlobalToLocal of
    LocalToGlobal of the zero pose is (1, 0, 0, 0), not the zero pose.
    For frames, z is not converted back: a frame at height 1 maps the
    zero pose to a pose at height 1. *)
Lemma local_global_roundtrip_fails :
  (exists q w1 r w2,
     local_to_global 1 0 zero_pose offset_world = Ok (q, w1) /\
     GlobalToLocal 1 0 q w1 = Ok (r, w2) /\ px r = 1 /\ r <> zero_pose) /\
  pz (global_to_local (mk_pose 0 0 1 0) (pose_sum (mk_pose 0 0 1 0) zero_pose)) = 1.
Proof.
  split.
  - do 4 eexists. split; [reflexivity|]. split; [reflexivity|].
    cbn. rewrite ?Rplus_0_l, ?Rplus_0_r, ?cos_0, ?sin_0.
    split; [ring|].
    intros H. injection H as H _ _ _. rewrite ?Rplus_0_l, ?Rplus_0_r, ?cos_0, ?sin_0 in H. lra.
  - cbn. ring.
Qed.

(** C8, as the code has it.  For every frame f and pose p,
    global_to_local(f, pose_sum(f, p)) has p's x, y and heading (the
    heading is p.a as it is, not re-normalized) and z = f.z + p.z, since
    GlobalToLocal leaves z alone.  At the model level, GlobalToLocal
    applied to LocalToGlobal(p) gives geom.pose ⊕ p in x, y and heading
    (LocalToGlobal adds the body offset geom.pose, GlobalToLocal does
    not remove it), so it recovers p's x, y and heading when geom.pose is
    zero. *)
Theorem local_global_roundtrip :
  (forall f p,
     px (global_to_local f (pose_sum f p)) = px p /\
     py (global_to_local f (pose_sum f p)) = py p /\
     pz (global_to_local f (pose_sum f p)) = pz f + pz p /\
     pa (global_to_local f (pose_sum f p)) = pa p) /\
  (forall fuel w id m p q w1,
     find_model (w_models w) id = Some m ->
     local_to_global fuel id p w = Ok (q, w1) ->
     exists r w2,
       GlobalToLocal fuel id q w1 = Ok (r, w2) /\
       px r = px (pose_sum (g_pose (m_geom m)) p) /\
       py r = py (pose_sum (g_pose (m_geom m)) p) /\
       pa r = pa (pose_sum (g_pose (m_geom m)) p) /\
       (g_pose (m_geom m) = zero_pose -> px r = px p /\ py r = py p /\ pa r = pa p)).
Proof.
  split; [exact global_to_local_pose_sum|].
  intros fuel w id m p q w1 Hf H.
  unfold local_to_global in H. unfold bind at 1 in H.
  destruct (get_global_pose fuel id w) as [[g w0]|e] eqn:Hg; [|discriminate].
  mstep.
  destruct (find_model (w_models w0) id) as [m0|] eqn:Hm0; [|discriminate].
  injection H as <- <-.
  assert (Hs0 := get_global_pose_frame _ _ _ _ _ Hg).
  destruct (find_strip_eq _ _ _ _ Hs0 Hf) as (m0' & Hm0' & Hsm).
  rewrite Hm0 in Hm0'. injection Hm0' as <-.
  assert (Hgm : m_geom m0 = m_geom m) by exact (f_equal m_geom Hsm).
  rewrite Hgm.
  destruct (get_global_pose_strip fuel id w w0 g w0 Hs0 Hg) as [w2 Hg2].
  unfold GlobalToLocal. mstep. rewrite Hg2.
  exists (global_to_local g (pose_sum (pose_sum g (g_pose (m_geom m))) p)).
  eexists. split; [reflexivity|].
  destruct (global_to_local_pose_sum g (pose_sum (g_pose (m_geom m)) p))
    as (Hx & Hy & _ & Ha).
  destruct (pose_sum_assoc_xya g (g_pose (m_geom m)) p) as (Ax & Ay & Aa).
  assert (Hc : px (global_to_local g (pose_sum (pose_sum g (g_pose (m_geom m))) p)) =
               px (global_to_local g (pose_sum g (pose_sum (g_pose (m_geom m)) p))) /\
               py (global_to_local g (pose_sum (pose_sum g (g_pose (m_geom m))) p)) =
               py (global_to_local g (pose_sum g (pose_sum (g_pose (m_geom m)) p))) /\
               pa (global_to_local g (pose_sum (pose_sum g (g_pose (m_geom m))) p)) =
               pa (global_to_local g (pose_sum g (pose_sum (g_pose (m_geom m)) p)))).
  { unfold global_to_local at 1 3 5. cbn [px py pa].
    rewrite Ax, Ay, Aa. split; [reflexivity|split; reflexivity]. }
  destruct Hc as (Cx & Cy & Ca).
  rewrite Cx, Cy, Ca, Hx, Hy, Ha.
  split; [reflexivity|]. split; [reflexivity|]. split; [reflexivity|].
  intros Hz. rewrite Hz. unfold pose_sum, zero_pose; cbn.
  rewrite cos_0, sin_0. split; [ring|split; ring].
Qed.

Lemma local_global_roundtrip_witness :
  exists r w2,
    GlobalToLocal 1 0 (pose_sum (pose_sum zero_pose (mk_pose 1 0 0 0)) zero_pose)
      (set_w_models offset_world (replace_model (w_models offset_world) 0
         (set_m_gpose_cache offset_model zero_pose false))) = Ok (r, w2) /\
    px r = px (pose_sum (mk_pose 1 0 0 0) zero_pose) /\
    py r = py (pose_sum (mk_pose 1 0 0 0) zero_pose) /\
    pa r = pa (pose_sum (mk_pose 1 0 0 0) zero_pose) /\
    (mk_pose 1 0 0 0 = zero_pose -> px r = px zero_pose /\ py r = py zero_pose /\
                                    pa r = pa zero_pose).
Proof.
  apply (proj2 local_global_roundtrip 1%nat offset_world 0%nat offset_model zero_pose);
    reflexivity.
Defined.

(** ** Frames: what each operation leaves alone *)

Section Frames.

Context {T : Type} (f : model -> T).

Lemma field_frame_refl w : field_frame f w w.
Proof. intros k; reflexivity. Qed.

Lemma field_frame_trans w1 w2 w3 :
  field_frame f w1 w2 -> field_frame f w2 w3 -> field_frame f w1 w3.
Proof. intros H1 H2 k. rewrite H2, H1. reflexivity. Qed.

Lemma keeps_ret {A} (a : A) : keeps f (ret a).
Proof. intros w b w' H. injection H as _ <-. apply field_frame_refl. Qed.

Lemma keeps_fail {A} e : keeps f (@fail A e).
Proof. intros w b w' H. discriminate. Qed.

Lemma keeps_get_world : keeps f get_world.
Proof. intros w b w' H. injection H as _ <-. apply field_frame_refl. Qed.

Lemma keeps_get_model id : keeps f (get_model id).
Proof.
  intros w b w' H. unfold get_model in H.
  destruct (find_model (w_models w) id); [|discriminate].
  injection H as _ <-. apply field_frame_refl.
Qed.

Lemma keeps_call_callbacks id k : keeps f (call_callbacks id k).
Proof. intros w b w' H. injection H as _ <-. intros j; reflexivity. Qed.

Lemma keeps_bind {A B} (c : M A) (k : A -> M B) :
  keeps f c -> (forall a, keeps f (k a)) -> keeps f (bind c k).
Proof.
  intros Hc Hk w b w' H. unfold bind in H.
  destruct (c w) as [[a w1]|e] eqn:E; [|discriminate].
  exact (field_frame_trans _ _ _ (Hc _ _ _ E) (Hk _ _ _ _ H)).
Qed.

Lemma keeps_world_update (F : world -> world) :
  (forall w, w_models (F w) = w_models w) ->
  keeps f (w <- get_world ;; put_world (F w)).
Proof.
  intros HF w b w' H. unfold bind, get_world, put_world in H.
  injection H as _ <-. intros k. rewrite HF. reflexivity.
Qed.

Lemma keeps_get_put id (g : model -> model) (k : model -> M unit) :
  (forall m, f (g m) = f m) -> (forall m, keeps f (k m)) ->
  keeps f (m <- get_model id ;; put_model id (g m) ;;; k m).
Proof.
  intros Hg Hk w b w' H. unfold bind, get_model, put_model in H.
  destruct (find_model (w_models w) id) as [m|] eqn:Hf; [|discriminate].
  destruct (k m (set_w_models w (replace_model (w_models w) id (g m))))
    as [[c w1]|e] eqn:E; [|discriminate].
  injection H as _ <-.
  refine (field_frame_trans _ _ _ _ (Hk _ _ _ _ E)).
  intros j. cbn [w_models set_w_models]. rewrite find_replace.
  destruct (Nat.eqb j id) eqn:Ej; [|reflexivity].
  apply Nat.eqb_eq in Ej; subst j. rewrite Hf. cbn. f_equal. apply Hg.
Qed.

Lemma keeps_mmap {A B} (g : A -> M B) (l : list A) :
  (forall x, keeps f (g x)) -> keeps f (mmap g l).
Proof.
  intros Hg; induction l as [|x l IH]; cbn [mmap].
  - apply keeps_ret.
  - apply keeps_bind; [apply Hg|intros y].
    apply keeps_bind; [exact IH|intros ys]. apply keeps_ret.
Qed.

Lemma keeps_miter {A} (g : A -> M unit) (l : list A) :
  (forall x, keeps f (g x)) -> keeps f (miter g l).
Proof.
  intros Hg; induction l as [|x l IH]; cbn [miter].
  - apply keeps_ret.
  - apply keeps_bind; [apply Hg|intros _; exact IH].
Qed.

Lemma keeps_mfold {A B} (g : A -> B -> M A) (acc : A) (l : list B) :
  (forall a x, keeps f (g a x)) -> keeps f (mfold g acc l).
Proof.
  intros Hg; revert acc; induction l as [|x l IH]; intros acc; cbn [mfold].
  - apply keeps_ret.
  - apply keeps_bind; [apply Hg|intros a; apply IH].
Qed.

Lemma frame_of_strip w w' :
  strip_inv f -> strip_world w' = strip_world w -> field_frame f w w'.
Proof.
  intros Hf Hs k.
  assert (H := f_equal (fun v => find_model (w_models v) k) Hs). cbn in H.
  rewrite !strip_find in H.
  destruct (find_model (w_models w') k) as [x'|], (find_model (w_models w) k) as [x|];
    cbn in *; try discriminate; [|reflexivity].
  change (Some (strip x') = Some (strip x)) in H.
  assert (E : strip x' = strip x) by congruence.
  rewrite <- (Hf x'), <- (Hf x), E. reflexivity.
Qed.

Lemma keeps_get_global_pose fuel id : strip_inv f -> keeps f (get_global_pose fuel id).
Proof.
  intros Hf w g w' H. apply frame_of_strip; [exact Hf|].
  exact (get_global_pose_frame _ _ _ _ _ H).
Qed.

Lemma keeps_local_to_global fuel id p : strip_inv f -> keeps f (local_to_global fuel id p).
Proof.
  intros Hf. unfold local_to_global.
  apply keeps_bind; [apply keeps_get_global_pose, Hf|intros g].
  apply keeps_bind; [apply keeps_get_model|intros m]. apply keeps_ret.
Qed.

Lemma keeps_local_to_global_point fuel id q :
  strip_inv f -> keeps f (local_to_global_point fuel id q).
Proof.
  intros Hf. unfold local_to_global_point.
  apply keeps_bind; [apply keeps_local_to_global, Hf|intros g]. apply keeps_ret.
Qed.


Lemma strip_inv_dirty m b : strip_inv f -> f (set_m_dirty m b) = f m.
Proof.
  intros Hf. rewrite <- (Hf (set_m_dirty m b)), <- (Hf m). reflexivity.
Qed.

Section OpsFrames.

Variable fuel : nat.
Hypothesis Hstrip : strip_inv f.

Lemma keeps_block_map id b : keeps f (block_map fuel id b).
Proof.
  unfold block_map.
  apply keeps_bind; [apply keeps_mmap; intros q; apply keeps_local_to_global_point, Hstrip|intros gpts].
  destruct (rev gpts) as [|global _]; [apply keeps_fail|].
  apply keeps_world_update; intros w; reflexivity.
Qed.

Lemma keeps_block_unmap b : keeps f (block_unmap b).
Proof. apply keeps_world_update; intros w; reflexivity. Qed.

Lemma keeps_model_map id : keeps f (model_map fuel id).
Proof.
  apply keeps_bind; [apply keeps_get_model|intros m].
  apply keeps_miter; intros b; apply keeps_block_map.
Qed.

Lemma keeps_model_unmap id : keeps f (model_unmap id).
Proof.
  apply keeps_bind; [apply keeps_get_model|intros m].
  apply keeps_miter; intros b; apply keeps_block_unmap.
Qed.

Lemma keeps_map_with_children_rec n id : keeps f (map_with_children_rec fuel n id).
Proof.
  revert id; induction n as [|n IH]; intros id; cbn [map_with_children_rec];
    [apply keeps_fail|].
  apply keeps_bind; [apply keeps_model_map|intros _].
  apply keeps_bind; [apply keeps_get_model|intros m].
  apply keeps_miter; exact IH.
Qed.

Lemma keeps_unmap_with_children_rec n id : keeps f (unmap_with_children_rec n id).
Proof.
  revert id; induction n as [|n IH]; intros id; cbn [unmap_with_children_rec];
    [apply keeps_fail|].
  apply keeps_bind; [apply keeps_model_unmap|intros _].
  apply keeps_bind; [apply keeps_get_model|intros m].
  apply keeps_miter; exact IH.
Qed.

Lemma keeps_gpose_dirty_tree_rec n id : keeps f (gpose_dirty_tree_rec n id).
Proof.
  revert id; induction n as [|n IH]; intros id; cbn [gpose_dirty_tree_rec];
    [apply keeps_fail|].
  apply keeps_get_put; [intros m; apply strip_inv_dirty, Hstrip|intros m].
  apply keeps_miter; exact IH.
Qed.

Lemma keeps_need_redraw_rec n id :
  (forall m, f (set_m_redraw m true) = f m) -> keeps f (need_redraw_rec n id).
Proof.
  intros Hr; revert id; induction n as [|n IH]; intros id; cbn [need_redraw_rec];
    [apply keeps_fail|].
  apply keeps_get_put; [exact Hr|intros m].
  destruct (m_parent m); [apply IH|apply keeps_ret].
Qed.

Lemma keeps_test_edge id pd pts h p : keeps f (test_edge fuel id pd pts h p).
Proof.
  unfold test_edge.
  apply keeps_bind; [apply keeps_local_to_global, Hstrip|intros o].
  apply keeps_bind; [apply keeps_get_world|intros w].
  destruct (raytrace w o _ collision_match id true); apply keeps_ret.
Qed.

Lemma keeps_test_block id pd h b : keeps f (test_block fuel id pd h b).
Proof. apply keeps_mfold; intros; apply keeps_test_edge. Qed.

Lemma keeps_TestCollision id pd : keeps f (TestCollision fuel id pd).
Proof.
  unfold TestCollision.
  apply keeps_bind; [apply keeps_get_model|intros m].
  destruct (m_blocks m); [apply keeps_ret|].
  apply keeps_bind; [apply keeps_model_unmap|intros _].
  apply keeps_bind; [apply keeps_mfold; intros; apply keeps_test_block|intros h].
  apply keeps_bind; [apply keeps_model_map|intros _]. apply keeps_ret.
Qed.

Lemma keeps_SetStall id s :
  (forall m, f (set_m_stall m s) = f m) -> keeps f (SetStall id s).
Proof.
  intros Hs. apply keeps_get_put; [exact Hs|intros m]. apply keeps_call_callbacks.
Qed.

End OpsFrames.

End Frames.

Lemma bind_ok {A B} (c : M A) (k : A -> M B) w b w' :
  bind c k w = Ok (b, w') -> exists a w1, c w = Ok (a, w1) /\ k a w1 = Ok (b, w').
Proof.
  unfold bind. destruct (c w) as [[a w1]|e]; [|discriminate].
  intros H. exists a, w1. split; [reflexivity|exact H].
Qed.

Lemma frame_find {T} (f : model -> T) w w' id m :
  field_frame f w w' -> find_model (w_models w) id = Some m ->
  exists m', find_model (w_models w') id = Some m' /\ f m' = f m.
Proof.
  intros Hfr Hf. specialize (Hfr id). rewrite Hf in Hfr.
  destruct (find_model (w_models w') id) as [m'|]; [|discriminate].
  exists m'. split; [reflexivity|]. cbn in Hfr. congruence.
Qed.

Lemma get_model_ok id w m w' :
  get_model id w = Ok (m, w') -> find_model (w_models w) id = Some m /\ w' = w.
Proof.
  unfold get_model. destruct (find_model (w_models w) id); [|discriminate].
  intros H. injection H as <- <-. split; reflexivity.
Qed.

Lemma keeps_SetPose {T} (f : model -> T) fuel id p :
  strip_inv f -> (forall m b, f (set_m_redraw m b) = f m) ->
  (forall m q, f (set_m_pose m q) = f m) -> keeps f (SetPose fuel id p).
Proof.
  intros Hs Hr Hp. unfold SetPose.
  apply keeps_bind; [apply keeps_get_model|intros m].
  apply keeps_bind; [|intros _; apply keeps_call_callbacks].
  destruct (pose_eqb (m_pose m) p); [apply keeps_ret|].
  apply keeps_bind.
  { apply keeps_unmap_with_children_rec. }
  intros _. cbv zeta.
  apply keeps_get_put; [intros m1; apply Hp|intros m1].
  apply keeps_bind; [apply keeps_need_redraw_rec; intros; apply Hr|intros _].
  apply keeps_bind; [apply keeps_gpose_dirty_tree_rec, Hs|intros _].
  apply keeps_map_with_children_rec, Hs.
Qed.

Lemma SetStall_ok id s w w' :
  SetStall id s w = Ok (tt, w') ->
  exists m, find_model (w_models w) id = Some m /\
            find_model (w_models w') id = Some (set_m_stall m s).
Proof.
  intros H. unfold SetStall in H. mstep.
  destruct (find_model (w_models w) id) as [m|] eqn:Hf; [|discriminate].
  injection H as <-. exists m. split; [reflexivity|]. cbn. rewrite find_replace_same, Hf. reflexivity.
Qed.

Lemma SetPose_pose fuel id p w w' :
  SetPose fuel id p w = Ok (tt, w') ->
  exists m m', find_model (w_models w) id = Some m /\
    find_model (w_models w') id = Some m' /\
    m_pose m' = (if pose_eqb (m_pose m) p then m_pose m
                 else mk_pose (px p) (py p) (pz p) (normalize (normalize (pa p)))).
Proof.
  intros H. unfold SetPose in H.
  apply bind_ok in H as (m & w0 & H0 & H). apply get_model_ok in H0 as [Hf <-].
  apply bind_ok in H as ([] & w1 & H1 & H2).
  assert (Hcb : w_models w' = w_models w1) by (injection H2 as <-; reflexivity).
  exists m. rewrite Hcb.
  destruct (pose_eqb (m_pose m) p).
  - injection H1 as <-. exists m. split; [exact Hf|split; [exact Hf|reflexivity]].
  - apply bind_ok in H1 as ([] & w3 & H3 & H1). cbv zeta in H1.
    apply bind_ok in H1 as (m1 & w4 & H4 & H1). apply get_model_ok in H4 as [Hf1 <-].
    apply bind_ok in H1 as ([] & w5 & H5 & H1).
    assert (Hf5 : find_model (w_models w5) id =
                  Some (set_m_pose m1 (mk_pose (px p) (py p) (pz p) (normalize (normalize (pa p)))))).
    { injection H5 as <-. cbn. rewrite find_replace_same, Hf1. reflexivity. }
    assert (Hk : keeps m_pose (need_redraw_rec fuel id ;;; gpose_dirty_tree fuel id ;;;
                               map_with_children fuel id)).
    { apply keeps_bind; [apply keeps_need_redraw_rec; intros x; reflexivity|intros _].
      apply keeps_bind; [apply keeps_gpose_dirty_tree_rec; intros x; reflexivity|intros _].
      apply keeps_map_with_children_rec; intros x; reflexivity. }
    destruct (frame_find _ _ _ _ _ (Hk _ _ _ H1) Hf5) as (m' & Hm' & Hpm).
    exists m'. split; [exact Hf|split; [exact Hm'|exact Hpm]].
Qed.


(** ** Geometry of the collision test *)

Lemma hypot_factor (x y : R) :
  x <> 0 -> hypot x y = sqrt (x * x) * sqrt (1 + (y / x)²).
Proof.
  intros Hx. unfold hypot. rewrite <- sqrt_mult_alt by nra.
  f_equal. unfold Rsqr. field. exact Hx.
Qed.

Lemma sqrt_1_plus_pos (z : R) : 0 < sqrt (1 + z²).
Proof. apply sqrt_lt_R0. pose proof (Rle_0_sqr z). lra. Qed.

(** The C library's [hypot] and [atan2] recover an edge vector from its
    length and bearing. *)
Lemma hypot_atan2 (x y : R) :
  hypot x y * cos (atan2 y x) = x /\ hypot x y * sin (atan2 y x) = y.
Proof.
  unfold atan2.
  destruct (Rlt_dec 0 x) as [Hx|Hx].
  - rewrite hypot_factor by lra. rewrite sqrt_square by lra.
    rewrite cos_atan, sin_atan. pose proof (sqrt_1_plus_pos (y / x)).
    split; field; lra.
  - destruct (Rlt_dec x 0) as [Hx'|Hx'].
    + rewrite hypot_factor by lra.
      replace (x * x) with ((- x) * (- x)) by ring. rewrite sqrt_square by lra.
      pose proof (sqrt_1_plus_pos (y / x)).
      destruct (Rle_dec 0 y).
      * rewrite neg_cos, neg_sin, cos_atan, sin_atan. split; field; lra.
      * rewrite cos_minus, sin_minus, cos_PI, sin_PI, cos_atan, sin_atan.
        split; field; lra.
    + assert (x = 0) by lra. subst x. unfold hypot.
      destruct (Rlt_dec 0 y).
      * rewrite cos_PI2, sin_PI2. rewrite Rmult_0_l, Rplus_0_l, sqrt_square by lra. split; ring.
      * destruct (Rlt_dec y 0).
        -- rewrite cos_neg, sin_neg, cos_PI2, sin_PI2. rewrite Rmult_0_l, Rplus_0_l.
           replace (y * y) with ((- y) * (- y)) by ring. rewrite sqrt_square by lra. split; ring.
        -- assert (y = 0) by lra. subst y. rewrite Rmult_0_l, Rplus_0_l, sqrt_0. split; ring.
Qed.

Lemma normalize_range (a : R) : - PI < normalize a <= PI.
Proof.
  unfold normalize. pose proof PI_RGT_0 as Hpi.
  destruct (base_Int_part (- ((a - PI) / (2 * PI)))) as [H1 H2].
  set (k := IZR (Int_part (- ((a - PI) / (2 * PI))))) in *.
  assert (E : - ((a - PI) / (2 * PI)) * (2 * PI) = PI - a) by (field; lra).
  split.
  - assert (k * (2 * PI) > (- ((a - PI) / (2 * PI)) - 1) * (2 * PI)) by (apply Rmult_gt_compat_r; lra).
    nra.
  - assert (k * (2 * PI) <= - ((a - PI) / (2 * PI)) * (2 * PI)) by (apply Rmult_le_compat_r; lra).
    nra.
Qed.

Lemma normalize_id (a : R) : - PI < a <= PI -> normalize a = a.
Proof.
  intros Ha. unfold normalize. pose proof PI_RGT_0 as Hpi.
  assert (Hk : Int_part (- ((a - PI) / (2 * PI))) = 0%Z).
  { unfold Int_part.
    assert (Hu : (1 = up (- ((a - PI) / (2 * PI))))%Z).
    { apply tech_up; cbn [IZR IPR].
      - apply (Rmult_lt_reg_r (2 * PI)); [lra|].
        replace (- ((a - PI) / (2 * PI)) * (2 * PI)) with (PI - a) by (field; lra). lra.
      - assert (0 <= - ((a - PI) / (2 * PI))); [|lra].
        replace (- ((a - PI) / (2 * PI))) with ((PI - a) / (2 * PI)) by (field; lra).
        unfold Rdiv; apply Rmult_le_pos; [lra|left; apply Rinv_0_lt_compat; lra]. }
    rewrite <- Hu. reflexivity. }
  rewrite Hk. cbn [IZR]. ring.
Qed.

Lemma ray_sep (o : pose) (range : R) (e : entry) (cx cy X : R) :
  (forall t, 0 <= t <= 1 ->
     cx * (px o + t * range * cos (pa o)) + cy * (py o + t * range * sin (pa o)) < X) ->
  (forall q, In q (e_pts e) -> X <= cx * ptx q + cy * pty q) ->
  ~ ray_meets o range e.
Proof.
  intros Hr Hq (t & i & u & Ht & Hi & Hu & Ex & Ey).
  set (n := length (e_pts e)) in *.
  set (q1 := nth i (e_pts e) (mk_point 0 0)) in *.
  set (q2 := nth ((i + 1) mod n) (e_pts e) (mk_point 0 0)) in *.
  assert (H1 := Hq q1 (nth_In _ _ Hi)).
  assert (H2 : X <= cx * ptx q2 + cy * pty q2).
  { apply Hq, nth_In. apply Nat.mod_upper_bound. unfold n in *. lia. }
  specialize (Hr t Ht). rewrite Ex, Ey in Hr.
  assert (0 <= (1 - u) * (cx * ptx q1 + cy * pty q1 - X)) by (apply Rmult_le_pos; lra).
  assert (0 <= u * (cx * ptx q2 + cy * pty q2 - X)) by (apply Rmult_le_pos; lra).
  nra.
Qed.

Lemma raytrace_in_skip w e ix o range func req zt :
  ~ ray_meets o range e ->
  raytrace_in w (e :: ix) o range func req zt = raytrace_in w ix o range func req zt.
Proof.
  intros Hn. cbn [raytrace_in].
  destruct (negb _ && _ && _); [|reflexivity].
  destruct (excluded_middle_informative _); [contradiction|reflexivity].
Qed.

Lemma raytrace_in_hit w e ix o range func req :
  ray_meets o range e -> Nat.eqb (e_model e) req = false ->
  e_zmin e <= pz o <= e_zmax e -> func w e req = true ->
  raytrace_in w (e :: ix) o range func req true = Some e.
Proof.
  intros Hm Hr Hz Hf. cbn [raytrace_in]. rewrite Hr, Hf.
  destruct (Rle_dec (e_zmin e) (pz o)); [|lra].
  destruct (Rle_dec (pz o) (e_zmax e)); [|lra]. cbn.
  destruct (excluded_middle_informative _); [reflexivity|contradiction].
Qed.

Lemma pose_eqb_true a b : pose_eqb a b = true -> a = b.
Proof.
  unfold pose_eqb.
  destruct (Req_dec_T (px a) (px b)), (Req_dec_T (py a) (py b)),
    (Req_dec_T (pz a) (pz b)), (Req_dec_T (pa a) (pa b)); try discriminate.
  destruct a, b; cbn in *; subst; reflexivity.
Qed.

Lemma ray_cos t x y : t * hypot x y * cos (atan2 y x) = t * x.
Proof. rewrite Rmult_assoc, (proj1 (hypot_atan2 x y)). reflexivity. Qed.
Lemma ray_sin t x y : t * hypot x y * sin (atan2 y x) = t * y.
Proof. rewrite Rmult_assoc, (proj2 (hypot_atan2 x y)). reflexivity. Qed.
Lemma raytrace_in_nil w o r f req zt : raytrace_in w [] o r f req zt = None.
Proof. reflexivity. Qed.

Ltac rsimpl := rewrite ?Rmult_0_l, ?Rmult_0_r, ?Rplus_0_l, ?Rplus_0_r, ?cos_0, ?sin_0.
Ltac rsimpl_in H := rewrite ?Rmult_0_l, ?Rmult_0_r, ?Rplus_0_l, ?Rplus_0_r, ?cos_0, ?sin_0 in H.

Ltac refute_ray cx cy X :=
  apply (ray_sep _ _ _ cx cy X);
  [ intros t Ht; cbn [px py pz pa]; rsimpl; rewrite ?ray_cos, ?ray_sin; lra
  | intros q Hq; cbn [e_pts In] in Hq;
    repeat (destruct Hq as [<-|Hq]; [cbn [ptx pty]; rsimpl; lra|]); contradiction ].


(** Evaluation of concrete runs, keeping the real-number operations and
    the undecidable tests folded. *)
Ltac geval := cbv -[IZR Rplus Rmult Rminus Ropp Rdiv Rinv cos sin sqrt atan PI Int_part up
               hypot atan2 normalize pose_eqb Rle_dec excluded_middle_informative ray_meets].

Ltac run_rays cx cy X :=
  repeat (match goal with
   | |- context [excluded_middle_informative ?P] =>
       destruct (excluded_middle_informative P) as [Hm|_];
       [exfalso; revert Hm; refute_ray cx cy X|]; geval
   | |- context [Rle_dec ?a ?b] =>
       destruct (Rle_dec a b) as [_|Hn]; [|exfalso; apply Hn; rsimpl; lra]; geval
   end).

Ltac run_pose_eqb :=
  match goal with |- context [pose_eqb ?a ?b] =>
    let E := fresh "E" in
    destruct (pose_eqb a b) eqn:E;
    [exfalso; apply pose_eqb_true, (f_equal px) in E; cbn in E; rsimpl_in E; lra|]
  end.

(** S2 run with A.velocity.x = [v], for [v] = 10 and [v] = 1/2: no edge
    of A's displaced square meets B, A moves. *)
Lemma s2_run_fast :
  exists w', UpdatePose 2 0 (s2_world 10) = Ok (tt, w') /\
  exists m', find_model (w_models w') 0 = Some m' /\ m_stall m' = false /\
             px (m_pose m') = 10.
Proof.
  geval. run_rays (-1) 0 (-3). run_pose_eqb. geval.
  eexists; split; [reflexivity|].
  eexists; split; [reflexivity|]. split; [reflexivity|]. rsimpl. lra.
Qed.

Lemma s2_run_slow :
  exists w', UpdatePose 2 0 (s2_world (1/2)) = Ok (tt, w') /\
  exists m', find_model (w_models w') 0 = Some m' /\ m_stall m' = false /\
             px (m_pose m') = 1/2.
Proof.
  geval. run_rays 1 0 (5/4). run_pose_eqb. geval.
  eexists; split; [reflexivity|].
  eexists; split; [reflexivity|]. split; [reflexivity|]. rsimpl. lra.
Qed.

(** ** UpdatePose *)

(** One [UpdatePose] call, step by step. *)
Lemma UpdatePose_steps fuel id w w' m :
  find_model (w_models w) id = Some m -> m_disabled m = false ->
  UpdatePose fuel id w = Ok (tt, w') ->
  exists w1 h w2 m',
    w1 = trail_world w id m /\
    field_frame (fun x => (m_pose x, m_stall x, m_velocity x)) w w1 /\
    TestCollision fuel id (update_delta w (m_velocity m)) w1 = Ok (h, w2) /\
    find_model (w_models w') id = Some m' /\
    m_trail m' = tick_trail (w_updates w) (m_trail m) (checkpoint w m) /\
    match h with
    | Some _ => m_stall m' = true /\ m_pose m' = m_pose m
    | None => m_stall m' = false /\
        m_pose m' = (if pose_eqb (m_pose m) (pose_sum (m_pose m) (update_delta w (m_velocity m)))
                     then m_pose m
                     else mk_pose (px (pose_sum (m_pose m) (update_delta w (m_velocity m))))
                                  (py (pose_sum (m_pose m) (update_delta w (m_velocity m))))
                                  (pz (pose_sum (m_pose m) (update_delta w (m_velocity m))))
                                  (normalize (normalize
                                     (pa (pose_sum (m_pose m) (update_delta w (m_velocity m)))))))
    end.
Proof.
  intros Hf Hd H. unfold UpdatePose in H.
  apply bind_ok in H as (m0 & w0 & H0 & H). apply get_model_ok in H0 as [Hf0 ->].
  rewrite Hf in Hf0. injection Hf0 as <-. rewrite Hd in H. cbv beta iota in H.
  apply bind_ok in H as (wa & wb & H0 & H). injection H0 as Ea Eb. subst wa wb.
  apply bind_ok in H as ([] & w1 & H1 & H).
  (* the trail step *)
  assert (Ew1 : w1 = trail_world w id m).
  { unfold trail_world, checkpoint.
    destruct (Nat.eqb (w_updates w mod 10) 0); injection H1 as <-; reflexivity. }
  assert (Hw1 : exists m1, find_model (w_models w1) id = Some m1 /\
            field_frame (fun x => (m_pose x, m_stall x, m_velocity x)) w w1 /\
            m_pose m1 = m_pose m /\ m_velocity m1 = m_velocity m /\
            m_trail m1 = tick_trail (w_updates w) (m_trail m) (checkpoint w m)).
  { unfold tick_trail, checkpoint.
    destruct (Nat.eqb (w_updates w mod 10) 0).
    - injection H1 as <-. eexists. cbn. rewrite find_replace_same, Hf.
      split; [reflexivity|]. split; [|split; [reflexivity|split; reflexivity]].
      intros k. cbn. rewrite find_replace. destruct (Nat.eqb k id) eqn:E; [|reflexivity].
      apply Nat.eqb_eq in E; subst k. rewrite Hf. reflexivity.
    - injection H1 as <-. exists m. split; [exact Hf|].
      split; [apply field_frame_refl|split; [reflexivity|split; reflexivity]]. }
  destruct Hw1 as (m1 & Hf1 & Hfr1 & Hp1 & Hv1 & Ht1).
  assert (Hi : w_interval_sim w1 = w_interval_sim w /\ w_updates w1 = w_updates w).
  { destruct (Nat.eqb (w_updates w mod 10) 0); injection H1 as <-; split; reflexivity. }
  cbv zeta in H.
  apply bind_ok in H as (m2 & w2 & H2 & H). apply get_model_ok in H2 as [Hf2 ->].
  rewrite Hf1 in Hf2. injection Hf2 as <-.
  apply bind_ok in H as (h & w2 & H2 & H).
  exists w1, h, w2.
  assert (Hk : keeps (fun x => (m_pose x, m_stall x, m_trail x)) (TestCollision fuel id
                 (mk_pose (vx (m_velocity m1) * (IZR (w_interval_sim w) / 1000000))
                          (vy (m_velocity m1) * (IZR (w_interval_sim w) / 1000000)) 0
                          (va (m_velocity m1) * (IZR (w_interval_sim w) / 1000000))))).
  { apply keeps_TestCollision; intros x; reflexivity. }
  destruct (frame_find _ _ _ _ _ (Hk _ _ _ H2) Hf1) as (m3 & Hf3 & Hm3).
  injection Hm3 as Hp3 Hs3 Ht3.
  destruct h as [hm|].
  - destruct (SetStall_ok _ _ _ _ H) as (m4 & Hf4 & Hf').
    rewrite Hf3 in Hf4. injection Hf4 as <-.
    eexists. split; [exact Ew1|]. split; [exact Hfr1|]. split; [rewrite <- Hv1; exact H2|].
    split; [exact Hf'|]. cbn. rewrite Ht3, Ht1, Hp3, Hp1.
    split; [reflexivity|split; reflexivity].
  - apply bind_ok in H as ([] & w4 & H4 & H).
    destruct (SetStall_ok _ _ _ _ H4) as (m4 & Hf4 & Hf4').
    rewrite Hf3 in Hf4. injection Hf4 as <-.
    apply bind_ok in H as (m5 & w5 & H5 & H). apply get_model_ok in H5 as [Hf5 ->].
    rewrite Hf4' in Hf5. injection Hf5 as <-.
    assert (Hk2 : keeps (fun x => (m_stall x, m_trail x))
                    (SetPose fuel id (pose_sum (m_pose (set_m_stall m3 false))
                       (mk_pose (vx (m_velocity m1) * (IZR (w_interval_sim w) / 1000000))
                          (vy (m_velocity m1) * (IZR (w_interval_sim w) / 1000000)) 0
                          (va (m_velocity m1) * (IZR (w_interval_sim w) / 1000000)))))).
    { apply keeps_SetPose; first [intros x y; reflexivity | intros x; reflexivity]. }
    destruct (frame_find _ _ _ _ _ (Hk2 _ _ _ H) Hf4') as (m6 & Hf6 & Hm6).
    injection Hm6 as Hs6 Ht6.
    destruct (SetPose_pose _ _ _ _ _ H) as (m7 & m8 & Hf7 & Hf8 & Hp8).
    rewrite Hf4' in Hf7. injection Hf7 as <-.
    rewrite Hf6 in Hf8. injection Hf8 as <-.
    exists m6. split; [exact Ew1|]. split; [exact Hfr1|]. split; [rewrite <- Hv1; exact H2|].
    split; [exact Hf6|]. rewrite Ht6. cbn in Ht6 |- *. rewrite Ht3, Ht1.
    split; [reflexivity|]. split; [exact Hs6|].
    rewrite Hp8. cbn [m_pose set_m_stall]. rewrite Hp3, Hp1, Hv1. reflexivity.
Qed.

Lemma normalize_idem (a : R) : normalize (normalize a) = normalize a.
Proof. apply normalize_id, normalize_range. Qed.

(** The pose [SetPose] stores, for a requested pose [q]: [q] itself when
    it equals the old pose, [q] with its heading normalised otherwise. *)
Lemma set_pose_result (old q : pose) :
  let r := if pose_eqb old q then old
           else mk_pose (px q) (py q) (pz q) (normalize (normalize (pa q))) in
  px r = px q /\ py r = py q /\ pz r = pz q /\
  (pa r = pa q \/ pa r = normalize (pa q)) /\
  (- PI < pa q <= PI -> r = q).
Proof.
  cbv zeta. destruct (pose_eqb old q) eqn:E.
  - apply pose_eqb_true in E. subst old. split; [reflexivity|]. split; [reflexivity|].
    split; [reflexivity|]. split; [left; reflexivity|]. intros _; reflexivity.
  - cbn [px py pz pa]. rewrite normalize_idem.
    split; [reflexivity|]. split; [reflexivity|]. split; [reflexivity|].
    split; [right; reflexivity|].
    intros Hq. rewrite (normalize_id _ Hq). destruct q; reflexivity.
Qed.

(** C6, as the code has it.  On every tick [UpdatePose] performs the
    trail step [tick_trail]: at an update count that is a multiple of 10
    it appends the checkpoint (pose, colour, sim_time), after dropping the
    oldest entry only when the trail already holds MORE than 100 entries.
    A trail of 100 entries therefore grows to 101; the length stays at
    most 101; and 2000 ticks from an empty trail leave 101 entries. *)
Theorem UpdatePose_trail_length :
  (forall fuel id w w' m,
     find_model (w_models w) id = Some m -> m_disabled m = false ->
     UpdatePose fuel id w = Ok (tt, w') ->
     exists m', find_model (w_models w') id = Some m' /\
       m_trail m' = tick_trail (w_updates w) (m_trail m) (checkpoint w m)) /\
  (forall tr cp, length tr = 100%nat -> length (trail_append tr cp) = 101%nat) /\
  (forall tr cp, (length tr <= 101)%nat -> (length (trail_append tr cp) <= 101)%nat) /\
  (forall cp, length (trail_ticks 2000 0 [] cp) = 101%nat).
Proof.
  split; [|split; [|split]].
  - intros fuel id w w' m Hf Hd H.
    destruct (UpdatePose_steps fuel id w w' m Hf Hd H) as (w1 & h & w2 & m' & _ & _ & _ & Hm' & Ht & _).
    exists m'. split; [exact Hm'|exact Ht].
  - intros tr cp Hl. unfold trail_append. rewrite Hl. cbn [Nat.ltb Nat.leb].
    rewrite length_app, Hl. reflexivity.
  - intros tr cp Hl. unfold trail_append.
    destruct (Nat.ltb 100 (length tr)) eqn:E.
    + apply Nat.ltb_lt in E. rewrite length_app.
      destruct tr as [|x tr]; cbn [tl length] in *; lia.
    + apply Nat.ltb_ge in E. rewrite length_app. cbn [length]. lia.
  - intros cp. vm_compute. reflexivity.
Qed.

Lemma UpdatePose_trail_length_witness :
  exists m w', find_model (w_models (s2_world 10)) 0 = Some m /\
    UpdatePose 2 0 (s2_world 10) = Ok (tt, w') /\
    exists m', find_model (w_models w') 0 = Some m' /\
      m_trail m' = tick_trail (w_updates (s2_world 10)) (m_trail m) (checkpoint (s2_world 10) m).
Proof.
  destruct s2_run_fast as (w' & Hrun & _).
  eexists; exists w'. split; [reflexivity|]. split; [exact Hrun|].
  apply (proj1 UpdatePose_trail_length 2%nat 0%nat (s2_world 10) w'); [reflexivity|reflexivity|exact Hrun].
Defined.

(** C1, counterexample (S2).  [TestCollision] raytraces the edges of A's
    square at the displaced pose only.  With A.velocity.x = 10 and
    interval_sim = 1 s the displaced square spans x in [9.5, 10.5] and
    does not meet B at x in [1.5, 2.5]: after one [UpdatePose] A.stall is
    false and A.pose.x is 10, not stall true and x = 0. *)
Lemma UpdatePose_S2_no_stall :
  exists w', UpdatePose 2 0 (s2_world 10) = Ok (tt, w') /\
  exists m', find_model (w_models w') 0 = Some m' /\ m_stall m' = false /\
             px (m_pose m') = 10 /\ px (m_pose m') <> 0.
Proof.
  destruct s2_run_fast as (w' & Hrun & m' & Hm' & Hs & Hx).
  exists w'. split; [exact Hrun|]. exists m'. split; [exact Hm'|].
  split; [exact Hs|]. split; [exact Hx|]. rewrite Hx. lra.
Qed.

(** C1, as the code has it.  For an enabled model, one [UpdatePose]
    computes p = velocity * interval_sim / 10^6 (z = 0) and calls
    [TestCollision(p)] in the world the trail step leaves
    ([trail_world]), which tests the model's block edges at the
    displaced pose.  On a hit the stall flag becomes true and the pose is
    unchanged; otherwise the stall flag becomes false and the pose becomes
    pose ⊕ p in x, y and z, with the heading pose.a + p.a normalised into
    (−π, π] by [SetPose] (so exactly pose ⊕ p when that heading is already
    in range).  In S2 the collision test at the destination finds nothing
    for A.velocity.x = 10 (A ends at x = 10, not stalled) and for
    A.velocity.x = 0.5 (A ends at x = 0.5, not stalled). *)
Theorem UpdatePose_stall_or_move :
  (forall fuel id w w' m,
     find_model (w_models w) id = Some m -> m_disabled m = false ->
     UpdatePose fuel id w = Ok (tt, w') ->
     exists h w2 m',
       TestCollision fuel id (update_delta w (m_velocity m)) (trail_world w id m) = Ok (h, w2) /\
       find_model (w_models w') id = Some m' /\
       match h with
       | Some _ => m_stall m' = true /\ m_pose m' = m_pose m
       | None =>
           m_stall m' = false /\
           px (m_pose m') = px (pose_sum (m_pose m) (update_delta w (m_velocity m))) /\
           py (m_pose m') = py (pose_sum (m_pose m) (update_delta w (m_velocity m))) /\
           pz (m_pose m') = pz (pose_sum (m_pose m) (update_delta w (m_velocity m))) /\
           (pa (m_pose m') = pa (pose_sum (m_pose m) (update_delta w (m_velocity m))) \/
            pa (m_pose m') = normalize (pa (pose_sum (m_pose m) (update_delta w (m_velocity m))))) /\
           (- PI < pa (pose_sum (m_pose m) (update_delta w (m_velocity m))) <= PI ->
            m_pose m' = pose_sum (m_pose m) (update_delta w (m_velocity m)))
       end) /\
  (exists w', UpdatePose 2 0 (s2_world 10) = Ok (tt, w') /\
     exists m', find_model (w_models w') 0 = Some m' /\ m_stall m' = false /\
                px (m_pose m') = 10) /\
  (exists w', UpdatePose 2 0 (s2_world (1/2)) = Ok (tt, w') /\
     exists m', find_model (w_models w') 0 = Some m' /\ m_stall m' = false /\
                px (m_pose m') = 1/2).
Proof.
  split; [|split; [exact s2_run_fast|exact s2_run_slow]].
  intros fuel id w w' m Hf Hd H.
  destruct (UpdatePose_steps fuel id w w' m Hf Hd H)
    as (w1 & h & w2 & m' & Ew1 & _ & Htc & Hm' & _ & Hh).
  subst w1. exists h, w2, m'. split; [exact Htc|]. split; [exact Hm'|].
  destruct h as [hm|]; [exact Hh|].
  destruct Hh as [Hs Hp]. split; [exact Hs|]. rewrite Hp. apply set_pose_result.
Qed.

Lemma UpdatePose_stall_or_move_witness :
  exists m w', find_model (w_models (s2_world 10)) 0 = Some m /\
    UpdatePose 2 0 (s2_world 10) = Ok (tt, w') /\
    exists h w2 m',
       TestCollision 2 0 (update_delta (s2_world 10) (m_velocity m))
         (trail_world (s2_world 10) 0 m) = Ok (h, w2) /\
       find_model (w_models w') 0 = Some m' /\
       match h with
       | Some _ => m_stall m' = true /\ m_pose m' = m_pose m
       | None =>
           m_stall m' = false /\
           px (m_pose m') = px (pose_sum (m_pose m) (update_delta (s2_world 10) (m_velocity m))) /\
           py (m_pose m') = py (pose_sum (m_pose m) (update_delta (s2_world 10) (m_velocity m))) /\
           pz (m_pose m') = pz (pose_sum (m_pose m) (update_delta (s2_world 10) (m_velocity m))) /\
           (pa (m_pose m') = pa (pose_sum (m_pose m) (update_delta (s2_world 10) (m_velocity m))) \/
            pa (m_pose m') = normalize (pa (pose_sum (m_pose m) (update_delta (s2_world 10) (m_velocity m))))) /\
           (- PI < pa (pose_sum (m_pose m) (update_delta (s2_world 10) (m_velocity m))) <= PI ->
            m_pose m' = pose_sum (m_pose m) (update_delta (s2_world 10) (m_velocity m)))
       end.
Proof.
  destruct s2_run_fast as (w' & Hrun & _).
  eexists; exists w'. split; [reflexivity|]. split; [exact Hrun|].
  apply (proj1 UpdatePose_stall_or_move 2%nat 0%nat (s2_world 10) w'); [reflexivity|reflexivity|exact Hrun].
Defined.

(** ** SetPose: reaching every node of a subtree *)

Lemma miter_rel {A} (g : A -> M unit) (Rw : world -> world -> Prop) :
  (forall w, Rw w w) -> (forall a b c, Rw a b -> Rw b c -> Rw a c) ->
  (forall y w w', g y w = Ok (tt, w') -> Rw w w') ->
  forall l w w', miter g l w = Ok (tt, w') -> Rw w w'.
Proof.
  intros Hr Ht Hg l; induction l as [|x l IH]; intros w w' H; cbn [miter] in H.
  - injection H as <-. apply Hr.
  - apply bind_ok in H as ([] & w1 & H1 & H2). exact (Ht _ _ _ (Hg _ _ _ H1) (IH _ _ H2)).
Qed.

Lemma miter_mid {A} (g : A -> M unit) (Rw : world -> world -> Prop) :
  (forall w, Rw w w) -> (forall a b c, Rw a b -> Rw b c -> Rw a c) ->
  (forall y w w', g y w = Ok (tt, w') -> Rw w w') ->
  forall l w w' x, miter g l w = Ok (tt, w') -> In x l ->
  exists w1 w2, Rw w w1 /\ g x w1 = Ok (tt, w2) /\ Rw w2 w'.
Proof.
  intros Hr Ht Hg l; induction l as [|y l IH]; intros w w' x H Hx; [destruct Hx|].
  cbn [miter] in H. apply bind_ok in H as ([] & w1 & H1 & H2).
  destruct Hx as [<-|Hx].
  - exists w, w1. split; [apply Hr|]. split; [exact H1|].
    exact (miter_rel g Rw Hr Ht Hg _ _ _ H2).
  - destruct (IH _ _ _ H2 Hx) as (wa & wb & Ha & Hb & Hc).
    exists wa, wb. split; [exact (Ht _ _ _ (Hg _ _ _ H1) Ha)|]. split; [exact Hb|exact Hc].
Qed.

Lemma in_subtree_frame w w' a k :
  field_frame m_children w w' -> in_subtree (w_models w) a k -> in_subtree (w_models w') a k.
Proof.
  intros Hfr H; induction H as [id|id m c k Hf Hc Hs IH]; [apply st_here|].
  destruct (frame_find _ _ _ _ _ Hfr Hf) as (m' & Hf' & Hch).
  apply (st_down _ id m' c k Hf'); [rewrite Hch; exact Hc|exact IH].
Qed.

Section Reach.

Variable rec : nat -> nat -> M unit.
Variable Rw : world -> world -> Prop.
Variable P : world -> nat -> Prop.
Hypothesis Hrefl : forall w, Rw w w.
Hypothesis Htrans : forall a b c, Rw a b -> Rw b c -> Rw a c.
Hypothesis Hch : forall w w', Rw w w' -> field_frame m_children w w'.
Hypothesis HP : forall w w' k, Rw w w' -> P w k -> P w' k.
Hypothesis Hrec : forall n id w w', rec n id w = Ok (tt, w') -> Rw w w'.
Hypothesis Hunf : forall n id w w', rec (S n) id w = Ok (tt, w') ->
  exists w1 m, Rw w w1 /\ P w1 id /\ find_model (w_models w1) id = Some m /\
               miter (rec n) (m_children m) w1 = Ok (tt, w').
Hypothesis H0 : forall id w w', rec O id w = Ok (tt, w') -> False.

Lemma rec_reaches n : forall id w w' k,
  rec n id w = Ok (tt, w') -> in_subtree (w_models w) id k -> P w' k.
Proof.
  induction n as [|n IH]; intros id w w' k H Hs; [exfalso; exact (H0 _ _ _ H)|].
  destruct (Hunf _ _ _ _ H) as (w1 & m1 & Hw1 & Hp1 & Hf1 & Hit).
  inversion Hs as [id'|id' m c k' Hf Hc Hs' Heq1 Heq2]; subst.
  - apply (HP w1); [exact (miter_rel _ Rw Hrefl Htrans (Hrec n) _ _ _ Hit)|exact Hp1].
  - destruct (frame_find _ _ _ _ _ (Hch _ _ Hw1) Hf) as (m1' & Hf1' & Hcm).
    rewrite Hf1 in Hf1'. injection Hf1' as <-.
    rewrite <- Hcm in Hc.
    destruct (miter_mid _ Rw Hrefl Htrans (Hrec n) _ _ _ _ Hit Hc) as (wa & wb & Ha & Hb & Hc').
    apply (HP wb); [exact Hc'|].
    apply (IH c wa wb k Hb).
    apply (in_subtree_frame w wa); [|exact Hs'].
    apply Hch. exact (Htrans _ _ _ Hw1 Ha).
Qed.

End Reach.

(** *** Unmapping *)

Definition shrinks (w w' : world) : Prop :=
  w_models w' = w_models w /\ forall e, In e (w_index w') -> In e (w_index w).

Lemma shrinks_refl w : shrinks w w.
Proof. split; [reflexivity|tauto]. Qed.

Lemma shrinks_trans a b c : shrinks a b -> shrinks b c -> shrinks a c.
Proof. intros [E1 I1] [E2 I2]. split; [congruence|auto]. Qed.

Lemma shrinks_children w w' : shrinks w w' -> field_frame m_children w w'.
Proof. intros [E _] k. rewrite E. reflexivity. Qed.

Lemma unmapped_shrinks w w' k : shrinks w w' -> unmapped w k -> unmapped w' k.
Proof.
  intros [E I] H mk b e Hf Hb He. rewrite E in Hf. exact (H mk b e Hf Hb (I e He)).
Qed.

Lemma block_unmap_shrinks b w w' : block_unmap b w = Ok (tt, w') -> shrinks w w'.
Proof.
  unfold block_unmap. mstep. intros H. injection H as <-. cbn.
  split; [reflexivity|]. intros e He. apply filter_In in He. tauto.
Qed.

Lemma miter_block_unmap bs w w' :
  miter block_unmap bs w = Ok (tt, w') ->
  shrinks w w' /\ forall b e, In b bs -> In e (w_index w') -> e_block e <> b_id b.
Proof.
  revert w; induction bs as [|b bs IH]; intros w H; cbn [miter] in H.
  - injection H as <-. split; [apply shrinks_refl|intros b e []].
  - apply bind_ok in H as ([] & w1 & H1 & H2).
    destruct (IH _ H2) as [Hs Hg]. assert (Hs1 := block_unmap_shrinks _ _ _ H1).
    split; [exact (shrinks_trans _ _ _ Hs1 Hs)|].
    intros b' e [<-|Hb] He; [|exact (Hg _ _ Hb He)].
    destruct Hs as [_ I]. apply I in He.
    unfold block_unmap in H1. mstep. injection H1 as <-. cbn in He.
    apply filter_In in He as [_ He]. intros Eb. rewrite Eb, Nat.eqb_refl in He. discriminate.
Qed.

Lemma model_unmap_ok id w w' :
  model_unmap id w = Ok (tt, w') -> shrinks w w' /\ unmapped w' id.
Proof.
  intros H. unfold model_unmap in H.
  apply bind_ok in H as (m & w0 & H0 & H). apply get_model_ok in H0 as [Hf ->].
  destruct (miter_block_unmap _ _ _ H) as [Hs Hg]. split; [exact Hs|].
  intros mk b e Hk Hb He. destruct Hs as [E _]. rewrite E, Hf in Hk.
  injection Hk as <-. exact (Hg b e Hb He).
Qed.

Lemma unmap_rec_shrinks n : forall id w w',
  unmap_with_children_rec n id w = Ok (tt, w') -> shrinks w w'.
Proof.
  induction n as [|n IH]; intros id w w' H; cbn [unmap_with_children_rec] in H; [discriminate|].
  apply bind_ok in H as ([] & w1 & H1 & H).
  apply bind_ok in H as (m & w2 & H2 & H). apply get_model_ok in H2 as [_ ->].
  apply (shrinks_trans _ _ _ (proj1 (model_unmap_ok _ _ _ H1))).
  exact (miter_rel _ shrinks shrinks_refl shrinks_trans IH _ _ _ H).
Qed.

Lemma unmap_with_children_reaches n id w w' k :
  unmap_with_children_rec n id w = Ok (tt, w') -> in_subtree (w_models w) id k ->
  unmapped w' k.
Proof.
  apply (rec_reaches unmap_with_children_rec shrinks (fun w k => unmapped w k)).
  - exact shrinks_refl.
  - exact shrinks_trans.
  - exact shrinks_children.
  - intros; eapply unmapped_shrinks; eauto.
  - exact unmap_rec_shrinks.
  - intros n' id' wa wb H. cbn [unmap_with_children_rec] in H.
    apply bind_ok in H as ([] & w1 & H1 & H).
    apply bind_ok in H as (m & w2 & H2 & H). apply get_model_ok in H2 as [Hf ->].
    destruct (model_unmap_ok _ _ _ H1) as [Hs Hu].
    exists w1, m. split; [exact Hs|]. split; [exact Hu|]. split; [exact Hf|exact H].
  - intros id' wa wb H. discriminate.
Qed.

(** *** Mapping *)

Lemma field_frame_comp {T U} (f : model -> T) (g : T -> U) w w' :
  field_frame f w w' -> field_frame (fun m => g (f m)) w w'.
Proof.
  intros H k. specialize (H k).
  destruct (find_model (w_models w') k), (find_model (w_models w) k); cbn in *;
    congruence.
Qed.

Lemma frame_find_back {T} (f : model -> T) w w' k m' :
  field_frame f w w' -> find_model (w_models w') k = Some m' ->
  exists m, find_model (w_models w) k = Some m /\ f m' = f m.
Proof.
  intros H Hf. specialize (H k). rewrite Hf in H.
  destruct (find_model (w_models w) k) as [m|]; [|discriminate].
  exists m. split; [reflexivity|]. cbn in H. congruence.
Qed.

Definition grows (w w' : world) : Prop :=
  field_frame (fun m => (m_children m, m_blocks m)) w w' /\
  forall e, In e (w_index w) -> In e (w_index w').

Lemma grows_refl w : grows w w.
Proof. split; [apply field_frame_refl|tauto]. Qed.

Lemma grows_trans a b c : grows a b -> grows b c -> grows a c.
Proof. intros [F1 I1] [F2 I2]. split; [exact (field_frame_trans _ _ _ _ F1 F2)|auto]. Qed.

Lemma grows_children w w' : grows w w' -> field_frame m_children w w'.
Proof. intros [F _]. exact (field_frame_comp _ fst _ _ F). Qed.

Lemma mapped_grows w w' k : grows w w' -> mapped w k -> mapped w' k.
Proof.
  intros [F I] H mk' b Hf Hb.
  destruct (frame_find_back _ _ _ _ _ F Hf) as (mk & Hk & E).
  injection E as _ Eb. rewrite Eb in Hb.
  destruct (H mk b Hk Hb) as (e & He & E1 & E2). exists e. split; [apply I, He|auto].
Qed.

Lemma strip_inv_cb : strip_inv (fun m => (m_children m, m_blocks m)).
Proof. intros m; reflexivity. Qed.

Lemma local_to_global_index fuel id p w g w' :
  local_to_global fuel id p w = Ok (g, w') -> w_index w' = w_index w.
Proof.
  intros H. unfold local_to_global in H.
  apply bind_ok in H as (g0 & w1 & H1 & H).
  apply bind_ok in H as (m & w2 & H2 & H). apply get_model_ok in H2 as [_ ->].
  injection H as _ <-.
  exact (f_equal w_index (get_global_pose_frame _ _ _ _ _ H1)).
Qed.

Lemma local_to_global_point_index fuel id q w g w' :
  local_to_global_point fuel id q w = Ok (g, w') -> w_index w' = w_index w.
Proof.
  intros H. unfold local_to_global_point in H.
  apply bind_ok in H as (g0 & w1 & H1 & H). injection H as _ <-.
  exact (local_to_global_index _ _ _ _ _ _ H1).
Qed.

Lemma mmap_local_to_global_index fuel id (h : point -> point3) l w gs w' :
  mmap (fun q => local_to_global_point fuel id (h q)) l w = Ok (gs, w') -> w_index w' = w_index w.
Proof.
  revert w gs; induction l as [|x l IH]; intros w gs H; cbn [mmap] in H.
  - injection H as _ <-. reflexivity.
  - apply bind_ok in H as (y & w1 & H1 & H).
    apply bind_ok in H as (ys & w2 & H2 & H). injection H as _ <-.
    rewrite (IH _ _ H2). exact (local_to_global_point_index _ _ _ _ _ _ H1).
Qed.

Lemma block_map_ok fuel id b w w' :
  block_map fuel id b w = Ok (tt, w') ->
  grows w w' /\ exists e, In e (w_index w') /\ e_block e = b_id b /\ e_model e = id.
Proof.
  intros H. assert (F := keeps_block_map _ fuel strip_inv_cb id b _ _ _ H).
  unfold block_map in H.
  apply bind_ok in H as (gs & w1 & H1 & H).
  destruct (rev gs) as [|global _]; [discriminate|].
  apply bind_ok in H as (w3 & w4 & H3 & H). injection H3 as <- <-.
  injection H as <-. cbn [w_index set_w_index].
  rewrite (mmap_local_to_global_index _ _ _ _ _ _ _ H1).
  split; [split; [exact F|intros e He; right; exact He]|].
  eexists. split; [left; reflexivity|]. split; reflexivity.
Qed.

Lemma miter_block_map fuel id bs w w' :
  miter (block_map fuel id) bs w = Ok (tt, w') ->
  grows w w' /\ forall b, In b bs ->
    exists e, In e (w_index w') /\ e_block e = b_id b /\ e_model e = id.
Proof.
  revert w; induction bs as [|b bs IH]; intros w H; cbn [miter] in H.
  - injection H as <-. split; [apply grows_refl|intros b []].
  - apply bind_ok in H as ([] & w1 & H1 & H2).
    destruct (IH _ H2) as [Hg Hall]. destruct (block_map_ok _ _ _ _ _ H1) as [Hg1 (e & He & E)].
    split; [exact (grows_trans _ _ _ Hg1 Hg)|].
    intros b' [<-|Hb]; [|exact (Hall _ Hb)].
    exists e. split; [apply (proj2 Hg), He|exact E].
Qed.

Lemma model_map_ok fuel id w w' :
  model_map fuel id w = Ok (tt, w') -> grows w w' /\ mapped w' id.
Proof.
  intros H. unfold model_map in H.
  apply bind_ok in H as (m & w0 & H0 & H). apply get_model_ok in H0 as [Hf ->].
  destruct (miter_block_map _ _ _ _ _ H) as [Hg Hall]. split; [exact Hg|].
  intros mk b Hk Hb.
  destruct (frame_find_back _ _ _ _ _ (proj1 Hg) Hk) as (m0 & Hm0 & E).
  rewrite Hf in Hm0. injection Hm0 as <-. injection E as _ Eb.
  rewrite Eb in Hb. exact (Hall b Hb).
Qed.

Lemma map_rec_grows fuel n : forall id w w',
  map_with_children_rec fuel n id w = Ok (tt, w') -> grows w w'.
Proof.
  induction n as [|n IH]; intros id w w' H; cbn [map_with_children_rec] in H; [discriminate|].
  apply bind_ok in H as ([] & w1 & H1 & H).
  apply bind_ok in H as (m & w2 & H2 & H). apply get_model_ok in H2 as [_ ->].
  apply (grows_trans _ _ _ (proj1 (model_map_ok _ _ _ _ H1))).
  exact (miter_rel _ grows grows_refl grows_trans IH _ _ _ H).
Qed.

Lemma map_with_children_reaches fuel n id w w' k :
  map_with_children_rec fuel n id w = Ok (tt, w') -> in_subtree (w_models w) id k ->
  mapped w' k.
Proof.
  apply (rec_reaches (map_with_children_rec fuel) grows (fun w k => mapped w k)).
  - exact grows_refl.
  - exact grows_trans.
  - exact grows_children.
  - intros; eapply mapped_grows; eauto.
  - exact (map_rec_grows fuel).
  - intros n' id' wa wb H. cbn [map_with_children_rec] in H.
    apply bind_ok in H as ([] & w1 & H1 & H).
    apply bind_ok in H as (m & w2 & H2 & H). apply get_model_ok in H2 as [Hf ->].
    destruct (model_map_ok _ _ _ _ H1) as [Hs Hu].
    exists w1, m. split; [exact Hs|]. split; [exact Hu|]. split; [exact Hf|exact H].
  - intros id' wa wb H. discriminate.
Qed.

(** *** Marking global poses dirty *)

Definition dgrows (w w' : world) : Prop :=
  field_frame m_children w w' /\ forall k, gpose_dirty_in w k -> gpose_dirty_in w' k.

Lemma dgrows_refl w : dgrows w w.
Proof. split; [apply field_frame_refl|tauto]. Qed.

Lemma dgrows_trans a b c : dgrows a b -> dgrows b c -> dgrows a c.
Proof. intros [F1 I1] [F2 I2]. split; [exact (field_frame_trans _ _ _ _ F1 F2)|auto]. Qed.

Lemma dirty_put_ok id w w' :
  (m <- get_model id ;; put_model id (set_m_dirty m true)) w = Ok (tt, w') ->
  exists m, find_model (w_models w) id = Some m /\
    find_model (w_models w') id = Some (set_m_dirty m true) /\ dgrows w w'.
Proof.
  intros H. apply bind_ok in H as (m & w0 & H0 & H). apply get_model_ok in H0 as [Hf ->].
  unfold put_model in H. injection H as <-.
  exists m. split; [exact Hf|]. cbn [w_models set_w_models].
  split; [rewrite find_replace_same, Hf; reflexivity|]. split.
  - intros k. cbn [w_models set_w_models]. rewrite find_replace.
    destruct (Nat.eqb k id) eqn:E; [|reflexivity].
    apply Nat.eqb_eq in E; subst k. rewrite Hf. reflexivity.
  - intros k (mk & Hk & Hd). unfold gpose_dirty_in. cbn [w_models set_w_models]. rewrite find_replace.
    destruct (Nat.eqb k id) eqn:E.
    + apply Nat.eqb_eq in E; subst k. rewrite Hf. eexists. split; reflexivity.
    + exists mk. split; [exact Hk|exact Hd].
Qed.

Lemma dirty_rec_dgrows n : forall id w w',
  gpose_dirty_tree_rec n id w = Ok (tt, w') -> dgrows w w'.
Proof.
  induction n as [|n IH]; intros id w w' H; cbn [gpose_dirty_tree_rec] in H; [discriminate|].
  apply bind_ok in H as (m & w0 & H0 & H). apply get_model_ok in H0 as [Hf ->].
  apply bind_ok in H as ([] & w1 & H1 & H).
  destruct (dirty_put_ok id w w1) as (m' & _ & _ & Hd).
  { unfold bind, get_model. rewrite Hf. exact H1. }
  apply (dgrows_trans _ _ _ Hd).
  exact (miter_rel _ dgrows dgrows_refl dgrows_trans IH _ _ _ H).
Qed.

Lemma gpose_dirty_tree_reaches n id w w' k :
  gpose_dirty_tree_rec n id w = Ok (tt, w') -> in_subtree (w_models w) id k ->
  gpose_dirty_in w' k.
Proof.
  apply (rec_reaches gpose_dirty_tree_rec dgrows (fun w k => gpose_dirty_in w k)).
  - exact dgrows_refl.
  - exact dgrows_trans.
  - intros a b [F _]; exact F.
  - intros a b k' [_ I] Hk; exact (I _ Hk).
  - exact dirty_rec_dgrows.
  - intros n' id' wa wb H. cbn [gpose_dirty_tree_rec] in H.
    apply bind_ok in H as (m & w0 & H0 & H). apply get_model_ok in H0 as [Hf ->].
    apply bind_ok in H as ([] & w1 & H1 & H).
    destruct (dirty_put_ok id' wa w1) as (m' & Hf' & Hf1 & Hd).
    { unfold bind, get_model. rewrite Hf. exact H1. }
    rewrite Hf in Hf'. injection Hf' as <-.
    exists w1, (set_m_dirty m true). split; [exact Hd|].
    split; [exists (set_m_dirty m true); split; [exact Hf1|reflexivity]|].
    split; [exact Hf1|exact H].
  - intros id' wa wb H. discriminate.
Qed.

Lemma pose_eqb_refl a : pose_eqb a a = true.
Proof.
  unfold pose_eqb.
  destruct (Req_dec_T (px a) (px a)), (Req_dec_T (py a) (py a)),
    (Req_dec_T (pz a) (pz a)), (Req_dec_T (pa a) (pa a)); congruence.
Qed.

Lemma put_pose_children w id m1 q :
  find_model (w_models w) id = Some m1 ->
  field_frame m_children w (set_w_models w (replace_model (w_models w) id (set_m_pose m1 q))).
Proof.
  intros Hf k. cbn [w_models set_w_models]. rewrite find_replace.
  destruct (Nat.eqb k id) eqn:E; [|reflexivity].
  apply Nat.eqb_eq in E; subst k. rewrite Hf. reflexivity.
Qed.

(** C4.  [SetPose(p)]: when p equals the current pose the call only
    fires the pose callback (no unmap, remap or state change).  When p
    differs, a successful call unmaps the model and its descendants (no
    index entry of a block of any node of the subtree remains), stores p
    with its heading normalised into (−π, π], runs [NeedRedraw], sets
    [gpose_dirty] on every node of the subtree, remaps the model and its
    descendants (every block of every node has an index entry again), and
    finally fires the pose callback. *)
Theorem SetPose_spec :
  (forall fuel id p w m,
     find_model (w_models w) id = Some m -> pose_eqb (m_pose m) p = true ->
     SetPose fuel id p w = Ok (tt, set_w_log w (w_log w ++ [EvCallback id CbPose]))) /\
  (forall fuel id p w w' m,
     find_model (w_models w) id = Some m -> pose_eqb (m_pose m) p = false ->
     SetPose fuel id p w = Ok (tt, w') ->
     exists w1 m1 w2 w3 w4,
       unmap_with_children fuel id w = Ok (tt, w1) /\
       (forall k, in_subtree (w_models w) id k -> unmapped w1 k) /\
       find_model (w_models w1) id = Some m1 /\
       need_redraw_rec fuel id
         (set_w_models w1 (replace_model (w_models w1) id
            (set_m_pose m1 (mk_pose (px p) (py p) (pz p) (normalize (pa p)))))) = Ok (tt, w2) /\
       gpose_dirty_tree fuel id w2 = Ok (tt, w3) /\
       (forall k, in_subtree (w_models w) id k -> gpose_dirty_in w3 k) /\
       map_with_children fuel id w3 = Ok (tt, w4) /\
       (forall k, in_subtree (w_models w) id k -> mapped w4 k) /\
       w' = set_w_log w4 (w_log w4 ++ [EvCallback id CbPose]) /\
       (exists m', find_model (w_models w') id = Some m' /\
          m_pose m' = mk_pose (px p) (py p) (pz p) (normalize (pa p))) /\
       - PI < normalize (pa p) <= PI).
Proof.
  split.
  - intros fuel id p w m Hf Heq. unfold SetPose, bind, get_model.
    rewrite Hf, Heq. reflexivity.
  - intros fuel id p w w' m Hf Hne H.
    assert (Hpose := SetPose_pose _ _ _ _ _ H).
    unfold SetPose in H.
    apply bind_ok in H as (m0 & w0 & H0 & H). apply get_model_ok in H0 as [Hf0 ->].
    rewrite Hf in Hf0. injection Hf0 as <-.
    apply bind_ok in H as ([] & w5 & H5 & Hcb). rewrite Hne in H5.
    apply bind_ok in H5 as ([] & w1 & H1 & H5). cbv zeta in H5.
    apply bind_ok in H5 as (m1 & w2 & H2 & H5). apply get_model_ok in H2 as [Hf1 ->].
    apply bind_ok in H5 as ([] & w2' & H3 & H5).
    unfold put_model in H3. injection H3 as <-. cbn [px py pz pa] in H5.
    rewrite normalize_idem in H5.
    apply bind_ok in H5 as ([] & w2 & Hr & H5).
    apply bind_ok in H5 as ([] & w3 & Hd & Hm).
    unfold call_callbacks in Hcb. injection Hcb as <-.
    assert (F1 : field_frame m_children w w1)
      by exact (shrinks_children _ _ (unmap_rec_shrinks _ _ _ _ H1)).
    assert (F2 : field_frame m_children w w2).
    { refine (field_frame_trans _ _ _ _ F1 (field_frame_trans _ _ _ _ (put_pose_children _ _ _ _ Hf1) _)).
      exact (keeps_need_redraw_rec m_children fuel id (fun x => eq_refl) _ _ _ Hr). }
    assert (F3 : field_frame m_children w w3)
      by exact (field_frame_trans _ _ _ _ F2 (proj1 (dirty_rec_dgrows _ _ _ _ Hd))).
    exists w1, m1, w2, w3, w5.
    split; [exact H1|]. split.
    { intros k Hk. exact (unmap_with_children_reaches _ _ _ _ _ H1 Hk). }
    split; [exact Hf1|]. split; [exact Hr|]. split; [exact Hd|]. split.
    { intros k Hk. exact (gpose_dirty_tree_reaches _ _ _ _ _ Hd (in_subtree_frame _ _ _ _ F2 Hk)). }
    split; [exact Hm|]. split.
    { intros k Hk. exact (map_with_children_reaches _ _ _ _ _ _ Hm (in_subtree_frame _ _ _ _ F3 Hk)). }
    split; [reflexivity|]. split; [|apply normalize_range].
    destruct Hpose as (ma & m' & Ha & Hm' & Hp). rewrite Hf in Ha. injection Ha as <-.
    rewrite Hne, normalize_idem in Hp. exists m'. split; [exact Hm'|exact Hp].
Qed.

(** SetPose moves the parent of [pose_tree_world] to (1, 0, 0, 0). *)
Lemma pose_tree_run :
  exists w', SetPose 3 0 (mk_pose 1 0 0 0) pose_tree_world = Ok (tt, w').
Proof. geval. run_pose_eqb. geval. eexists. reflexivity. Qed.

Lemma SetPose_spec_witness :
  (exists m, find_model (w_models pose_tree_world) 0 = Some m /\
     pose_eqb (m_pose m) zero_pose = true /\
     SetPose 3 0 zero_pose pose_tree_world =
       Ok (tt, set_w_log pose_tree_world (w_log pose_tree_world ++ [EvCallback 0 CbPose]))) /\
  (exists m w', find_model (w_models pose_tree_world) 0 = Some m /\
     pose_eqb (m_pose m) (mk_pose 1 0 0 0) = false /\
     SetPose 3 0 (mk_pose 1 0 0 0) pose_tree_world = Ok (tt, w') /\
     exists w1 m1 w2 w3 w4,
       unmap_with_children 3 0 pose_tree_world = Ok (tt, w1) /\
       (forall k, in_subtree (w_models pose_tree_world) 0 k -> unmapped w1 k) /\
       find_model (w_models w1) 0 = Some m1 /\
       need_redraw_rec 3 0
         (set_w_models w1 (replace_model (w_models w1) 0
            (set_m_pose m1 (mk_pose 1 0 0 (normalize 0))))) = Ok (tt, w2) /\
       gpose_dirty_tree 3 0 w2 = Ok (tt, w3) /\
       (forall k, in_subtree (w_models pose_tree_world) 0 k -> gpose_dirty_in w3 k) /\
       map_with_children 3 0 w3 = Ok (tt, w4) /\
       (forall k, in_subtree (w_models pose_tree_world) 0 k -> mapped w4 k) /\
       w' = set_w_log w4 (w_log w4 ++ [EvCallback 0 CbPose]) /\
       (exists m', find_model (w_models w') 0 = Some m' /\
          m_pose m' = mk_pose 1 0 0 (normalize 0)) /\
       - PI < normalize 0 <= PI).
Proof.
  split.
  - eexists. split; [reflexivity|]. split; [apply pose_eqb_refl|].
    apply (proj1 SetPose_spec 3%nat 0%nat zero_pose pose_tree_world _ eq_refl).
    apply pose_eqb_refl.
  - destruct pose_tree_run as (w' & Hrun).
    assert (Hne : pose_eqb zero_pose (mk_pose 1 0 0 0) = false).
    { unfold pose_eqb. cbn [px zero_pose]. destruct (Req_dec_T 0 1); [lra|reflexivity]. }
    eexists; exists w'. split; [reflexivity|]. split; [exact Hne|]. split; [exact Hrun|].
    exact (proj2 SetPose_spec 3%nat 0%nat (mk_pose 1 0 0 0) pose_tree_world w' _ eq_refl Hne Hrun).
Defined.

(** ** TestCollision *)

Ltac hit_at t i u :=
  exists t, i, u; split; [lra|]; split; [cbn; lia|]; split; [lra|];
  cbv zeta; cbn [e_pts length nth Nat.add Nat.sub Nat.modulo Nat.divmod fst snd ptx pty px py pz pa];
  rsimpl; rewrite ?ray_cos, ?ray_sin; split; lra.

Ltac decide_ray :=
  match goal with |- context [excluded_middle_informative ?P] =>
    first
      [ destruct (excluded_middle_informative P) as [_|Hn];
        [| exfalso; apply Hn; first [hit_at (2/5) 3%nat (1/2) | hit_at (2/5) 1%nat (1/2)]]
      | destruct (excluded_middle_informative P) as [Hm|_];
        [exfalso; revert Hm;
         first [ refute_ray 0 1 (3/10) | refute_ray (-1) 0 (-1/5)
               | refute_ray 0 (-1) 0 | refute_ray 1 0 (-1/5) ] |] ];
    geval
  end.

(** The run of TestCollision on [c2_world]. *)
Lemma c2_run : exists w', TestCollision 1 0 zero_pose c2_world = Ok (Some 2%nat, w').
Proof.
  geval.
  repeat (first [ decide_ray
                | match goal with |- context [Rle_dec ?a ?b] =>
                    destruct (Rle_dec a b) as [_|Hn]; [|exfalso; apply Hn; rsimpl; lra]; geval
                  end ]).
  eexists. reflexivity.
Qed.

Ltac run_c2 :=
  repeat (first [ decide_ray
                | match goal with |- context [Rle_dec ?a ?b] =>
                    destruct (Rle_dec a b) as [_|Hn]; [|exfalso; apply Hn; rsimpl; lra]; geval
                  end ]).

Lemma test_edge_acc fuel id pd pts acc p w r' w' :
  test_edge fuel id pd pts acc p w = Ok (r', w') ->
  exists r, test_edge fuel id pd pts None p w = Ok (r, w') /\ r' = last_hit acc r.
Proof.
  intros H. unfold test_edge in *. cbv zeta in *.
  apply bind_ok in H as (o & w1 & H1 & H). unfold bind at 1. rewrite H1.
  unfold get_world, bind, ret in H |- *.
  destruct (raytrace w1 o _ collision_match id true) as [e|];
    injection H as <- <-; eexists; split; reflexivity.
Qed.

Lemma mmap_map {A B C} (f : B -> M C) (g : A -> B) l :
  mmap f (map g l) = mmap (fun x => f (g x)) l.
Proof. induction l as [|x l IH]; cbn [mmap map]; [reflexivity|]. rewrite IH. reflexivity. Qed.

Lemma mmap_app {A B} (f : A -> M B) l1 l2 w r1 w1 r2 w2 :
  mmap f l1 w = Ok (r1, w1) -> mmap f l2 w1 = Ok (r2, w2) ->
  mmap f (l1 ++ l2) w = Ok (r1 ++ r2, w2).
Proof.
  revert w r1; induction l1 as [|x l1 IH]; intros w r1 H1 H2; cbn [mmap app] in *.
  - injection H1 as <- <-. rewrite H2. reflexivity.
  - apply bind_ok in H1 as (y & wa & Ha & H1).
    apply bind_ok in H1 as (ys & wb & Hb & H1). injection H1 as <- <-.
    unfold bind at 1. rewrite Ha. unfold bind at 1. rewrite (IH _ _ Hb H2). reflexivity.
Qed.

Lemma mfold_edges fuel id pd pts ps : forall acc w h w',
  mfold (test_edge fuel id pd pts) acc ps w = Ok (h, w') ->
  exists rs, mmap (test_edge fuel id pd pts None) ps w = Ok (rs, w') /\
             h = fold_left last_hit rs acc.
Proof.
  induction ps as [|p ps IH]; intros acc w h w' H; cbn [mfold] in H.
  - injection H as <- <-. exists []. split; reflexivity.
  - apply bind_ok in H as (a & w1 & H1 & H).
    destruct (test_edge_acc _ _ _ _ _ _ _ _ _ H1) as (r & Hr & ->).
    destruct (IH _ _ _ _ H) as (rs & Hrs & ->).
    exists (r :: rs). split; [|reflexivity].
    cbn [mmap]. unfold bind at 1. rewrite Hr. unfold bind at 1. rewrite Hrs. reflexivity.
Qed.

Lemma mfold_blocks fuel id pd bs : forall acc w h w',
  mfold (test_block fuel id pd) acc bs w = Ok (h, w') ->
  exists rs, mmap (fun bp => test_edge fuel id pd (b_pts (fst bp)) None (snd bp))
                  (block_edges bs) w = Ok (rs, w') /\
             h = fold_left last_hit rs acc.
Proof.
  induction bs as [|b bs IH]; intros acc w h w' H; cbn [mfold] in H.
  - injection H as <- <-. exists []. split; reflexivity.
  - apply bind_ok in H as (a & w1 & H1 & H).
    destruct (mfold_edges _ _ _ _ _ _ _ _ _ H1) as (rs1 & Hr1 & ->).
    destruct (IH _ _ _ _ H) as (rs2 & Hr2 & ->).
    exists (rs1 ++ rs2). split; [|symmetry; apply fold_left_app].
    unfold block_edges. cbn [flat_map]. apply (mmap_app _ _ _ _ _ w1); [|exact Hr2].
    rewrite mmap_map. exact Hr1.
Qed.

Lemma last_hit_some rs : forall acc k,
  fold_left last_hit rs acc = Some k ->
  (exists pre post, rs = pre ++ Some k :: post /\ Forall (fun r => r = None) post) \/
  (acc = Some k /\ Forall (fun r => r = None) rs).
Proof.
  induction rs as [|x rs IH] using rev_ind; intros acc k H.
  - right. split; [exact H|constructor].
  - rewrite fold_left_app in H. cbn [fold_left] in H. destruct x as [k'|].
    + injection H as ->. left. exists rs, []. split; [reflexivity|constructor].
    + destruct (IH _ _ H) as [(pre & post & -> & Hp)|[Ha Hp]].
      * left. exists pre, (post ++ [None]). split; [rewrite <- app_assoc; reflexivity|].
        apply Forall_app; split; [exact Hp|constructor; [reflexivity|constructor]].
      * right. split; [exact Ha|]. apply Forall_app; split; [exact Hp|constructor; [reflexivity|constructor]].
Qed.

Lemma last_hit_none rs : fold_left last_hit rs None = None -> Forall (fun r => r = None) rs.
Proof.
  intros H. destruct (fold_left last_hit rs None) as [k|] eqn:E; [discriminate|].
  clear H. induction rs as [|x rs IH] using rev_ind; [constructor|].
  rewrite fold_left_app in E. cbn [fold_left] in E. destruct x as [k|]; [discriminate|].
  apply Forall_app; split; [exact (IH E)|constructor; [reflexivity|constructor]].
Qed.

(** C2, as the code has it.  [TestCollision(posedelta)] of a model with
    no blocks reports no collision and changes nothing.  Otherwise it
    unmaps the mover (none of its blocks is left in the index), raytraces
    every edge of every block, in block then edge order, at
    posedelta ⊕ edgepose with [collision_match] (the block's model is not
    the mover and is an obstacle), reports the model of the LAST edge
    whose raytrace found a block, or none, and remaps the mover (every
    block has an index entry again).  In [c2_world] the reported model is
    2. *)
Theorem TestCollision_last_hit :
  (forall fuel id pd w m,
     find_model (w_models w) id = Some m -> m_blocks m = [] ->
     TestCollision fuel id pd w = Ok (None, w)) /\
  (forall fuel id pd w m h w',
     find_model (w_models w) id = Some m -> m_blocks m <> [] ->
     TestCollision fuel id pd w = Ok (h, w') ->
     exists w1 rs w2,
       model_unmap id w = Ok (tt, w1) /\ unmapped w1 id /\
       mmap (fun bp => test_edge fuel id pd (b_pts (fst bp)) None (snd bp))
            (block_edges (m_blocks m)) w1 = Ok (rs, w2) /\
       h = fold_left last_hit rs None /\
       model_map fuel id w2 = Ok (tt, w') /\ mapped w' id) /\
  (forall rs k, fold_left last_hit rs None = Some k ->
     exists pre post, rs = pre ++ Some k :: post /\ Forall (fun r => r = None) post) /\
  (forall rs, fold_left last_hit rs None = None -> Forall (fun r => r = None) rs) /\
  (exists w', TestCollision 1 0 zero_pose c2_world = Ok (Some 2%nat, w')).
Proof.
  split; [|split; [|split; [|split]]].
  - intros fuel id pd w m Hf Hb. unfold TestCollision, bind, get_model.
    rewrite Hf, Hb. reflexivity.
  - intros fuel id pd w m h w' Hf Hb H. unfold TestCollision in H.
    apply bind_ok in H as (m0 & w0 & H0 & H). apply get_model_ok in H0 as [Hf0 ->].
    rewrite Hf in Hf0. injection Hf0 as <-.
    destruct (m_blocks m) as [|b bs] eqn:Eb; [contradiction|].
    apply bind_ok in H as ([] & w1 & H1 & H).
    apply bind_ok in H as (h0 & w2 & H2 & H).
    apply bind_ok in H as ([] & w3 & H3 & H). injection H as <- <-.
    rewrite <- Eb in H2.
    destruct (mfold_blocks _ _ _ _ _ _ _ _ H2) as (rs & Hrs & ->).
    exists w1, rs, w2. split; [exact H1|]. split; [exact (proj2 (model_unmap_ok _ _ _ H1))|].
    split; [rewrite Eb in Hrs; exact Hrs|]. split; [reflexivity|]. split; [exact H3|].
    exact (proj2 (model_map_ok _ _ _ _ H3)).
  - intros rs k H. destruct (last_hit_some _ _ _ H) as [Hs|[Ha _]]; [exact Hs|discriminate].
  - exact last_hit_none.
  - exact c2_run.
Qed.

(** C2, counterexample.  In [c2_world] the first edge of the mover's
    block already hits obstacle 1, yet TestCollision reports obstacle 2,
    hit by a later edge: the reported collision is the last hit, not the
    first. *)
Lemma TestCollision_first_hit_fails :
  (exists w', TestCollision 1 0 zero_pose c2_world = Ok (Some 2%nat, w')) /\
  (exists w1, model_unmap 0 c2_world = Ok (tt, w1) /\
     exists w2, test_edge 1 0 zero_pose (b_pts (unit_square 10)) None 0 w1 = Ok (Some 1%nat, w2)).
Proof.
  split; [exact c2_run|].
  eexists. split; [reflexivity|]. geval. run_c2. eexists. reflexivity.
Qed.

Lemma TestCollision_last_hit_witness :
  (exists m, find_model (w_models sub_world) 0 = Some m /\ m_blocks m = [] /\
     TestCollision 1 0 zero_pose sub_world = Ok (None, sub_world)) /\
  (exists m w', find_model (w_models c2_world) 0 = Some m /\ m_blocks m <> [] /\
     TestCollision 1 0 zero_pose c2_world = Ok (Some 2%nat, w') /\
     exists w1 rs w2,
       model_unmap 0 c2_world = Ok (tt, w1) /\ unmapped w1 0 /\
       mmap (fun bp => test_edge 1 0 zero_pose (b_pts (fst bp)) None (snd bp))
            (block_edges (m_blocks m)) w1 = Ok (rs, w2) /\
       Some 2%nat = fold_left last_hit rs None /\
       model_map 1 0 w2 = Ok (tt, w') /\ mapped w' 0).
Proof.
  split.
  - eexists. split; [reflexivity|]. split; [reflexivity|].
    exact (proj1 TestCollision_last_hit 1%nat 0%nat zero_pose sub_world _ eq_refl eq_refl).
  - destruct c2_run as (w' & Hrun).
    eexists; exists w'. split; [reflexivity|]. split; [discriminate|]. split; [exact Hrun|].
    exact (proj1 (proj2 TestCollision_last_hit) 1%nat 0%nat zero_pose c2_world _ _ w'
             eq_refl ltac:(discriminate) Hrun).
Defined.

(** * Further operations of model.cc *)

Lemma children_any_true g cs :
  children_any g cs = Ok true -> exists c, In c cs /\ g c = Ok true.
Proof.
  induction cs as [|c cs IH]; cbn [children_any]; [discriminate|].
  destruct (g c) as [[|]|e] eqn:E; intros H.
  - exists c. split; [left; reflexivity|exact E].
  - destruct (IH H) as (c' & Hc & Hg). exists c'. split; [right; exact Hc|exact Hg].
  - discriminate.
Qed.

Lemma children_any_false g cs :
  children_any g cs = Ok false -> forall c, In c cs -> g c = Ok false.
Proof.
  induction cs as [|c cs IH]; cbn [children_any]; [intros _ c []|].
  destruct (g c) as [[|]|e] eqn:E; intros H; try discriminate.
  intros c' [<-|Hc]; [exact E|exact (IH H c' Hc)].
Qed.

Lemma is_descendent_in_subtree (fuel : nat) : forall ms a t b,
  is_descendent fuel ms a t = Ok b -> (b = true <-> in_subtree ms a t).
Proof.
  induction fuel as [|f IH]; intros ms a t b H; cbn [is_descendent] in H; [discriminate|].
  destruct (Nat.eqb a t) eqn:Eat.
  - apply Nat.eqb_eq in Eat; subst t. injection H as <-.
    split; [intros _; apply st_here|reflexivity].
  - apply Nat.eqb_neq in Eat.
    destruct (find_model ms a) as [m|] eqn:Hf; [|discriminate].
    destruct b.
    + split; [intros _|reflexivity].
      destruct (children_any_true _ _ H) as (c & Hc & Hg).
      apply (st_down ms a m c t Hf Hc). exact (proj1 (IH _ _ _ _ Hg) eq_refl).
    + split; [discriminate|]. intros Hs.
      inversion Hs as [a'|a' m' c k Hf' Hc Hs' E1 E2]; subst; [congruence|].
      rewrite Hf in Hf'. injection Hf' as <-.
      assert (Hg := children_any_false _ _ H c Hc).
      exact (proj2 (IH _ _ _ _ Hg) Hs').
Qed.

(** [IsDescendent] answers, whenever it returns, whether [t] is in the
    subtree of [this]. *)
Theorem is_descendent_subtree (fuel : nat) ms a t b :
  is_descendent fuel ms a t = Ok b -> (b = true <-> in_subtree ms a t).
Proof. apply is_descendent_in_subtree. Qed.

Lemma last_default_irrelevant (l : list nat) (x y : nat) :
  l <> [] -> last l x = last l y.
Proof.
  induction l as [|a l IH]; [congruence|intros _].
  destruct l as [|b l]; [reflexivity|].
  cbn [last]. apply IH. discriminate.
Qed.

Lemma ancestor_chain_nonempty ms a l : ancestor_chain ms a l -> l <> [].
Proof. intros H; inversion H; discriminate. Qed.

Lemma find_root_chain (fuel : nat) : forall ms a r,
  find_root fuel ms a = Ok r -> exists l, ancestor_chain ms a l /\ last l a = r.
Proof.
  induction fuel as [|f IH]; intros ms a r H; cbn [find_root] in H; [discriminate|].
  destruct (find_model ms a) as [m|] eqn:Hf; [|discriminate].
  destruct (m_parent m) as [p|] eqn:Hp.
  - destruct (IH _ _ _ H) as (l & Hl & Hr).
    exists (a :: l). split; [exact (chain_step ms a m p l Hf Hp Hl)|].
    assert (Hne := ancestor_chain_nonempty _ _ _ Hl).
    destruct l as [|x l]; [congruence|].
    change (last (x :: l) a = r). rewrite <- Hr.
    apply last_default_irrelevant. exact Hne.
  - injection H as <-. exists [a]. split; [exact (chain_root ms a m Hf Hp)|reflexivity].
Qed.

(** [IsRelated] answers true for the model itself; otherwise, whenever
    it returns, it answers whether [mod2] is in the subtree of the root
    at the end of [this]'s ancestor chain. *)
Theorem is_related_root (fuel : nat) (ms : list (nat * model)) (a b : nat) (r : bool) :
  is_related fuel ms a b = Ok r ->
  (a = b /\ r = true) \/
  (a <> b /\ exists l, ancestor_chain ms a l /\ (r = true <-> in_subtree ms (last l a) b)).
Proof.
  unfold is_related. intros H.
  destruct (Nat.eqb a b) eqn:E.
  - left. apply Nat.eqb_eq in E. injection H as <-. split; [exact E|reflexivity].
  - right. apply Nat.eqb_neq in E. split; [exact E|].
    destruct (find_root fuel ms a) as [t|e] eqn:Hr; [|discriminate].
    destruct (find_root_chain _ _ _ _ Hr) as (l & Hl & Hlast).
    exists l. split; [exact Hl|]. rewrite Hlast. exact (is_descendent_in_subtree _ _ _ _ _ H).
Qed.

Lemma tree_children_ok g cs (P : nat -> nat -> Prop) :
  (forall c arr arr' k, In c cs -> g c arr = Ok (arr', k) ->
     exists ad, arr' = arr ++ ad /\ k = Z.of_nat (length ad) /\
                (forall x, In x ad <-> P c x)) ->
  forall arr a0 arr' n, tree_children g cs arr a0 = Ok (arr', n) ->
  exists ad, arr' = arr ++ ad /\ n = (a0 + Z.of_nat (length ad))%Z /\
             (forall x, In x ad <-> exists c, In c cs /\ P c x).
Proof.
  intros Hg. induction cs as [|c cs IH]; intros arr a0 arr' n H; cbn [tree_children] in H.
  - injection H as <- <-. exists []. rewrite app_nil_r. split; [reflexivity|].
    split; [cbn; lia|]. intros x; split; [intros []|intros (c & [] & _)].
  - destruct (g c arr) as [[arr1 k]|e] eqn:E; [|discriminate].
    destruct (Hg c arr arr1 k (or_introl eq_refl) E) as (ad1 & -> & -> & Hp1).
    destruct (IH (fun c' arr0 arr0' k0 Hc => Hg c' arr0 arr0' k0 (or_intror Hc)) _ _ _ _ H)
      as (ad2 & -> & -> & Hp2).
    exists (ad1 ++ ad2). split; [rewrite app_assoc; reflexivity|].
    split; [rewrite length_app, Nat2Z.inj_add; lia|].
    intros x. rewrite in_app_iff, Hp1, Hp2. split.
    + intros [Hx|(c' & Hc' & Hx)]; [exists c; split; [left; reflexivity|exact Hx]|].
      exists c'. split; [right; exact Hc'|exact Hx].
    + intros (c' & [<-|Hc'] & Hx); [left; exact Hx|right; exists c'; split; assumption].
Qed.

(** [TreeToPtrArray] appends to the array exactly the models of the
    subtree, the model itself first, and returns how many it appended. *)
Theorem tree_to_ptr_array_subtree (fuel : nat) : forall ms id arr arr' n,
  tree_to_ptr_array fuel ms id arr = Ok (arr', n) ->
  exists added, arr' = arr ++ added /\ n = Z.of_nat (length added) /\
    hd_error added = Some id /\ (forall k, In k added <-> in_subtree ms id k).
Proof.
  induction fuel as [|f IH]; intros ms id arr arr' n H; cbn [tree_to_ptr_array] in H;
    [discriminate|].
  destruct (find_model ms id) as [m|] eqn:Hf; [|discriminate].
  destruct (tree_children_ok (tree_to_ptr_array f ms) (m_children m) (in_subtree ms))
    with (2 := H) as (ad & -> & -> & Hp).
  { intros c a a' k _ Hc. destruct (IH _ _ _ _ _ Hc) as (ad & E1 & E2 & _ & E3).
    exists ad. split; [exact E1|]. split; [exact E2|exact E3]. }
  exists (id :: ad). split; [rewrite <- app_assoc; reflexivity|].
  split; [cbn [length]; lia|]. split; [reflexivity|].
  intros k. cbn [In]. rewrite Hp. split.
  - intros [<-|(c & Hc & Hs)]; [apply st_here|exact (st_down ms id m c k Hf Hc Hs)].
  - intros Hs. inversion Hs as [id'|id' m' c k' Hf' Hc Hs' E1 E2]; subst; [left; reflexivity|].
    right. rewrite Hf in Hf'. injection Hf' as <-. exists c. split; assumption.
Qed.

Lemma children_first_some g cs k :
  children_first g cs = Ok (Some k) -> exists c, In c cs /\ g c = Ok (Some k).
Proof.
  induction cs as [|c cs IH]; cbn [children_first]; [discriminate|].
  destruct (g c) as [[k'|]|e] eqn:E; intros H.
  - injection H as ->. exists c. split; [left; reflexivity|exact E].
  - destruct (IH H) as (c' & Hc & Hg). exists c'. split; [right; exact Hc|exact Hg].
  - discriminate.
Qed.

Lemma children_first_none g cs :
  children_first g cs = Ok None -> forall c, In c cs -> g c = Ok None.
Proof.
  induction cs as [|c cs IH]; cbn [children_first]; [intros _ c []|].
  destruct (g c) as [[k'|]|e] eqn:E; intros H; try discriminate.
  intros c' [<-|Hc]; [exact E|exact (IH H c' Hc)].
Qed.

(** [GetUnsubscribedModelOfType] returns only a model of the subtree that
    has the requested type and no subscriptions, and returns NULL only
    when the subtree has no such model. *)
Theorem get_unsubscribed_model_of_type_spec (model_type : nat -> Z) (fuel : nat) :
  forall ms id ty r,
  get_unsubscribed_model_of_type model_type fuel ms id ty = Ok r ->
  match r with
  | Some k => in_subtree ms id k /\ model_type k = ty /\
              exists mk, find_model ms k = Some mk /\ m_subs mk = 0%Z
  | None => forall k mk, in_subtree ms id k -> find_model ms k = Some mk ->
              model_type k = ty -> m_subs mk <> 0%Z
  end.
Proof.
  induction fuel as [|f IH]; intros ms id ty r H; cbn [get_unsubscribed_model_of_type] in H;
    [discriminate|].
  destruct (find_model ms id) as [m|] eqn:Hf; [|discriminate].
  destruct (Z.eqb (model_type id) ty && Z.eqb (m_subs m) 0)%bool eqn:Ehere.
  - injection H as <-. apply andb_prop in Ehere as [E1 E2].
    apply Z.eqb_eq in E1, E2. split; [apply st_here|]. split; [exact E1|].
    exists m. split; [exact Hf|exact E2].
  - destruct r as [k|].
    + destruct (children_first_some _ _ _ H) as (c & Hc & Hg).
      destruct (IH _ _ _ _ Hg) as (Hs & Ht & Hm).
      split; [exact (st_down ms id m c k Hf Hc Hs)|]. split; [exact Ht|exact Hm].
    + intros k mk Hs Hk.
      inversion Hs as [id'|id' m' c k' Hf' Hc Hs' E1 E2]; subst; intros Ht.
      * rewrite Hf in Hk. injection Hk as <-. intros Hz.
        rewrite Ht, Z.eqb_refl, Hz in Ehere. discriminate.
      * rewrite Hf in Hf'. injection Hf' as <-.
        exact (IH _ _ _ _ (children_first_none _ _ H c Hc) k mk Hs' Hk Ht).
Qed.

Lemma is_descendent_subtree_witness :
  is_descendent 3 (w_models pose_tree_world) 0 1 = Ok true /\
  (true = true <-> in_subtree (w_models pose_tree_world) 0 1).
Proof.
  split; [reflexivity|]. apply (is_descendent_subtree 3%nat _ 0%nat 1%nat true). reflexivity.
Defined.

Lemma is_related_root_witness :
  is_related 3 (w_models pose_tree_world) 1 0 = Ok true /\
  ((1%nat = 0%nat /\ true = true) \/
   (1%nat <> 0%nat /\ exists l, ancestor_chain (w_models pose_tree_world) 1 l /\
      (true = true <-> in_subtree (w_models pose_tree_world) (last l 1%nat) 0))).
Proof.
  split; [reflexivity|]. apply (is_related_root 3%nat _ 1%nat 0%nat true). reflexivity.
Defined.

Lemma tree_to_ptr_array_subtree_witness :
  tree_to_ptr_array 3 (w_models pose_tree_world) 0 [7%nat] = Ok ([7%nat; 0%nat; 1%nat], 2%Z) /\
  exists added, [7%nat; 0%nat; 1%nat] = [7%nat] ++ added /\ 2%Z = Z.of_nat (length added) /\
    hd_error added = Some 0%nat /\
    (forall k, In k added <-> in_subtree (w_models pose_tree_world) 0 k).
Proof.
  split; [reflexivity|]. apply (tree_to_ptr_array_subtree 3%nat). reflexivity.
Defined.

Lemma get_unsubscribed_model_of_type_spec_witness :
  let ty := fun k => if Nat.eqb k 1 then 5%Z else 0%Z in
  get_unsubscribed_model_of_type ty 3 (w_models pose_tree_world) 0 5 = Ok (Some 1%nat) /\
  (in_subtree (w_models pose_tree_world) 0 1 /\ ty 1%nat = 5%Z /\
   exists mk, find_model (w_models pose_tree_world) 1 = Some mk /\ m_subs mk = 0%Z).
Proof.
  intros ty. split; [reflexivity|].
  exact (get_unsubscribed_model_of_type_spec ty 3%nat (w_models pose_tree_world) 0%nat 5%Z (Some 1%nat) eq_refl).
Defined.

(** ** Flags *)

(** The flag list is a stack for [PushFlag] and a queue for [AddFlag]:
    [PopFlag] returns the flag pushed last, and a flag added at the
    back does not change which flag [PopFlag] returns next. *)
Theorem PopFlag_stack_queue :
  (forall fl f, PopFlag (PushFlag fl (Some f)) = (Some f, fl)) /\
  (forall fl f, PopFlag (AddFlag fl (Some f)) =
     match PopFlag fl with
     | (Some h, rest) => (Some h, AddFlag rest (Some f))
     | (None, _) => (Some f, [])
     end).
Proof.
  split.
  - intros fl f. cbn. rewrite Nat.eqb_refl. reflexivity.
  - intros [|h t] f; cbn; rewrite Nat.eqb_refl; reflexivity.
Qed.

Lemma count_occ_list_remove_other (l : list nat) (x y : nat) :
  y <> x -> count_occ Nat.eq_dec (list_remove x l) y = count_occ Nat.eq_dec l y.
Proof.
  intros Hne. induction l as [|z l IH]; cbn [list_remove]; [reflexivity|].
  destruct (Nat.eqb z x) eqn:E.
  - apply Nat.eqb_eq in E; subst z. cbn. destruct (Nat.eq_dec x y); [congruence|reflexivity].
  - cbn. destruct (Nat.eq_dec z y); rewrite IH; reflexivity.
Qed.

(** [RemoveFlag] removes one occurrence of the flag, not all of them,
    and leaves the other flags alone. *)
Theorem RemoveFlag_one (fl : list nat) (f g : nat) :
  count_occ Nat.eq_dec (RemoveFlag fl (Some f)) g =
  if Nat.eqb g f then Nat.pred (count_occ Nat.eq_dec fl g) else count_occ Nat.eq_dec fl g.
Proof.
  cbn [RemoveFlag]. destruct (Nat.eqb g f) eqn:E.
  - apply Nat.eqb_eq in E; subst g. apply count_occ_list_remove.
  - apply Nat.eqb_neq in E. apply count_occ_list_remove_other, E.
Qed.

(** ** SetParent *)

Lemma children_match_ext par par' ms :
  (forall k, par k = par' k) -> children_match par ms -> children_match par' ms.
Proof. intros E H p mp k Hf. rewrite <- E. exact (H p mp k Hf). Qed.

Lemma count_occ_app_one (l : list nat) (x y : nat) :
  count_occ Nat.eq_dec (l ++ [x]) y =
  (count_occ Nat.eq_dec l y + if Nat.eqb x y then 1 else 0)%nat.
Proof.
  rewrite count_occ_app. cbn. destruct (Nat.eq_dec x y) as [->|Hne].
  - rewrite Nat.eqb_refl. reflexivity.
  - apply Nat.eqb_neq in Hne. rewrite Hne. reflexivity.
Qed.

(** Removing [id] from the children of its parent [p]. *)
Lemma children_match_remove par ms id p pm :
  find_model ms p = Some pm -> par id = Some p -> children_match par ms ->
  children_match (upd_parent par id None)
    (replace_model ms p (set_m_children pm (list_remove id (m_children pm)))).
Proof.
  intros Hp Hid H q mq k Hq. unfold upd_parent.
  rewrite find_replace in Hq. destruct (Nat.eqb q p) eqn:Eq.
  - apply Nat.eqb_eq in Eq; subst q. rewrite Hp in Hq. injection Hq as <-. cbn [m_children set_m_children].
    destruct (Nat.eqb k id) eqn:Ek.
    + apply Nat.eqb_eq in Ek; subst k. rewrite count_occ_list_remove, (H p pm id Hp), Hid.
      cbn. rewrite Nat.eqb_refl. reflexivity.
    + apply Nat.eqb_neq in Ek. rewrite count_occ_list_remove_other by exact Ek. exact (H p pm k Hp).
  - rewrite (H q mq k Hq). destruct (Nat.eqb k id) eqn:Ek; [|reflexivity].
    apply Nat.eqb_eq in Ek; subst k. rewrite Hid. cbn. rewrite Nat.eqb_sym, Eq. reflexivity.
Qed.

(** Appending [id], which has no parent link, to the children of [np]. *)
Lemma children_match_append par ms id np nm :
  find_model ms np = Some nm -> par id = None -> children_match par ms ->
  children_match (upd_parent par id (Some np))
    (replace_model ms np (set_m_children nm (m_children nm ++ [id]))).
Proof.
  intros Hn Hid H q mq k Hq. unfold upd_parent.
  rewrite find_replace in Hq. destruct (Nat.eqb q np) eqn:Eq.
  - apply Nat.eqb_eq in Eq; subst q. rewrite Hn in Hq. injection Hq as <-. cbn [m_children set_m_children].
    rewrite count_occ_app_one, (H np nm k Hn).
    destruct (Nat.eqb k id) eqn:Ek.
    + apply Nat.eqb_eq in Ek; subst k. rewrite Hid, Nat.eqb_refl. cbn. rewrite Nat.eqb_refl. reflexivity.
    + rewrite Nat.eqb_sym, Ek. lia.
  - rewrite (H q mq k Hq). destruct (Nat.eqb k id) eqn:Ek; [|reflexivity].
    apply Nat.eqb_eq in Ek; subst k. rewrite Hid. cbn. rewrite Nat.eqb_sym, Eq. reflexivity.
Qed.

Lemma children_match_set_parent par ms id m1 v :
  find_model ms id = Some m1 -> children_match par ms ->
  children_match par (replace_model ms id (set_m_parent m1 v)).
Proof.
  intros Hf H q mq k Hq. rewrite find_replace in Hq. destruct (Nat.eqb q id) eqn:Eq.
  - apply Nat.eqb_eq in Eq; subst q. rewrite Hf in Hq. injection Hq as <-. exact (H id m1 k Hf).
  - exact (H q mq k Hq).
Qed.

Lemma parent_of_set_children ms p pm cs :
  find_model ms p = Some pm ->
  forall k, parent_of (replace_model ms p (set_m_children pm cs)) k = parent_of ms k.
Proof.
  intros Hp k. unfold parent_of. rewrite find_replace.
  destruct (Nat.eqb k p) eqn:E; [|reflexivity].
  apply Nat.eqb_eq in E; subst k. rewrite Hp. reflexivity.
Qed.

Lemma parent_of_set_parent ms id m1 v :
  find_model ms id = Some m1 ->
  forall k, parent_of (replace_model ms id (set_m_parent m1 v)) k = upd_parent (parent_of ms) id v k.
Proof.
  intros Hf k. unfold parent_of, upd_parent. rewrite find_replace.
  destruct (Nat.eqb k id) eqn:E; [|reflexivity].
  apply Nat.eqb_eq in E; subst k. rewrite Hf. reflexivity.
Qed.

(** [SetParent] keeps the parent and children links in agreement: it
    takes the model out of its old parent's children, appends it to the
    new parent's, links it to the new parent, leaves every other parent
    link alone and returns 0. *)
Theorem SetParent_links (w w' : world) (id : nat) (np : option nat) (r : Z) :
  tree_ok (w_models w) -> SetParent id np w = Ok (r, w') ->
  tree_ok (w_models w') /\ parent_of (w_models w') id = np /\
  (forall k, k <> id -> parent_of (w_models w') k = parent_of (w_models w) k) /\ r = 0%Z.
Proof.
  intros Ht H. unfold SetParent in H.
  apply bind_ok in H as (m & w0 & H0 & H). apply get_model_ok in H0 as [Hf ->].
  apply bind_ok in H as ([] & w1 & H1 & H).
  apply bind_ok in H as ([] & w2 & H2 & H).
  apply bind_ok in H as (m1 & w3 & H3 & H). apply get_model_ok in H3 as [Hf1 ->].
  apply bind_ok in H as ([] & w4 & H4 & H).
  apply bind_ok in H as ([] & w5 & H5 & H).
  injection H as <- <-. injection H5 as <-. injection H4 as <-.
  cbn [w_models set_w_models set_w_log].
  set (par1 := upd_parent (parent_of (w_models w)) id None).
  assert (Hpid : parent_of (w_models w) id = m_parent m) by (unfold parent_of; rewrite Hf; reflexivity).
  (* step 1: the old parent's children *)
  assert (S1 : children_match par1 (w_models w1) /\
               forall k, parent_of (w_models w1) k = parent_of (w_models w) k).
  { destruct (m_parent m) as [p|] eqn:Ep.
    - apply bind_ok in H1 as (pm & w5 & H5 & H1). apply get_model_ok in H5 as [Hp ->].
      injection H1 as <-. cbn [w_models set_w_models]. split.
      + apply children_match_remove; [exact Hp|rewrite Hpid; reflexivity|exact Ht].
      + apply parent_of_set_children, Hp.
    - injection H1 as <-. split; [|reflexivity].
      apply (children_match_ext (parent_of (w_models w))); [|exact Ht].
      intros k. unfold par1, upd_parent. destruct (Nat.eqb k id) eqn:E; [|reflexivity].
      apply Nat.eqb_eq in E; subst k. rewrite Hpid. reflexivity. }
  destruct S1 as [C1 P1].
  (* step 2: the new parent's children *)
  assert (S2 : children_match (upd_parent par1 id np) (w_models w2) /\
               forall k, parent_of (w_models w2) k = parent_of (w_models w) k).
  { destruct np as [q|].
    - apply bind_ok in H2 as (nm & w5 & H5 & H2). apply get_model_ok in H5 as [Hq ->].
      injection H2 as <-. cbn [w_models set_w_models]. split.
      + apply children_match_append; [exact Hq|unfold par1, upd_parent; rewrite Nat.eqb_refl; reflexivity|exact C1].
      + intros k. rewrite parent_of_set_children by exact Hq. apply P1.
    - injection H2 as <-. split; [|exact P1].
      apply (children_match_ext par1); [|exact C1].
      intros k. unfold par1, upd_parent. destruct (Nat.eqb k id); reflexivity. }
  destruct S2 as [C2 P2].
  assert (P3 := parent_of_set_parent _ _ _ np Hf1).
  split; [|split; [|split; [|reflexivity]]].
  - unfold tree_ok. apply (children_match_ext (upd_parent par1 id np)).
    + intros k. rewrite P3. unfold par1, upd_parent. destruct (Nat.eqb k id); [reflexivity|].
      symmetry. apply P2.
    + apply children_match_set_parent; [exact Hf1|exact C2].
  - rewrite P3. unfold upd_parent. rewrite Nat.eqb_refl. reflexivity.
  - intros k Hk. rewrite P3. unfold upd_parent. apply Nat.eqb_neq in Hk. rewrite Hk. apply P2.
Qed.

(** ** Subscriptions *)

Lemma list_remove_app_notin (l : list nat) (x : nat) :
  ~ In x l -> list_remove x (l ++ [x]) = l.
Proof.
  induction l as [|y l IH]; intros Hn; cbn; [rewrite Nat.eqb_refl; reflexivity|].
  destruct (Nat.eqb y x) eqn:E.
  - apply Nat.eqb_eq in E; subst y. exfalso. apply Hn. left. reflexivity.
  - rewrite IH; [reflexivity|]. intros Hi. apply Hn. right. exact Hi.
Qed.

(** A [Subscribe] followed by an [Unsubscribe] of a model with no
    subscriptions, not on the update list, puts everything back — the
    model store, the update list and the total count — and leaves in the
    log the initfunc call (if the model has one), the startup and the
    shutdown callbacks. *)
Theorem Subscribe_Unsubscribe_restore (w : world) (id : nat) (m : model) :
  find_model (w_models w) id = Some m -> m_subs m = 0%Z -> ~ In id (w_update_list w) ->
  exists w', (Subscribe id ;;; Unsubscribe id) w = Ok (tt, w') /\
    (forall k, find_model (w_models w') k = find_model (w_models w) k) /\
    w_update_list w' = w_update_list w /\ w_total_subs w' = w_total_subs w /\
    w_index w' = w_index w /\ w_velocity_list w' = w_velocity_list w /\
    w_log w' = w_log w ++ (if m_has_initfunc m then [EvInitfunc id] else []) ++
                 [EvCallback id CbStartup; EvCallback id CbShutdown].
Proof.
  intros Hf Hs Hn. unfold bind at 1. rewrite (Subscribe_run w id m Hf).
  cbv zeta. rewrite Hs. cbn [Z.add Z.eqb Pos.eqb].
  cbv beta iota.
  set (m1 := set_m_subs m (0 + 1)).
  match goal with |- context [Unsubscribe id ?W] =>
    assert (Hf1 : find_model (w_models W) id = Some m1)
      by (cbn; rewrite find_replace_same, Hf; reflexivity);
    rewrite (Unsubscribe_run W id m1 Hf1) end.
  cbv zeta. cbn [m_subs m1 set_m_subs Z.sub Z.add Z.opp Z.ltb Z.compare].
  eexists. split; [reflexivity|]. cbn.
  assert (Hm : set_m_subs m1 0 = m) by (destruct m; cbn in *; subst; reflexivity).
  split; [|split; [|split; [|split; [|split]]]].
  - intros k. rewrite Hm, !find_replace, Nat.eqb_refl, Hf.
    destruct (Nat.eqb k id) eqn:E; [|reflexivity].
    apply Nat.eqb_eq in E; subst k. rewrite Hf. reflexivity.
  - apply list_remove_app_notin, Hn.
  - lia.
  - reflexivity.
  - reflexivity.
  - rewrite <- !app_assoc. reflexivity.
Qed.

(** [Init] of a model with no subscriptions: with an [initfunc] it
    subscribes the model, which runs the initfunc and the startup
    callback and puts the model on the update list; without one it does
    nothing. *)
Theorem Init_startup (w : world) (id : nat) (m : model) :
  find_model (w_models w) id = Some m -> m_subs m = 0%Z ->
  exists w', Init id w = Ok (tt, w') /\
  if m_has_initfunc m then
    find_model (w_models w') id = Some (set_m_subs m 1) /\
    w_update_list w' = w_update_list w ++ [id] /\
    w_total_subs w' = (w_total_subs w + 1)%Z /\
    w_log w' = w_log w ++ [EvInitfunc id; EvCallback id CbStartup]
  else w' = w.
Proof.
  intros Hf Hs. unfold Init, bind at 1, get_model. rewrite Hf. cbv beta iota.
  destruct (m_has_initfunc m) eqn:Ei.
  - rewrite (Subscribe_run w id m Hf). cbv zeta. rewrite Hs. cbn [Z.add Z.eqb Pos.eqb].
    eexists. split; [reflexivity|]. rewrite Ei. cbn.
    rewrite find_replace_same, Hf. split; [reflexivity|]. split; [reflexivity|].
    split; reflexivity.
  - eexists. split; reflexivity.
Qed.

(** ** AddToPose *)

Lemma SetPose_log fuel id p w w' :
  SetPose fuel id p w = Ok (tt, w') -> exists l, w_log w' = l ++ [EvCallback id CbPose].
Proof.
  unfold SetPose. intros H.
  apply bind_ok in H as (m & w0 & _ & H). apply bind_ok in H as ([] & w1 & _ & H).
  injection H as <-. exists (w_log w1). reflexivity.
Qed.

(** A zero displacement leaves the world as it is, without even the
    pose callback that [SetPose] fires for an unchanged pose; any other
    displacement is added to the pose, the heading normalised, and the
    pose callback fired last. *)
Theorem AddToPose_effect fuel id dx dy dz da w w' :
  AddToPose fuel id dx dy dz da w = Ok (tt, w') ->
  (dx = 0 /\ dy = 0 /\ dz = 0 /\ da = 0 /\ w' = w) \/
  (~ (dx = 0 /\ dy = 0 /\ dz = 0 /\ da = 0) /\
   exists m m', find_model (w_models w) id = Some m /\ find_model (w_models w') id = Some m' /\
     m_pose m' = mk_pose (px (m_pose m) + dx) (py (m_pose m) + dy) (pz (m_pose m) + dz)
                         (normalize (pa (m_pose m) + da)) /\
     exists l, w_log w' = l ++ [EvCallback id CbPose]).
Proof.
  intros H. unfold AddToPose in H.
  assert (Hnz : ~ (dx = 0 /\ dy = 0 /\ dz = 0 /\ da = 0) ->
    (m <- get_model id ;;
     SetPose fuel id (mk_pose (px (m_pose m) + dx) (py (m_pose m) + dy)
                              (pz (m_pose m) + dz) (pa (m_pose m) + da))) w = Ok (tt, w') ->
    ~ (dx = 0 /\ dy = 0 /\ dz = 0 /\ da = 0) /\
    exists m m', find_model (w_models w) id = Some m /\ find_model (w_models w') id = Some m' /\
     m_pose m' = mk_pose (px (m_pose m) + dx) (py (m_pose m) + dy) (pz (m_pose m) + dz)
                         (normalize (pa (m_pose m) + da)) /\
     exists l, w_log w' = l ++ [EvCallback id CbPose]).
  { intros Hn H1. split; [exact Hn|].
    apply bind_ok in H1 as (m & w0 & H0 & H1). apply get_model_ok in H0 as [Hf ->].
    destruct (SetPose_pose _ _ _ _ _ H1) as (m0 & m' & Hf0 & Hf' & Hp).
    rewrite Hf in Hf0. injection Hf0 as <-.
    exists m, m'. split; [exact Hf|]. split; [exact Hf'|]. split.
    - rewrite Hp. destruct (pose_eqb _ _) eqn:E.
      + exfalso. apply pose_eqb_true in E. apply Hn.
        assert (E1 := f_equal px E). assert (E2 := f_equal py E).
        assert (E3 := f_equal pz E). assert (E4 := f_equal pa E). cbn in E1, E2, E3, E4.
        split; [lra|]. split; [lra|]. split; lra.
      + cbn [px py pz pa]. rewrite normalize_idem. reflexivity.
    - exact (SetPose_log _ _ _ _ _ H1). }
  destruct (Req_dec_T dx 0) as [Ex|Ex];
    [destruct (Req_dec_T dy 0) as [Ey|Ey];
      [destruct (Req_dec_T dz 0) as [Ez|Ez];
        [destruct (Req_dec_T da 0) as [Ea|Ea]|]|]|].
  - left. injection H as <-. repeat split; assumption.
  - right. apply Hnz; [intros (_ & _ & _ & E); contradiction|exact H].
  - right. apply Hnz; [intros (_ & _ & E & _); contradiction|exact H].
  - right. apply Hnz; [intros (_ & E & _ & _); contradiction|exact H].
  - right. apply Hnz; [intros (E & _ & _ & _); contradiction|exact H].
Qed.
Lemma SetVelocity_models id v w m :
  find_model (w_models w) id = Some m ->
  exists w' b, SetVelocity id v w = Ok (tt, w') /\
    forall k, find_model (w_models w') k =
              if Nat.eqb k id then Some (set_m_velocity m v b) else find_model (w_models w) k.
Proof.
  intros Hm.
  unfold SetVelocity; mstep; mrun Hm.
  unfold set_m_velocity; cbn [m_on_velocity_list m_velocity].
  destruct (m_on_velocity_list m) eqn:Ho, (velocity_is_nonzero v) eqn:Hn;
    cbn [negb andb]; mstep; mrun Hm; cbn [m_on_velocity_list m_velocity negb andb];
    rewrite ?Hn; cbn [negb andb]; mstep; mrun Hm;
    do 2 eexists; (split; [reflexivity|]);
    intros k; cbn [w_models]; rewrite !find_replace; destruct (Nat.eqb k id) eqn:E; try reflexivity;
    apply Nat.eqb_eq in E; subst k; rewrite ?Nat.eqb_refl, Hm; reflexivity.
Qed.

Lemma ancestor_chain_head ms k l : ancestor_chain ms k l -> In k l.
Proof. intros H; inversion H; left; reflexivity. Qed.

Lemma get_global_pose_chain (fuel : nat) : forall k w g w1,
  get_global_pose fuel k w = Ok (g, w1) -> exists l, ancestor_chain (w_models w) k l.
Proof.
  induction fuel as [|f IH]; intros k w g w1 H; [discriminate|].
  cbn [get_global_pose] in H. mstep.
  destruct (find_model (w_models w) k) as [m|] eqn:Hf; [|discriminate].
  destruct (m_parent m) as [p|] eqn:Hp.
  - destruct (get_global_pose f p w) as [[pp w2]|e] eqn:Hr; [|discriminate].
    destruct (IH _ _ _ _ Hr) as (l & Hl).
    exists (k :: l). exact (chain_step _ k m p l Hf Hp Hl).
  - exists [k]. exact (chain_root _ k m Hf Hp).
Qed.

Lemma strip_pose_fields w w1 :
  strip_world w1 = strip_world w -> field_frame pose_fields w w1.
Proof. apply frame_of_strip. intros m. reflexivity. Qed.

(** [GetGlobalPose] of [k] reads only the parent, pose and geometry of
    the models on [k]'s ancestor chain. *)
Lemma get_global_pose_agree (fuel : nat) : forall k w w' g w1 l,
  ancestor_chain (w_models w) k l ->
  (forall j, In j l -> option_map pose_fields (find_model (w_models w') j) =
                       option_map pose_fields (find_model (w_models w) j)) ->
  get_global_pose fuel k w = Ok (g, w1) ->
  exists w1', get_global_pose fuel k w' = Ok (g, w1').
Proof.
  induction fuel as [|f IH]; intros k w w' g w1 l Hl Hag H; [discriminate|].
  cbn [get_global_pose] in *. mstep.
  destruct (find_model (w_models w) k) as [m|] eqn:Hf; [|discriminate].
  assert (Hk := Hag k (ancestor_chain_head _ _ _ Hl)). rewrite Hf in Hk.
  destruct (find_model (w_models w') k) as [m'|] eqn:Hf'; [|discriminate].
  injection Hk as Hpar Hpo Hge.
  rewrite Hpar.
  destruct (m_parent m) as [p|] eqn:Hp.
  - inversion Hl as [k0 m0 Hf0 Hp0|k0 m0 p0 l0 Hf0 Hp0 Hl0]; subst.
    { rewrite Hf in Hf0. injection Hf0 as <-. congruence. }
    rewrite Hf in Hf0. injection Hf0 as <-. rewrite Hp in Hp0. injection Hp0 as <-.
    destruct (get_global_pose f p w) as [[pp w2]|e] eqn:Hr; [|discriminate].
    destruct (IH p w w' pp w2 l0 Hl0 (fun j Hj => Hag j (or_intror Hj)) Hr) as [w2' Hr'].
    rewrite Hr'; cbn. mstep.
    assert (F2 := strip_pose_fields _ _ (get_global_pose_frame _ _ _ _ _ Hr)).
    assert (F2' := strip_pose_fields _ _ (get_global_pose_frame _ _ _ _ _ Hr')).
    assert (Ag2 : forall j, In j (k :: l0) -> option_map pose_fields (find_model (w_models w2') j) =
                                           option_map pose_fields (find_model (w_models w2) j)).
    { intros j Hj. rewrite (F2' j), (F2 j). apply Hag, Hj. }
    destruct (find_model (w_models w2) p) as [par|] eqn:Hpp; [|discriminate].
    assert (Ap := Ag2 p (or_intror (ancestor_chain_head _ _ _ Hl0))). rewrite Hpp in Ap.
    destruct (find_model (w_models w2') p) as [par'|] eqn:Hpp'; [|discriminate].
    destruct (find_model (w_models w2) k) as [me|] eqn:Hme; [|discriminate].
    assert (Am := Ag2 k (or_introl eq_refl)). rewrite Hme in Am.
    destruct (find_model (w_models w2') k) as [me'|] eqn:Hme'; [|discriminate].
    injection Ap as _ _ Hg. injection Am as _ Hpo' _.
    injection H as <- _. rewrite Hg, Hpo'. eexists. reflexivity.
  - injection H as <- _. rewrite Hpo. eexists. reflexivity.
Qed.

Lemma get_global_pose_S (fuel : nat) (id : nat) :
  get_global_pose (S fuel) id =
  (m <- get_model id ;;
   match m_parent m with
   | Some pid =>
       parent_pose <- get_global_pose fuel pid ;;
       par <- get_model pid ;;
       me <- get_model id ;;
       let g0 := pose_sum parent_pose (m_pose me) in
       let g := mk_pose (px g0) (py g0) (pz g0 + sz (g_size (m_geom par))) (pa g0) in
       put_model id (set_m_gpose_cache me g false) ;;;
       ret g
   | None =>
       put_model id (set_m_gpose_cache m (m_pose m) false) ;;;
       ret (m_pose m)
   end).
Proof. reflexivity. Qed.

(** More fuel does not change a result of [GetGlobalPose]. *)
Lemma get_global_pose_more_fuel (fuel : nat) : forall id w g w1,
  get_global_pose fuel id w = Ok (g, w1) -> get_global_pose (S fuel) id w = Ok (g, w1).
Proof.
  induction fuel as [|f IH]; intros id w g w1 H; [discriminate|].
  rewrite get_global_pose_S in H |- *.
  unfold bind at 1 in H. unfold bind at 1. unfold get_model at 1 in H. unfold get_model at 1.
  destruct (find_model (w_models w) id) as [m|]; [|discriminate].
  destruct (m_parent m) as [p|]; [|exact H].
  unfold bind at 1 in H. unfold bind at 1.
  destruct (get_global_pose f p w) as [[pp w2]|e] eqn:Hr; [|discriminate].
  rewrite (IH _ _ _ _ Hr). exact H.
Qed.

Lemma get_global_pose_det fuel id w g w1 g' w1' :
  get_global_pose fuel id w = Ok (g, w1) -> get_global_pose fuel id w = Ok (g', w1') -> g' = g.
Proof. intros H1 H2. rewrite H1 in H2. injection H2 as <- _. reflexivity. Qed.

Lemma SetVelocity_fields id v w w' :
  SetVelocity id v w = Ok (tt, w') ->
  field_frame pose_fields w w' /\
  exists m', find_model (w_models w') id = Some m' /\ m_velocity m' = v.
Proof.
  intros H.
  assert (Hm : exists m, find_model (w_models w) id = Some m).
  { unfold SetVelocity, bind, get_model in H.
    destruct (find_model (w_models w) id) as [m|]; [exists m; reflexivity|discriminate]. }
  destruct Hm as [m Hm].
  destruct (SetVelocity_models id v w m Hm) as (w1 & b & Hr & Hk).
  rewrite Hr in H. injection H as <-.
  split.
  - intros k. rewrite Hk. destruct (Nat.eqb k id) eqn:E; [|reflexivity].
    apply Nat.eqb_eq in E; subst k. rewrite Hm. reflexivity.
  - exists (set_m_velocity m v b). split; [rewrite Hk, Nat.eqb_refl; reflexivity|reflexivity].
Qed.

(** [GetGlobalVelocity] after [SetGlobalVelocity] returns the x, y and
    angular components that were set. *)
Theorem SetGlobalVelocity_roundtrip fuel id gv lz gz w w1 gv' w2 :
  SetGlobalVelocity fuel id gv lz w = Ok (tt, w1) ->
  GetGlobalVelocity fuel id gz w1 = Ok (gv', w2) ->
  vx gv' = vx gv /\ vy gv' = vy gv /\ va gv' = va gv.
Proof.
  intros Hs Hg. unfold SetGlobalVelocity in Hs. unfold GetGlobalVelocity in Hg.
  apply bind_ok in Hs as (g & wa & Ha & Hs). cbv zeta in Hs.
  apply bind_ok in Hg as (g' & wb & Hb & Hg).
  apply bind_ok in Hg as (m & wc & Hc & Hg). apply get_model_ok in Hc as [Hm ->].
  injection Hg as <- _. cbn [vx vy va].
  destruct (SetVelocity_fields _ _ _ _ Hs) as (F1 & m1 & Hm1 & Hv1).
  (* the global pose is the same before and after *)
  assert (Fa := strip_pose_fields _ _ (get_global_pose_frame _ _ _ _ _ Ha)).
  destruct (get_global_pose_chain _ _ _ _ _ Hb) as (l & Hl).
  assert (Hag : forall j, In j l -> option_map pose_fields (find_model (w_models w) j) =
                                  option_map pose_fields (find_model (w_models w1) j)).
  { intros j _. rewrite (F1 j), (Fa j). reflexivity. }
  destruct (get_global_pose_agree _ _ _ _ _ _ _ Hl Hag Hb) as (w' & Hb').
  rewrite (get_global_pose_det _ _ _ _ _ _ _ Ha Hb').
  (* the velocity read back is the one stored *)
  assert (Fb := frame_of_strip m_velocity w1 wb (fun x => eq_refl) (get_global_pose_frame _ _ _ _ _ Hb)).
  destruct (frame_find _ _ _ _ _ Fb Hm1) as (m2 & Hm2 & Hv2).
  rewrite Hm in Hm2. injection Hm2 as <-. rewrite Hv2, Hv1. cbn [vx vy va].
  assert (E := cos_sin_one (pa g)).
  split; [|split; [|reflexivity]].
  - transitivity (vx gv * (sin (pa g) * sin (pa g) + cos (pa g) * cos (pa g))); [ring|].
    rewrite E; ring.
  - transitivity (vy gv * (sin (pa g) * sin (pa g) + cos (pa g) * cos (pa g))); [ring|].
    rewrite E; ring.
Qed.

(** ** SetGlobalPose *)

Lemma cos_sin_period_Z (x : R) (k : Z) :
  cos (x + 2 * IZR k * PI) = cos x /\ sin (x + 2 * IZR k * PI) = sin x.
Proof.
  destruct (Z_le_gt_dec 0 k) as [Hk|Hk].
  - rewrite <- (Z2Nat.id k Hk), <- INR_IZR_INZ.
    split; [apply cos_period|apply sin_period].
  - set (n := Z.to_nat (- k)).
    assert (Ek : k = (- Z.of_nat n)%Z) by (unfold n; rewrite Z2Nat.id by lia; lia).
    rewrite Ek, opp_IZR, <- INR_IZR_INZ.
    set (y := x + 2 * - INR n * PI).
    assert (Ex : x = y + 2 * INR n * PI) by (unfold y; ring).
    rewrite Ex. split; [symmetry; apply cos_period|symmetry; apply sin_period].
Qed.

Lemma cos_sin_normalize (a b : R) :
  cos (a + normalize b) = cos (a + b) /\ sin (a + normalize b) = sin (a + b).
Proof.
  unfold normalize.
  replace (a + (b + 2 * PI * IZR (Int_part (- ((b - PI) / (2 * PI))))))
    with (a + b + 2 * IZR (Int_part (- ((b - PI) / (2 * PI)))) * PI) by ring.
  apply cos_sin_period_Z.
Qed.

(** [SetPose] of [id] changes the pose of no other model, and the parent
    and geometry of none. *)
Lemma SetPose_pose_fields fuel id p w w' :
  SetPose fuel id p w = Ok (tt, w') ->
  (forall j, j <> id -> option_map pose_fields (find_model (w_models w') j) =
                       option_map pose_fields (find_model (w_models w) j)) /\
  field_frame (fun m => (m_parent m, m_geom m)) w w'.
Proof.
  intros H.
  assert (Fpg : field_frame (fun m => (m_parent m, m_geom m)) w w').
  { apply (keeps_SetPose (fun m => (m_parent m, m_geom m)) fuel id p) with (a := tt);
      [intros x; reflexivity|intros x b; reflexivity|intros x q; reflexivity|exact H]. }
  split; [|exact Fpg].
  unfold SetPose in H.
  apply bind_ok in H as (m & w0 & H0 & H). apply get_model_ok in H0 as [Hf ->].
  apply bind_ok in H as ([] & w1 & H1 & H2).
  assert (Hcb : w_models w' = w_models w1) by (injection H2 as <-; reflexivity).
  assert (Fp : forall j, j <> id -> option_map m_pose (find_model (w_models w') j) =
                                    option_map m_pose (find_model (w_models w) j)).
  { intros j Hj. rewrite Hcb. destruct (pose_eqb (m_pose m) p).
    - injection H1 as <-. reflexivity.
    - apply bind_ok in H1 as ([] & w3 & H3 & H1). cbv zeta in H1.
      apply bind_ok in H1 as (m1 & w4 & H4 & H1). apply get_model_ok in H4 as [Hf1 ->].
      apply bind_ok in H1 as ([] & w5 & H5 & H1).
      assert (Hk : keeps m_pose (need_redraw_rec fuel id ;;; gpose_dirty_tree fuel id ;;;
                                 map_with_children fuel id)).
      { apply keeps_bind; [apply keeps_need_redraw_rec; intros x; reflexivity|intros _].
        apply keeps_bind; [apply keeps_gpose_dirty_tree_rec; intros x; reflexivity|intros _].
        apply keeps_map_with_children_rec; intros x; reflexivity. }
      assert (K3 : keeps m_pose (unmap_with_children fuel id))
        by (apply keeps_unmap_with_children_rec; intros x; reflexivity).
      rewrite (Hk _ _ _ H1 j). injection H5 as <-. cbn [w_models set_w_models].
      rewrite find_replace_other by exact Hj. exact (K3 _ _ _ H3 j). }
  intros j Hj. specialize (Fp j Hj). specialize (Fpg j).
  destruct (find_model (w_models w') j), (find_model (w_models w) j);
    cbn in *; try discriminate; [|reflexivity].
  injection Fp as Ep. injection Fpg as E1 E2. unfold pose_fields. rewrite Ep, E1, E2. reflexivity.
Qed.

Lemma ancestor_chain_unique ms : forall a l1 l2,
  ancestor_chain ms a l1 -> ancestor_chain ms a l2 -> l1 = l2.
Proof.
  intros a l1 l2 H1. revert l2. induction H1 as [a m Hf Hp|a m p l Hf Hp Hl IH]; intros l2 H2;
    inversion H2 as [a' m' Hf' Hp'|a' m' p' l' Hf' Hp' Hl']; subst; rewrite Hf in Hf';
    injection Hf' as <-; try congruence.
  rewrite Hp in Hp'. injection Hp' as <-. f_equal. apply IH, Hl'.
Qed.

Lemma ancestor_chain_suffix ms a l :
  ancestor_chain ms a l -> forall b, In b l ->
  exists l', ancestor_chain ms b l' /\ (length l' <= length l)%nat.
Proof.
  induction 1 as [a m Hf Hp|a m p l Hf Hp Hl IH]; intros b Hb.
  - destruct Hb as [<-|[]]. exists [a]. split; [exact (chain_root ms a m Hf Hp)|lia].
  - destruct Hb as [<-|Hb].
    + exists (a :: l). split; [exact (chain_step ms a m p l Hf Hp Hl)|lia].
    + destruct (IH b Hb) as (l' & Hl' & Hlen). exists l'. split; [exact Hl'|cbn; lia].
Qed.

(** A model is not among the ancestors of its parent. *)
Lemma ancestor_chain_no_cycle ms a l :
  ancestor_chain ms a (a :: l) -> ~ In a l.
Proof.
  intros H Hin. inversion H as [a' m Hf Hp E|a' m p l' Hf Hp Hl E]; subst.
  - exact Hin.
  - destruct (ancestor_chain_suffix _ _ _ Hl a Hin) as (l2 & Hl2 & Hlen).
    rewrite <- (ancestor_chain_unique _ _ _ _ H Hl2) in Hlen. cbn in Hlen. lia.
Qed.

(** [SetGlobalPose] of a model with a parent stores the local pose
    whose composition with the parent's global pose gives the requested
    x, y and heading: [GetGlobalPose] afterwards returns them (the
    heading up to a whole turn).  The z of the requested pose is stored
    as the local z, so the global z comes out raised by the parent's
    global z and its size.z. *)
Theorem SetGlobalPose_child fuel id g w w' m pid g' w'' :
  find_model (w_models w) id = Some m -> m_parent m = Some pid ->
  SetGlobalPose fuel id g w = Ok (tt, w') ->
  get_global_pose (S fuel) id w' = Ok (g', w'') ->
  exists gp w0 par,
    get_global_pose fuel pid w = Ok (gp, w0) /\ find_model (w_models w) pid = Some par /\
    px g' = px g /\ py g' = py g /\ pz g' = pz gp + pz g + sz (g_size (m_geom par)) /\
    cos (pa g') = cos (pa g) /\ sin (pa g') = sin (pa g).
Proof.
  intros Hf Hp H Hg'. unfold SetGlobalPose in H.
  apply bind_ok in H as (m0 & w0 & H0 & H). apply get_model_ok in H0 as [Hf0 ->].
  rewrite Hf in Hf0. injection Hf0 as <-. rewrite Hp in H.
  apply bind_ok in H as (lp & wa & Ha & Hs). unfold GlobalToLocal in Ha.
  apply bind_ok in Ha as (gp & wb & Hb & Ha). injection Ha as <- <-.
  assert (Fs := strip_pose_fields _ _ (get_global_pose_frame _ _ _ _ _ Hb)).
  destruct (SetPose_pose_fields _ _ _ _ _ Hs) as [Fo Fpg].
  destruct (SetPose_pose _ _ _ _ _ Hs) as (ma & m' & Ha & Hm' & Hpose).
  (* the model in w' *)
  assert (Hpm' : m_parent m' = Some pid).
  { assert (E := Fpg id).
    destruct (frame_find _ _ _ _ _ Fs Hf) as (mb & Hmb & Emb).
    rewrite Hm', Hmb in E. cbn in E.
    injection E as E _. injection Emb as Emb _ _. rewrite E, Emb. exact Hp. }
  (* the parent's global pose in w' *)
  apply bind_ok in Hg' as (m2 & w3 & H3 & Hg'). apply get_model_ok in H3 as [Hm2 ->].
  rewrite Hm' in Hm2. injection Hm2 as <-. rewrite Hpm' in Hg'.
  apply bind_ok in Hg' as (gp' & w4 & H4 & Hg').
  destruct (get_global_pose_chain _ _ _ _ _ H4) as (l & Hl).
  assert (Hnc : ~ In id l).
  { apply (ancestor_chain_no_cycle (w_models w')).
    exact (chain_step _ id m' pid l Hm' Hpm' Hl). }
  assert (Hag : forall j, In j l -> option_map pose_fields (find_model (w_models w) j) =
                                  option_map pose_fields (find_model (w_models w') j)).
  { intros j Hj. rewrite Fo by (intros ->; exact (Hnc Hj)). rewrite (Fs j). reflexivity. }
  destruct (get_global_pose_agree _ _ _ _ _ _ _ Hl Hag H4) as (w5 & H5).
  rewrite (get_global_pose_det _ _ _ _ _ _ _ Hb H5) in *.
  (* the parent model *)
  destruct (get_global_pose_chain _ _ _ _ _ Hb) as (lb & Hlb).
  inversion Hlb as [x par Hpar Hx E1|x par q lq Hpar Hx Hq E1]; subst;
  exists gp, wb, par; (split; [exact Hb|]); (split; [exact Hpar|]);
  clear Hlb.
  all: apply bind_ok in Hg' as (par4 & w6 & H6 & Hg'); apply get_model_ok in H6 as [Hpar4 ->];
    apply bind_ok in Hg' as (me & w7 & H7 & Hg'); apply get_model_ok in H7 as [Hme ->];
    injection Hg' as <- _; cbn [px py pz pa pose_sum];
    assert (F4 := strip_pose_fields _ _ (get_global_pose_frame _ _ _ _ _ H4));
    assert (Ep := F4 pid); rewrite Hpar4 in Ep;
    assert (Eq := Fpg pid); assert (Eg := Fs pid); rewrite Hpar in Eg;
    destruct (find_model (w_models wb) pid) as [parb|]; [|discriminate];
    destruct (find_model (w_models w') pid) as [par'|]; [|discriminate];
    cbn in Ep, Eq, Eg; injection Ep as _ _ Ep; injection Eq as _ Eq; injection Eg as _ _ Eg;
    assert (Em := F4 id); rewrite Hme, Hm' in Em; cbn in Em; injection Em as _ Em _;
    rewrite Ep, Eq, Eg, Em, Hpose;
    destruct (pose_eqb (m_pose ma) (global_to_local gp g)) eqn:Eb;
    [apply pose_eqb_true in Eb; rewrite Eb|];
    unfold global_to_local; cbn [px py pz pa];
    assert (E := cos_sin_one (pa gp));
    (split; [transitivity (px g + (px g - px gp) * (sin (pa gp) * sin (pa gp) + cos (pa gp) * cos (pa gp) - 1)); [ring|rewrite E; ring]|]);
    (split; [transitivity (py g + (py g - py gp) * (sin (pa gp) * sin (pa gp) + cos (pa gp) * cos (pa gp) - 1)); [ring|rewrite E; ring]|]);
    (split; [ring|]);
    try rewrite normalize_idem, (proj1 (cos_sin_normalize _ _)), (proj2 (cos_sin_normalize _ _));
    replace (pa gp + (pa g - pa gp)) with (pa g) by ring; split; reflexivity.
Qed.

Lemma pose_tree_ok : tree_ok (w_models pose_tree_world).
Proof.
  intros p mp k Hf. destruct p as [|[|p]]; cbn in Hf; try discriminate;
    injection Hf as <-; destruct k as [|[|k]]; reflexivity.
Qed.

Lemma SetParent_links_witness :
  exists r w', SetParent 1 None pose_tree_world = Ok (r, w') /\
  (tree_ok (w_models w') /\ parent_of (w_models w') 1 = None /\
   (forall k, k <> 1%nat -> parent_of (w_models w') k = parent_of (w_models pose_tree_world) k) /\
   r = 0%Z).
Proof.
  do 2 eexists. split; [reflexivity|].
  apply (SetParent_links pose_tree_world _ 1%nat None _ pose_tree_ok). reflexivity.
Defined.

Lemma Subscribe_Unsubscribe_restore_witness :
  exists w', (Subscribe 0 ;;; Unsubscribe 0) sub_world = Ok (tt, w') /\
    (forall k, find_model (w_models w') k = find_model (w_models sub_world) k) /\
    w_update_list w' = w_update_list sub_world /\ w_total_subs w' = w_total_subs sub_world /\
    w_index w' = w_index sub_world /\ w_velocity_list w' = w_velocity_list sub_world /\
    w_log w' = w_log sub_world ++ (if m_has_initfunc sub_model then [EvInitfunc 0] else []) ++
                 [EvCallback 0 CbStartup; EvCallback 0 CbShutdown].
Proof.
  apply (Subscribe_Unsubscribe_restore sub_world 0%nat sub_model); [reflexivity|reflexivity|].
  intros [].
Defined.

Lemma Init_startup_witness :
  exists w', Init 0 sub_world = Ok (tt, w') /\
  if m_has_initfunc sub_model then
    find_model (w_models w') 0 = Some (set_m_subs sub_model 1) /\
    w_update_list w' = w_update_list sub_world ++ [0%nat] /\
    w_total_subs w' = (w_total_subs sub_world + 1)%Z /\
    w_log w' = w_log sub_world ++ [EvInitfunc 0; EvCallback 0 CbStartup]
  else w' = sub_world.
Proof. apply (Init_startup sub_world 0%nat sub_model); reflexivity. Defined.

Lemma AddToPose_run :
  exists w', AddToPose 3 0 1 0 0 0 pose_tree_world = Ok (tt, w').
Proof.
  unfold AddToPose. destruct (Req_dec_T 1 0) as [E|_]; [lra|].
  geval. run_pose_eqb. geval. eexists. reflexivity.
Qed.

Lemma AddToPose_effect_witness :
  exists w', AddToPose 3 0 1 0 0 0 pose_tree_world = Ok (tt, w') /\
  ((1 = 0 /\ 0 = 0 /\ 0 = 0 /\ 0 = 0 /\ w' = pose_tree_world) \/
   (~ (1 = 0 /\ 0 = 0 /\ 0 = 0 /\ 0 = 0) /\
    exists m m', find_model (w_models pose_tree_world) 0 = Some m /\
      find_model (w_models w') 0 = Some m' /\
      m_pose m' = mk_pose (px (m_pose m) + 1) (py (m_pose m) + 0) (pz (m_pose m) + 0)
                          (normalize (pa (m_pose m) + 0)) /\
      exists l, w_log w' = l ++ [EvCallback 0 CbPose])).
Proof.
  destruct AddToPose_run as (w' & Hrun). exists w'. split; [exact Hrun|].
  exact (AddToPose_effect 3%nat 0%nat 1 0 0 0 pose_tree_world w' Hrun).
Defined.

Ltac geval_vel := cbv -[IZR Rplus Rmult Rminus Ropp Rdiv Rinv cos sin sqrt atan PI Int_part up
               hypot atan2 normalize pose_eqb Rle_dec excluded_middle_informative ray_meets velocity_is_nonzero].

Lemma SGV_run : exists w1 gv' w2,
  SetGlobalVelocity 3 1 (mk_velocity 1 0 0 0) 0 pose_tree_world = Ok (tt, w1) /\
  GetGlobalVelocity 3 1 0 w1 = Ok (gv', w2).
Proof.
  do 3 eexists. split.
  - geval_vel. rewrite (proj2 (velocity_is_nonzero_spec _)) by (left; cbn; rsimpl; lra).
    geval_vel. rewrite (proj2 (velocity_is_nonzero_spec _)) by (left; cbn; rsimpl; lra).
    geval_vel. reflexivity.
  - geval_vel. reflexivity.
Qed.

Lemma SetGlobalVelocity_roundtrip_witness : exists w1 gv' w2,
  SetGlobalVelocity 3 1 (mk_velocity 1 0 0 0) 0 pose_tree_world = Ok (tt, w1) /\
  GetGlobalVelocity 3 1 0 w1 = Ok (gv', w2) /\
  (vx gv' = vx (mk_velocity 1 0 0 0) /\ vy gv' = vy (mk_velocity 1 0 0 0) /\
   va gv' = va (mk_velocity 1 0 0 0)).
Proof.
  destruct SGV_run as (w1 & gv' & w2 & H1 & H2). exists w1, gv', w2.
  split; [exact H1|]. split; [exact H2|].
  exact (SetGlobalVelocity_roundtrip 3%nat 1%nat _ 0 0 pose_tree_world w1 gv' w2 H1 H2).
Defined.

Lemma SGP_run : exists w' g' w'',
  SetGlobalPose 3 1 (mk_pose 1 0 0 0) pose_tree_world = Ok (tt, w') /\
  get_global_pose 4 1 w' = Ok (g', w'').
Proof.
  do 3 eexists. split.
  - geval. run_pose_eqb. geval. reflexivity.
  - geval. reflexivity.
Qed.

Lemma SetGlobalPose_child_witness : exists w' g' w'',
  find_model (w_models pose_tree_world) 1 = Some (new_model (Some 0%nat) 11) /\
  SetGlobalPose 3 1 (mk_pose 1 0 0 0) pose_tree_world = Ok (tt, w') /\
  get_global_pose 4 1 w' = Ok (g', w'') /\
  exists gp w0 par,
    get_global_pose 3 0 pose_tree_world = Ok (gp, w0) /\
    find_model (w_models pose_tree_world) 0 = Some par /\
    px g' = px (mk_pose 1 0 0 0) /\ py g' = py (mk_pose 1 0 0 0) /\
    pz g' = pz gp + pz (mk_pose 1 0 0 0) + sz (g_size (m_geom par)) /\
    cos (pa g') = cos (pa (mk_pose 1 0 0 0)) /\ sin (pa g') = sin (pa (mk_pose 1 0 0 0)).
Proof.
  destruct SGP_run as (w' & g' & w'' & H1 & H2). exists w', g', w''.
  split; [reflexivity|]. split; [exact H1|]. split; [exact H2|].
  exact (SetGlobalPose_child 3%nat 1%nat _ pose_tree_world w' _ 0%nat g' w''
           eq_refl eq_refl H1 H2).
Defined.

Lemma ancestor_chain_parents ms ms' a l :
  (forall k, option_map m_parent (find_model ms' k) = option_map m_parent (find_model ms k)) ->
  ancestor_chain ms' a l -> ancestor_chain ms a l.
Proof.
  intros Hp H. induction H as [id m Hf Hn|id m p l Hf Hs _ IH].
  - specialize (Hp id). rewrite Hf in Hp. cbn in Hp.
    destruct (find_model ms id) as [m0|] eqn:E; [|discriminate]. injection Hp as Hp.
    apply (chain_root _ _ m0); [exact E|congruence].
  - specialize (Hp id). rewrite Hf in Hp. cbn in Hp.
    destruct (find_model ms id) as [m0|] eqn:E; [|discriminate]. injection Hp as Hp.
    apply (chain_step _ _ m0 p); [exact E|congruence|exact IH].
Qed.

Lemma set_m_redraw_twice m : set_m_redraw (set_m_redraw m true) true = set_m_redraw m true.
Proof. reflexivity. Qed.

Lemma set_w_models_twice w a b : set_w_models (set_w_models w a) b = set_w_models w b.
Proof. destruct w; reflexivity. Qed.

Lemma need_redraw_rec_effect n : forall id w w',
  need_redraw_rec n id w = Ok (tt, w') ->
  exists l, ancestor_chain (w_models w) id l /\
    w' = set_w_models w (w_models w') /\
    forall k, find_model (w_models w') k =
      if existsb (Nat.eqb k) l
      then option_map (fun m => set_m_redraw m true) (find_model (w_models w) k)
      else find_model (w_models w) k.
Proof.
  induction n as [|n IH]; intros id w w' H; cbn [need_redraw_rec] in H; [discriminate|].
  apply bind_ok in H as (m & w0 & H0 & H). apply get_model_ok in H0 as [Hm ->].
  apply bind_ok in H as ([] & w1 & H1 & H). unfold put_model in H1. injection H1 as <-.
  destruct (m_parent m) as [p|] eqn:Hp.
  - destruct (IH _ _ _ H) as (l & Hc & Hw & Hk). exists (id :: l). split; [|split].
    + apply (chain_step _ _ m p _ Hm Hp). revert Hc. apply ancestor_chain_parents.
      intros k. cbn [w_models set_w_models]. rewrite find_replace.
      destruct (Nat.eqb k id) eqn:E; [|reflexivity].
      apply Nat.eqb_eq in E. subst k. rewrite Hm. reflexivity.
    + etransitivity; [exact Hw|apply set_w_models_twice].
    + intros k. rewrite Hk. cbn [w_models set_w_models existsb]. rewrite !find_replace.
      destruct (Nat.eqb k id) eqn:E; cbn [orb].
      * apply Nat.eqb_eq in E. subst k. rewrite Hm. cbn.
        destruct (existsb (Nat.eqb id) l); reflexivity.
      * reflexivity.
  - injection H as <-. exists [id]. split; [exact (chain_root _ _ m Hm Hp)|split].
    + reflexivity.
    + intros k. cbn [w_models set_w_models existsb]. rewrite find_replace, orb_false_r.
      destruct (Nat.eqb k id) eqn:E; [|reflexivity].
      apply Nat.eqb_eq in E. subst k. rewrite Hm. reflexivity.
Qed.

Lemma miter_block_unmap_index bs : forall w w',
  miter block_unmap bs w = Ok (tt, w') ->
  w' = set_w_index w (w_index w') /\
  w_index w' = filter (fun e => forallb (fun b => negb (Nat.eqb (e_block e) (b_id b))) bs)
                      (w_index w).
Proof.
  induction bs as [|b bs IH]; intros w w' H; cbn [miter] in H.
  - injection H as <-. split; [destruct w; reflexivity|].
    cbn. induction (w_index w) as [|e ix IHix]; cbn; [reflexivity|]. rewrite <- IHix; reflexivity.
  - apply bind_ok in H as ([] & w1 & H1 & H2). unfold block_unmap, bind, get_world, put_world in H1.
    injection H1 as <-. destruct (IH _ _ H2) as [Hw Hi]. split.
    + etransitivity; [exact Hw|destruct w; reflexivity].
    + rewrite Hi. cbn [w_index set_w_index]. clear.
      induction (w_index w) as [|e ix IHix]; cbn [filter forallb]; [reflexivity|].
      destruct (negb (Nat.eqb (e_block e) (b_id b))); cbn [filter andb];
        [rewrite IHix; reflexivity|].
      rewrite IHix. destruct (forallb (fun b0 => negb (Nat.eqb (e_block e) (b_id b0))) bs); reflexivity.
Qed.

Lemma need_redraw_rec_self n id w w' :
  need_redraw_rec n id w = Ok (tt, w') ->
  w_index w' = w_index w /\
  find_model (w_models w') id =
    option_map (fun m => set_m_redraw m true) (find_model (w_models w) id) /\
  forall k, option_map m_blocks (find_model (w_models w') k) =
            option_map m_blocks (find_model (w_models w) k).
Proof.
  intros H. destruct (need_redraw_rec_effect _ _ _ _ H) as (l & Hc & Hw & Hk).
  split; [|split].
  - rewrite Hw. destruct w; reflexivity.
  - rewrite Hk. replace (existsb (Nat.eqb id) l) with true; [reflexivity|].
    symmetry. apply existsb_exists. exists id. split; [exact (ancestor_chain_head _ _ _ Hc)|].
    apply Nat.eqb_refl.
  - intros k. rewrite Hk. destruct (existsb (Nat.eqb k) l); [|reflexivity].
    destruct (find_model (w_models w) k); reflexivity.
Qed.

(** [NeedRedraw] sets the redraw flag of the model and of every model on
    its ancestor chain, and changes nothing else. *)
Theorem NeedRedraw_ancestors fuel id w w' :
  need_redraw_rec fuel id w = Ok (tt, w') ->
  exists l, ancestor_chain (w_models w) id l /\
    w' = set_w_models w (w_models w') /\
    forall k, find_model (w_models w') k =
      if existsb (Nat.eqb k) l
      then option_map (fun m => set_m_redraw m true) (find_model (w_models w) k)
      else find_model (w_models w) k.
Proof. apply need_redraw_rec_effect. Qed.

(** [AddBlockRect] puts the rectangle block (z band 0..1) at the front
    of the model's block list and asks for a redraw; it does not map the
    block into the index, and no other model's blocks change. *)
Theorem AddBlockRect_effect fuel id bid x y width height w w' :
  AddBlockRect fuel id bid x y width height w = Ok (tt, w') ->
  exists m, find_model (w_models w) id = Some m /\
    find_model (w_models w') id =
      Some (set_m_redraw (set_m_blocks m
        (mk_block bid [mk_point x y; mk_point (x + width) y;
                       mk_point (x + width) (y + height); mk_point x (y + height)] 0 1
         :: m_blocks m)) true) /\
    w_index w' = w_index w /\
    forall k, k <> id -> option_map m_blocks (find_model (w_models w') k) =
                         option_map m_blocks (find_model (w_models w) k).
Proof.
  unfold AddBlockRect, AddBlock. intros H.
  apply bind_ok in H as (m & w0 & H0 & H). apply get_model_ok in H0 as [Hm ->].
  apply bind_ok in H as ([] & w1 & H1 & H). unfold put_model in H1. injection H1 as <-.
  destruct (need_redraw_rec_self _ _ _ _ H) as (Hi & Hs & Hb).
  exists m. split; [exact Hm|split; [|split]].
  - rewrite Hs. cbn [w_models set_w_models]. rewrite find_replace_same, Hm. reflexivity.
  - rewrite Hi. reflexivity.
  - intros k Hne. rewrite Hb. cbn [w_models set_w_models].
    rewrite find_replace_other by exact Hne. reflexivity.
Qed.

(** [ClearBlocks] empties the model's block list, removes exactly the
    index entries of the old blocks, leaves other models' blocks alone and
    asks for a redraw; [TestCollision] of the model then reports no hit
    and changes nothing. *)
Theorem ClearBlocks_effect fuel id w w' :
  ClearBlocks fuel id w = Ok (tt, w') ->
  exists m, find_model (w_models w) id = Some m /\
    find_model (w_models w') id = Some (set_m_redraw (set_m_blocks m []) true) /\
    w_index w' = filter (fun e => forallb (fun b => negb (Nat.eqb (e_block e) (b_id b)))
                                          (m_blocks m)) (w_index w) /\
    (forall k, k <> id -> option_map m_blocks (find_model (w_models w') k) =
                          option_map m_blocks (find_model (w_models w) k)) /\
    forall fuel' pd, TestCollision fuel' id pd w' = Ok (None, w').
Proof.
  unfold ClearBlocks. intros H.
  apply bind_ok in H as (m & w0 & H0 & H). apply get_model_ok in H0 as [Hm ->].
  apply bind_ok in H as ([] & w1 & H1 & H).
  destruct (miter_block_unmap_index _ _ _ H1) as [Hw1 Hi1].
  assert (Hm1 : find_model (w_models w1) id = Some m) by (rewrite Hw1; exact Hm).
  apply bind_ok in H as (m1 & w2 & H2 & H). apply get_model_ok in H2 as [Hm1' ->].
  rewrite Hm1 in Hm1'. injection Hm1' as <-.
  apply bind_ok in H as ([] & w3 & H3 & H). unfold put_model in H3. injection H3 as <-.
  destruct (need_redraw_rec_self _ _ _ _ H) as (Hi & Hs & Hb).
  assert (Hf : find_model (w_models w') id = Some (set_m_redraw (set_m_blocks m []) true)).
  { rewrite Hs. cbn [w_models set_w_models]. rewrite find_replace_same, Hm1. reflexivity. }
  exists m. split; [exact Hm|split; [exact Hf|split; [|split]]].
  - rewrite Hi. cbn [w_index set_w_models]. exact Hi1.
  - intros k Hne. rewrite Hb. cbn [w_models set_w_models].
    rewrite find_replace_other by exact Hne. rewrite Hw1. reflexivity.
  - intros fuel' pd. unfold TestCollision, bind, get_model. rewrite Hf. reflexivity.
Qed.

Lemma NeedRedraw_ancestors_witness : exists w',
  need_redraw_rec 3 1 pose_tree_world = Ok (tt, w') /\
  exists l, ancestor_chain (w_models pose_tree_world) 1 l /\
    w' = set_w_models pose_tree_world (w_models w') /\
    forall k, find_model (w_models w') k =
      if existsb (Nat.eqb k) l
      then option_map (fun m => set_m_redraw m true) (find_model (w_models pose_tree_world) k)
      else find_model (w_models pose_tree_world) k.
Proof.
  assert (R : exists w', need_redraw_rec 3 1 pose_tree_world = Ok (tt, w'))
    by (geval; eexists; reflexivity).
  destruct R as [w' H]. exists w'. split; [exact H|].
  exact (NeedRedraw_ancestors 3%nat 1%nat pose_tree_world w' H).
Defined.

Lemma AddBlockRect_effect_witness : exists w',
  AddBlockRect 3 1 12 0 0 1 1 pose_tree_world = Ok (tt, w') /\
  exists m, find_model (w_models pose_tree_world) 1 = Some m /\
    find_model (w_models w') 1 =
      Some (set_m_redraw (set_m_blocks m
        (mk_block 12 [mk_point 0 0; mk_point (0 + 1) 0;
                      mk_point (0 + 1) (0 + 1); mk_point 0 (0 + 1)] 0 1
         :: m_blocks m)) true) /\
    w_index w' = w_index pose_tree_world /\
    forall k, k <> 1%nat -> option_map m_blocks (find_model (w_models w') k) =
                            option_map m_blocks (find_model (w_models pose_tree_world) k).
Proof.
  assert (R : exists w', AddBlockRect 3 1 12 0 0 1 1 pose_tree_world = Ok (tt, w'))
    by (geval; eexists; reflexivity).
  destruct R as [w' H]. exists w'. split; [exact H|].
  exact (AddBlockRect_effect 3%nat 1%nat 12%nat 0 0 1 1 pose_tree_world w' H).
Defined.

Lemma ClearBlocks_effect_witness : exists w',
  ClearBlocks 3 1 indexed_tree_world = Ok (tt, w') /\
  exists m, find_model (w_models indexed_tree_world) 1 = Some m /\
    find_model (w_models w') 1 = Some (set_m_redraw (set_m_blocks m []) true) /\
    w_index w' = filter (fun e => forallb (fun b => negb (Nat.eqb (e_block e) (b_id b)))
                                          (m_blocks m)) (w_index indexed_tree_world) /\
    (forall k, k <> 1%nat -> option_map m_blocks (find_model (w_models w') k) =
                            option_map m_blocks (find_model (w_models indexed_tree_world) k)) /\
    forall fuel' pd, TestCollision fuel' 1 pd w' = Ok (None, w').
Proof.
  assert (R : exists w', ClearBlocks 3 1 indexed_tree_world = Ok (tt, w'))
    by (geval; eexists; reflexivity).
  destruct R as [w' H]. exists w'. split; [exact H|].
  exact (ClearBlocks_effect 3%nat 1%nat indexed_tree_world w' H).
Defined.
